(** * Tellusim BlueNoise: void-and-cluster mask generator

    Shallow embedding of [BlueNoise::dispatch], [BlueNoise::dispatch_kernel]
    and of the GLSL compute shaders they launch (sample, position, update,
    inverse, filter, upscale), followed by the properties of the extremal
    search, of the phase driver and of the size remap.

    Conventions.
    - [float] values of the shaders are IEEE binary32 numbers, represented by
      [spec_float] with precision 24 and exponent bound 128; comparisons are
      [SFltb], so a NaN operand makes every comparison false, as in GLSL.
    - [uint32_t] quantities are integers in [Z]; where the source can wrap,
      the reduction modulo 2^32 is written out ([u32]).
    - shared arrays and storage buffers are lists, indexed through
      [Z.to_nat]; the indices the shaders compute stay far below 2^32.
    - the Fourier transform is an external collaborator and appears as a
      pair of section variables. *)

From stdpp Require Import base list list_numbers.
From Stdlib Require Import ZArith Lia Floats.SpecFloat Permutation.

Local Open Scope Z_scope.

(** ** Binary32 numbers *)

Definition f32 : Type := spec_float.

Definition f32_lt (a b : f32) : bool := SFltb a b.
Definition f32_neg (a : f32) : f32 := SFopp a.
Definition f32_add (a b : f32) : f32 := SFadd 24 128 a b.
Definition f32_sub (a b : f32) : f32 := SFsub 24 128 a b.
Definition f32_mul (a b : f32) : f32 := SFmul 24 128 a b.

Definition f32_is_nan (a : f32) : bool :=
  match a with S754_nan => true | _ => false end.

(** The literals [0.0f], [0.5f], [1.0f] and [-1e9f].  10^9 = 15625000 * 2^6
    with 2^23 <= 15625000 < 2^24, hence [-1e9f] is exact in binary32. *)
Definition f32_zero : f32 := S754_zero false.
Definition f32_half : f32 := S754_finite false 8388608 (-24).
Definition f32_one : f32 := S754_finite false 8388608 (-23).
Definition f32_neg1e9 : f32 := S754_finite true 15625000 6.

(** ** Integer helpers *)

Definition u32 (x : Z) : Z := x mod 2 ^ 32.

(** [Maxu32], the value [~0u] that marks "do not record". *)
Definition Maxu32 : Z := 2 ^ 32 - 1.

(** [udiv(A, B)] / [UDIV(A, B)]: [((A) + (B) - 1u) / (B)]. *)
Definition udiv (a b : Z) : Z := (a + b - 1) / b.

(** Modelled from the spec: [npot] (TellusimMath.h is not part of the
    sources) rounds its argument up to the next power of two. *)
Definition npot (x : Z) : Z := 2 ^ Z.log2_up x.

(** The constants of the private enumeration of [class BlueNoise]. *)
Definition MinSize : Z := 64.
Definition BatchSize : Z := 512.
Definition SampleGroupSize : Z := 16.
Definition PositionGroupSize : Z := 256.

(** ** Textures and buffers *)

Abbreviation ivec2 := (Z * Z)%type (only parsing).

(** An [ivec4] slot of [position_buffer] or [sequence_buffer].  The [z]
    component carries a weight through [floatBitsToInt]/[intBitsToFloat];
    it is kept as the binary32 number those bits denote. *)
Record ivec4 : Type := IVec4 { vec_x : Z; vec_y : Z; vec_z : f32; vec_w : Z }.

Definition vec_xy (v : ivec4) : ivec2 := (vec_x v, vec_y v).

(** A single-channel r32f texture. *)
Record texture2D : Type := Texture {
  tex_width : Z;
  tex_height : Z;
  tex_data : Z -> Z -> f32
}.

Definition tex_size (t : texture2D) : ivec2 := (tex_width t, tex_height t).

Definition in_bounds (size p : ivec2) : bool :=
  (0 <=? p.1) && (p.1 <? size.1) && (0 <=? p.2) && (p.2 <? size.2).

(** [texelFetch(t, p, 0).x]; out of bounds the model answers zero. *)
Definition texelFetch (t : texture2D) (p : ivec2) : f32 :=
  if in_bounds (tex_size t) p then tex_data t p.1 p.2 else f32_zero.

(** [imageStore(t, p, vec4(v, 0, 0, 0))]; a store out of bounds is dropped. *)
Definition imageStore (t : texture2D) (p : ivec2) (v : f32) : texture2D :=
  if in_bounds (tex_size t) p then
    Texture (tex_width t) (tex_height t)
            (fun x y => if (x =? p.1) && (y =? p.2) then v else tex_data t x y)
  else t.

(** A two-channel rg32f texture (frequency domain). *)
Record ctexture : Type := CTexture {
  ctex_width : Z;
  ctex_height : Z;
  ctex_data : Z -> Z -> f32 * f32
}.

(** All texel coordinates of a [w] x [h] image, row by row. *)
Definition all_positions (w h : Z) : list ivec2 :=
  y ← seqZ 0 h; x ← seqZ 0 w; [(x, y)].

(** ** INVERSE_SHADER *)

Definition inverse_shader (in_texture : texture2D) : texture2D :=
  Texture (tex_width in_texture) (tex_height in_texture)
          (fun x y => f32_sub f32_one (texelFetch in_texture (x, y))).

(** ** FILTER_SHADER: pointwise complex multiplication *)

Definition filter_shader (in_texture_0 in_texture_1 : ctexture) : ctexture :=
  CTexture (ctex_width in_texture_0) (ctex_height in_texture_0)
    (fun x y =>
       let '(r0, i0) := ctex_data in_texture_0 x y in
       let '(r1, i1) := ctex_data in_texture_1 x y in
       (f32_sub (f32_mul r0 r1) (f32_mul i0 i1),
        f32_add (f32_mul i0 r1) (f32_mul r0 i1))).

(** ** The shared-memory tree reduction

    [weights[]] and [positions[]] are kept together as one list of lanes.
    Between two barriers every thread runs the loop body once; thread
    [local_id] touches only the slots [index] and [index + offset], and no
    two threads share a slot, so running the threads one after the other
    yields the state the work group reaches at the barrier. *)

Abbreviation lane := (ivec2 * f32)%type (only parsing).

Definition reduce_thread (N offset : Z) (sh : list lane) (local_id : Z)
  : list lane :=
  let local_id_2 := local_id * 2 in
  let index := offset * local_id_2 in
  if index + offset <? N then
    match sh !! Z.to_nat index, sh !! Z.to_nat (index + offset) with
    | Some a, Some b => if f32_lt a.2 b.2 then <[Z.to_nat index := b]> sh else sh
    | _, _ => sh
    end
  else sh.

Definition reduce_round (N offset : Z) (sh : list lane) : list lane :=
  foldl (reduce_thread N offset) sh (seqZ 0 N).

(** [for(uint offset = 1u; offset < N; offset <<= 1u)]; the offset doubles,
    so [N] rounds of fuel always suffice. *)
Fixpoint reduce_loop (fuel : nat) (N offset : Z) (sh : list lane) : list lane :=
  match fuel with
  | O => sh
  | S fuel' =>
      if offset <? N
      then reduce_loop fuel' N (offset * 2) (reduce_round N offset sh)
      else sh
  end.

Definition tree_reduce (N : Z) (sh : list lane) : list lane :=
  reduce_loop (Z.to_nat N) N 1 sh.

(** ** MIN_SAMPLE_SHADER / MAX_SAMPLE_SHADER *)

Inductive sample_kernel : Type := MIN_SAMPLE_SHADER | MAX_SAMPLE_SHADER.

(** The "sample weight" block: [value] is the pattern texel, [weight] the
    energy texel. *)
Definition sample_weight (k : sample_kernel) (value weight : f32) : f32 :=
  match k with
  | MIN_SAMPLE_SHADER =>
      if f32_lt f32_half value then f32_neg1e9 else f32_neg weight
  | MAX_SAMPLE_SHADER =>
      if f32_lt value f32_half then f32_neg1e9 else weight
  end.

(** [gl_GlobalInvocationID.xy] of thread [local_id] of work group
    [group_id], for a GROUP_SIZE x GROUP_SIZE local size. *)
Definition global_id (G : Z) (group_id : ivec2) (local_id : Z) : ivec2 :=
  (group_id.1 * G + local_id mod G, group_id.2 * G + local_id / G).

Definition pixel_lane (k : sample_kernel) (in_texture_0 in_texture_1 : texture2D)
    (p : ivec2) : lane :=
  (p, sample_weight k (texelFetch in_texture_0 p) (texelFetch in_texture_1 p)).

(** Shared memory of one work group right after the first barrier. *)
Definition sample_init (G : Z) (k : sample_kernel)
    (in_texture_0 in_texture_1 : texture2D) (group_id : ivec2) : list lane :=
  map (fun local_id =>
         pixel_lane k in_texture_0 in_texture_1 (global_id G group_id local_id))
      (seqZ 0 (G * G)).

Definition lane_to_ivec4 (l : lane) : ivec4 := IVec4 l.1.1 l.1.2 l.2 0.

(** What thread 0 of the group stores into its [position_buffer] slot. *)
Definition sample_group (G : Z) (k : sample_kernel)
    (in_texture_0 in_texture_1 : texture2D) (group_id : ivec2) : ivec4 :=
  lane_to_ivec4
    (default ((0, 0), f32_zero)
       (tree_reduce (G * G) (sample_init G k in_texture_0 in_texture_1 group_id)
          !! 0%nat)).

(** The first [groups_x * groups_y] slots of [position_buffer] after the
    sample kernel, which [compute.dispatch(noise_texture)] launches on
    [udiv(width, G)] x [udiv(height, G)] work groups: slot
    [num_groups * group_id.y + group_id.x] belongs to group [group_id],
    [num_groups] being the number of groups along x. *)
Definition sample_shader (G : Z) (k : sample_kernel)
    (in_texture_0 in_texture_1 : texture2D) : list ivec4 :=
  gy ← seqZ 0 (udiv (tex_height in_texture_0) G);
  gx ← seqZ 0 (udiv (tex_width in_texture_0) G);
  [sample_group G k in_texture_0 in_texture_1 (gx, gy)].

(** ** POSITION_SHADER *)

Definition sentinel : lane := ((0, 0), f32_neg1e9).

(** The "sample positions" loop of thread [local_id]. *)
Definition position_lane (G num_positions : Z) (position_buffer : list ivec4)
    (local_id : Z) : lane :=
  foldl (fun acc i =>
           let index := G * i + local_id in
           if index <? num_positions then
             match position_buffer !! Z.to_nat index with
             | Some position =>
                 if f32_lt acc.2 (vec_z position)
                 then (vec_xy position, vec_z position)
                 else acc
             | None => acc
             end
           else acc)
        sentinel (seqZ 0 (udiv num_positions G)).

(** The shader overwrites [position_buffer[0]] with the winner. *)
Definition position_shader (G num_positions : Z) (position_buffer : list ivec4)
  : list ivec4 :=
  let sh := map (position_lane G num_positions position_buffer) (seqZ 0 G) in
  match tree_reduce G sh !! 0%nat with
  | Some l => <[0%nat := lane_to_ivec4 l]> position_buffer
  | None => position_buffer
  end.

(** ** The position remap of UPSCALE_SHADER and UPDATE_SHADER

    GLSL integer [/] and [%] are modelled by truncating division ([Z.quot],
    [Z.rem]); GLSL leaves [%] undefined for a negative operand. *)

Definition upscale_position (surface_size texture_size global : ivec2) : ivec2 :=
  let position := global in
  let offset := ((surface_size.1 - texture_size.1) ÷ 2,
                 (surface_size.2 - texture_size.2) ÷ 2) in
  let position :=
    (if position.1 <? offset.1 then position.1 + texture_size.1 else position.1,
     if position.2 <? offset.2 then position.2 + texture_size.2 else position.2) in
  (Z.rem (position.1 - offset.1) texture_size.1,
   Z.rem (position.2 - offset.2) texture_size.2).

Definition upscale_shader (in_texture : texture2D) (surface_size : ivec2) : texture2D :=
  Texture surface_size.1 surface_size.2
    (fun x y =>
       texelFetch in_texture
         (upscale_position surface_size (tex_size in_texture) (x, y))).

Definition update_position (texture_size surface_size : ivec2) (position : ivec2)
  : ivec2 :=
  let offset := ((texture_size.1 - surface_size.1) ÷ 2,
                 (texture_size.2 - surface_size.2) ÷ 2) in
  let position :=
    (if position.1 <? offset.1 then position.1 + surface_size.1 else position.1,
     if position.2 <? offset.2 then position.2 + surface_size.2 else position.2) in
  (Z.rem (position.1 - offset.1) surface_size.1,
   Z.rem (position.2 - offset.2) surface_size.2).

(** ** UPDATE_SHADER

    Reads the winner from [position_buffer[0]], maps it to the surface,
    stores [value] there and, unless [index] is [~0u], records the mapped
    position in [sequence_buffer[index]]. *)
Definition update_shader (texture_size : ivec2) (value : f32) (index : Z)
    (out_surface : texture2D) (sequence_buffer position_buffer : list ivec4)
  : texture2D * list ivec4 :=
  let position := default (IVec4 0 0 f32_zero 0) (position_buffer !! 0%nat) in
  let xy := update_position texture_size (tex_size out_surface) (vec_xy position) in
  let position := IVec4 xy.1 xy.2 (vec_z position) (vec_w position) in
  (imageStore out_surface xy value,
   if index =? Maxu32 then sequence_buffer
   else <[Z.to_nat index := position]> sequence_buffer).

(** ** RENDER_SHADER and LAYER_SHADER *)

(** [float(n)] for an integer [n]. *)
Definition f32_of_int (n : Z) : f32 := binary_normalize 24 128 n 0 false.
Definition f32_div (a b : f32) : f32 := SFdiv 24 128 a b.

(** Thread [global_id] scatters the value [index / (width * height - 1)] to
    the position recorded in [sequence_buffer[index]]. *)
Definition render_thread (width height : Z) (sequence_buffer : list ivec4)
    (out_surface : texture2D) (global_id : ivec2) : texture2D :=
  if (global_id.1 <? tex_width out_surface) && (global_id.2 <? tex_height out_surface)
  then
    let index := width * global_id.2 + global_id.1 in
    let position :=
      vec_xy (default (IVec4 0 0 f32_zero 0) (sequence_buffer !! Z.to_nat index)) in
    let value := f32_div (f32_of_int index) (f32_of_int (width * height - 1)) in
    imageStore out_surface position value
  else out_surface.

Definition render_shader (width height : Z) (sequence_buffer : list ivec4)
    (out_surface : texture2D) : texture2D :=
  foldl (render_thread width height sequence_buffer) out_surface
        (all_positions (tex_width out_surface) (tex_height out_surface)).

Definition layer_shader (threshold : f32) (in_texture : texture2D) : texture2D :=
  Texture (tex_width in_texture) (tex_height in_texture)
    (fun x y =>
       let value :=
         f32_sub f32_one
           (texelFetch in_texture
              (tex_width in_texture - x - 1, tex_height in_texture - y - 1)) in
       if f32_lt value threshold then f32_one else f32_zero).

(** ** Loops of [BlueNoise::dispatch] *)

(** The loop shape shared by all phases:
    [for(i = start; i < stop;) { for(end = min(i + BatchSize, stop); i < end; i++) body(i); flip; progress; }].
    [device.flip()] and [print_progress] do not touch the generator state;
    the division in the argument of [print_progress] is accounted for in
    [dispatch]. *)
Fixpoint batched_for {S : Type} (fuel : nat) (i stop : Z) (body : Z -> S -> S)
    (s : S) : S :=
  match fuel with
  | O => s
  | Datatypes.S fuel' =>
      if i <? stop then
        let end_ := Z.min (u32 (i + BatchSize)) stop in
        let s' := foldl (fun s k => body k s) s (seqZ i (end_ - i)) in
        batched_for fuel' (Z.max i end_) stop body s'
      else s
  end.

(** Number of on-pixels a texture holds: texels above [0.5f]. *)
Definition is_on (t : texture2D) (p : ivec2) : bool := f32_lt f32_half (texelFetch t p).

Definition count_on (t : texture2D) : Z :=
  Z.of_nat (length (List.filter (is_on t) (all_positions (tex_width t) (tex_height t)))).

(** The "number of positions" loop: thresholds the input image at [0.5f] in
    place and counts the pixels set to one. *)
Definition seed_pixel (st : texture2D * Z) (p : ivec2) : texture2D * Z :=
  if f32_lt f32_half (texelFetch st.1 p)
  then (imageStore st.1 p f32_one, u32 (st.2 + 1))
  else (imageStore st.1 p f32_zero, st.2).

Definition seed_image (input_image : texture2D) : texture2D * Z :=
  foldl seed_pixel (input_image, 0)
        (all_positions (tex_width input_image) (tex_height input_image)).

(** The textures and the buffer the phases mutate. *)
Record generator : Type := Generator {
  noise_texture : texture2D;
  copy_texture : texture2D;
  sequence_buffer : list ivec4
}.

Section Generator.

(** [FourierTransform::dispatch] in the modes [ForwardRtoC] and
    [BackwardCtoR]; [None] when the transform cannot be dispatched. *)
Variable forward_transform : texture2D -> option ctexture.
Variable backward_transform : ctexture -> option texture2D.

(** Members set up by [dispatch] before the loops: the spectrum of the
    energy kernel and the size of [backward_texture] (the padded size). *)
Variable convolution_texture : ctexture.
Variable backward_size : ivec2.

(** [BlueNoise::dispatch_kernel]: one greedy step on [texture]. *)
Definition dispatch_kernel (texture : texture2D) (sequence_buffer : list ivec4)
    (kernel : sample_kernel) (value : f32) (index : Z)
  : bool * texture2D * list ivec4 :=
  (* upscale kernel *)
  let noise_texture :=
    if (tex_width texture =? backward_size.1) && (tex_height texture =? backward_size.2)
    then texture
    else upscale_shader texture backward_size in
  (* forward transform *)
  match forward_transform noise_texture with
  | None => (false, texture, sequence_buffer)
  | Some forward_texture_0 =>
      (* filter pass *)
      let forward_texture_1 := filter_shader forward_texture_0 convolution_texture in
      (* backward transform *)
      match backward_transform forward_texture_1 with
      | None => (false, texture, sequence_buffer)
      | Some backward_texture =>
          (* sample kernel *)
          let num_groups := udiv (tex_width noise_texture) SampleGroupSize in
          let position_buffer :=
            sample_shader SampleGroupSize kernel noise_texture backward_texture in
          (* reduction kernel *)
          let num_positions :=
            num_groups * udiv (tex_height noise_texture) SampleGroupSize in
          let position_buffer :=
            position_shader PositionGroupSize num_positions position_buffer in
          (* update kernel *)
          let '(texture, sequence_buffer) :=
            update_shader (tex_size noise_texture) value index texture
                          sequence_buffer position_buffer in
          (true, texture, sequence_buffer)
      end
  end.

(** A step on [noise_texture], and one on [copy_texture]; the callers
    drop the boolean. *)
Definition step_noise (kernel : sample_kernel) (value : f32) (index : Z)
    (g : generator) : generator :=
  let '(_, t, sb) :=
    dispatch_kernel (noise_texture g) (sequence_buffer g) kernel value index in
  Generator t (copy_texture g) sb.

Definition step_copy (kernel : sample_kernel) (value : f32) (index : Z)
    (g : generator) : generator :=
  let '(_, t, sb) :=
    dispatch_kernel (copy_texture g) (sequence_buffer g) kernel value index in
  Generator (noise_texture g) t sb.

(** One iteration of the "create initial sequence" loop. *)
Definition initial_pair (g : generator) : generator :=
  step_noise MAX_SAMPLE_SHADER f32_zero Maxu32
    (step_noise MIN_SAMPLE_SHADER f32_one Maxu32 g).

Definition initial_sequence (num_positions : Z) (g : generator) : generator :=
  batched_for (Z.to_nat num_positions) 0 num_positions (fun _ => initial_pair) g.

(** "first phase": [device.copyTexture(copy_texture, noise_texture)], then
    [num_positions] steps on the copy. *)
Definition first_phase (num_positions : Z) (g : generator) : generator :=
  let g := Generator (noise_texture g) (noise_texture g) (sequence_buffer g) in
  batched_for (Z.to_nat num_positions) 0 num_positions
    (fun i => step_copy MAX_SAMPLE_SHADER f32_zero (u32 (num_positions - i - 1))) g.

(** "second phase": steps on [noise_texture]. *)
Definition second_phase (num_positions half_pixels : Z) (g : generator) : generator :=
  batched_for (Z.to_nat (half_pixels - num_positions)) num_positions half_pixels
    (fun i => step_noise MIN_SAMPLE_SHADER f32_one i) g.

(** "third phase": the inverse kernel writes [1 - noise_texture] into
    [copy_texture], then steps on the copy. *)
Definition third_phase (half_pixels num_pixels : Z) (g : generator) : generator :=
  let g := Generator (noise_texture g) (inverse_shader (noise_texture g))
                     (sequence_buffer g) in
  batched_for (Z.to_nat (num_pixels - half_pixels)) half_pixels num_pixels
    (fun i => step_copy MAX_SAMPLE_SHADER f32_zero i) g.

(** The three phases of one pass of the "create noise layers" loop. *)
Definition layer_phases (num_positions half_pixels num_pixels : Z)
    (g : generator) : generator :=
  third_phase half_pixels num_pixels
    (second_phase num_positions half_pixels
       (first_phase num_positions g)).

(** One pass of the layer loop: the phases, "render noise" into
    [layer_texture] and, when another layer follows, the layer kernel
    that re-seeds [noise_texture].  Returns the generator and the
    rendered layer. *)
Definition noise_layer (width height num_positions : Z) (last : bool)
    (layer_texture : texture2D) (g : generator) : generator * texture2D :=
  let num_pixels := u32 (width * height) in
  let half_pixels := num_pixels / 2 in
  let g := layer_phases num_positions half_pixels num_pixels g in
  let layer_texture := render_shader width height (sequence_buffer g) layer_texture in
  let g :=
    if last then g
    else Generator
           (layer_shader (f32_div (f32_of_int num_positions) (f32_of_int num_pixels))
                         layer_texture)
           (copy_texture g) (sequence_buffer g) in
  (g, layer_texture).

(** The layer loop; [noise_image] collects the layers in order. *)
Fixpoint noise_layers (width height num_positions : Z) (layers : nat)
    (layer_texture : texture2D) (g : generator) : list texture2D :=
  match layers with
  | O => []
  | Datatypes.S rest =>
      let '(g, layer_texture) :=
        noise_layer width height num_positions (Nat.eqb rest 0) layer_texture g in
      layer_texture :: noise_layers width height num_positions rest layer_texture g
  end.

End Generator.

(** ** Notions used to state the properties *)

(** The lane a pixel enters the reduction with, and its weight. *)
Definition pixel_weight (k : sample_kernel) (T E : texture2D) (p : ivec2) : f32 :=
  sample_weight k (texelFetch T p) (texelFetch E p).

Definition ivec4_to_lane (v : ivec4) : lane := (vec_xy v, vec_z v).

(** What one comparison of the reduction keeps. *)
Definition merged (a b : lane) : lane := if f32_lt a.2 b.2 then b else a.

(** [r] is a lane of [l] in the index range [lo, hi) that no lane of that
    range beats. *)
Definition block_max (l : list lane) (lo hi : Z) (r : lane) : Prop :=
  (∃ i, lo <= i < hi ∧ l !! Z.to_nat i = Some r) ∧
  ∀ i x, lo <= i < hi → l !! Z.to_nat i = Some x → f32_lt r.2 x.2 = false.

(** State of the shared array before the round with offset [s], for the
    initial content [l]: slot [s * j] holds the maximum of block [j]. *)
Definition reduce_inv (N : Z) (l : list lane) (s : Z) (sh : list lane) : Prop :=
  Z.of_nat (length sh) = N ∧
  ∀ j, 0 <= j → s * j < N →
    ∃ r, sh !! Z.to_nat (s * j) = Some r ∧ block_max l (s * j) (Z.min (s * j + s) N) r.

(** The two search kernels as [dispatch_kernel] chains them; the winner is
    slot 0 of the result. *)
Definition extremal_search (kernel : sample_kernel)
    (noise_texture backward_texture : texture2D) : list ivec4 :=
  let num_groups := udiv (tex_width noise_texture) SampleGroupSize in
  let position_buffer :=
    sample_shader SampleGroupSize kernel noise_texture backward_texture in
  let num_positions := num_groups * udiv (tex_height noise_texture) SampleGroupSize in
  position_shader PositionGroupSize num_positions position_buffer.

(** A pixel value the kernel does not mask out. *)
Definition eligible (k : sample_kernel) (value : f32) : bool :=
  match k with
  | MIN_SAMPLE_SHADER => negb (f32_lt f32_half value)
  | MAX_SAMPLE_SHADER => negb (f32_lt value f32_half)
  end.

(** Every texel is [0.0f] or [1.0f]. *)
Definition binary (t : texture2D) : Prop :=
  ∀ p, in_bounds (tex_size t) p = true →
       texelFetch t p = f32_zero ∨ texelFetch t p = f32_one.

(** An energy strictly between [-1e9] and [1e9]. *)
Definition f32_bounded (e : f32) : Prop :=
  f32_lt f32_neg1e9 e = true ∧ f32_lt f32_neg1e9 (f32_neg e) = true.

(** One axis of the remap shared by the upscale and update shaders. *)
Definition remap_axis (padded logical p : Z) : Z :=
  let offset := (padded - logical) ÷ 2 in
  Z.rem ((if p <? offset then p + logical else p) - offset) logical.

(** A logical extent the remap handles without producing a negative
    operand of [%]: the centring offset does not exceed the extent. *)
Definition fits (padded logical : Z) : Prop :=
  1 <= logical <= padded ∧ (padded - logical) ÷ 2 <= logical.

(** What the phases need from the transform: on a two-valued pattern of
    the padded size both dispatches succeed and every energy texel lies
    strictly between [-1e9] and [1e9]. *)
Definition energy_ok (forward_transform : texture2D -> option ctexture)
    (backward_transform : ctexture -> option texture2D)
    (convolution_texture : ctexture) (PW PH : Z) : Prop :=
  ∀ U, tex_size U = (PW, PH) → binary U →
    ∃ F E, forward_transform U = Some F ∧
           backward_transform (filter_shader F convolution_texture) = Some E ∧
           ∀ p, in_bounds (PW, PH) p = true → f32_bounded (texelFetch E p).

(** Number of pixels a kernel can select. *)
Definition eligible_count (k : sample_kernel) (t : texture2D) : Z :=
  match k with
  | MIN_SAMPLE_SHADER => tex_width t * tex_height t - count_on t
  | MAX_SAMPLE_SHADER => count_on t
  end.

(** The two ways the phases call [dispatch_kernel]: fill a void with one,
    or clear a cluster pixel to zero. *)
Definition fills_or_clears (k : sample_kernel) (value : f32) : Prop :=
  (k = MIN_SAMPLE_SHADER ∧ value = f32_one) ∨ (k = MAX_SAMPLE_SHADER ∧ value = f32_zero).

(** [value] stored at the positions of [es], in order. *)
Definition stores (value : f32) (t : texture2D) (es : list ivec4) : texture2D :=
  foldl (fun t e => imageStore t (vec_xy e) value) t es.

(** [sequence_buffer[index] = position] unless [index] is [~0u], and a
    run of such writes. *)
Definition record (sb : list ivec4) (ie : Z * ivec4) : list ivec4 :=
  if ie.1 =? Maxu32 then sb else <[Z.to_nat ie.1 := ie.2]> sb.

Definition records (sb : list ivec4) (idxs : list Z) (es : list ivec4) : list ivec4 :=
  foldl record sb (zip idxs es).

Section GreedyRun.
Variable forward_transform : texture2D -> option ctexture.
Variable backward_transform : ctexture -> option texture2D.
Variable convolution_texture : ctexture.
Variable backward_size : ivec2.

(** A run of steps of one kind on one texture, as the phase loops
    perform them. *)
Definition greedy_step (k : sample_kernel) (value : f32)
    (st : texture2D * list ivec4) (index : Z) : texture2D * list ivec4 :=
  let '(_, t, sb) :=
    dispatch_kernel forward_transform backward_transform convolution_texture
                    backward_size st.1 st.2 k value index in
  (t, sb).

Definition greedy_run (k : sample_kernel) (value : f32) (idxs : list Z)
    (st : texture2D * list ivec4) : texture2D * list ivec4 :=
  foldl (greedy_step k value) st idxs.
End GreedyRun.

(** The [index] arguments the three phase loops pass to [dispatch_kernel],
    in the order of the calls. *)
Definition first_phase_ranks (num_positions : Z) : list Z :=
  (fun i => u32 (num_positions - i - 1)) <$> seqZ 0 num_positions.
Definition second_phase_ranks (num_positions half_pixels : Z) : list Z :=
  seqZ num_positions (half_pixels - num_positions).
Definition third_phase_ranks (half_pixels num_pixels : Z) : list Z :=
  seqZ half_pixels (num_pixels - half_pixels).

(** ** [BlueNoise::dispatch]

    Host-side image conversions and allocations are taken to succeed; the
    creation of a device resource succeeds when the device says so.  The
    kernel image, its upload and its forward transform are summarised by
    [kernel_spectrum]: the kernel image is built in binary32 arithmetic
    around the C library's [exp], which has no definition to embed. *)

Inductive resource : Type :=
  | NoiseTexture | CopyTexture | LayerTexture | KernelTexture
  | ConvolutionTexture | ForwardTexture0 | ForwardTexture1
  | BackwardTexture | UpscaleTexture.

(** What a call leaves behind: the image returned ([None] is the null
    [Image()]), the device resources created, whether the greedy loops
    were entered, and whether the call, instead of returning, ended in
    the integer division by a zero [progress_pixels] (undefined in C++, a
    trap on the usual targets); no image is returned then. *)
Record dispatch_result : Type := DispatchResult {
  noise_image : option (list texture2D);
  created : list resource;
  generation_started : bool;
  division_by_zero : bool
}.

(** [uint32_t progress_pixels = num_positions * 2 + num_pixels * layers]. *)
Definition progress_pixels (num_positions num_pixels layers : Z) : Z :=
  u32 (num_positions * 2 + num_pixels * layers).

Section Dispatch.

Variable device : resource -> bool.
Variable forward_transform : texture2D -> option ctexture.
Variable backward_transform : ctexture -> option texture2D.
Variable kernel_spectrum : f32 -> f32 -> Z -> Z -> option ctexture.
(** The member [sequence_buffer], allocated by [create]. *)
Variable sequence_buffer0 : list ivec4.

Definition failed (attempted : list resource) : dispatch_result :=
DispatchResult None (List.filter device attempted) false false.

Definition dispatch (image : texture2D) (layers : Z) (sigma epsilon : f32)
: dispatch_result :=
(* check image size *)
let width := tex_width image in
let height := tex_height image in
if (width <? 1) || (height <? 1) || (layers <? 1)
then DispatchResult None [] false false
else
  (* npot size *)
  let npot_width := Z.max (npot width) MinSize in
  let npot_height := Z.max (npot height) MinSize in
  (* number of positions *)
  let input_image := (seed_image image).1 in
  let num_positions := (seed_image image).2 in
  (* create noise texture *)
  if negb (device NoiseTexture) then failed [NoiseTexture]
  else
    (* create texture *)
    if negb (device CopyTexture && device LayerTexture)
    then failed [NoiseTexture; CopyTexture; LayerTexture]
    else
      (* create kernel texture *)
      if negb (device KernelTexture)
      then failed [NoiseTexture; CopyTexture; LayerTexture; KernelTexture]
      else
        (* create convolution texture *)
        match (if device ConvolutionTexture
               then kernel_spectrum sigma epsilon npot_width npot_height
               else None) with
        | None =>
            failed [NoiseTexture; CopyTexture; LayerTexture; KernelTexture;
                    ConvolutionTexture]
        | Some convolution_texture =>
            (* create forward textures *)
            if negb (device ForwardTexture0 && device ForwardTexture1)
            then failed [NoiseTexture; CopyTexture; LayerTexture; KernelTexture;
                         ConvolutionTexture; ForwardTexture0; ForwardTexture1]
            else
              (* create backward texture *)
              if negb (device BackwardTexture)
              then failed [NoiseTexture; CopyTexture; LayerTexture; KernelTexture;
                           ConvolutionTexture; ForwardTexture0; ForwardTexture1;
                           BackwardTexture]
              else
                (* create upscale texture *)
                let resized :=
                  negb ((width =? npot_width) && (height =? npot_height)) in
                if resized && negb (device UpscaleTexture)
                then failed [NoiseTexture; CopyTexture; LayerTexture; KernelTexture;
                             ConvolutionTexture; ForwardTexture0; ForwardTexture1;
                             BackwardTexture; UpscaleTexture]
                else
                  let blank := Texture width height (fun _ _ => f32_zero) in
                  let resources :=
                    [NoiseTexture; CopyTexture; LayerTexture; KernelTexture;
                     ConvolutionTexture; ForwardTexture0; ForwardTexture1;
                     BackwardTexture]
                    ++ (if resized then [UpscaleTexture] else []) in
                  (* create initial sequence *)
                  let num_pixels := u32 (width * height) in
                  let half_pixels := num_pixels / 2 in
                  let progress_pixels :=
                    progress_pixels num_positions num_pixels layers in
                  (* Every pass of the four batched loops ends in
                     print_progress(... / progress_pixels).  The loops
                     make a pass when 0 < num_positions (initial sequence
                     and first phase), num_positions < half_pixels (second
                     phase), half_pixels < num_pixels (third phase); the
                     first such pass divides by progress_pixels. *)
                  if (progress_pixels =? 0)
                     && ((0 <? num_positions) || (num_positions <? half_pixels)
                         || (half_pixels <? num_pixels))
                  then DispatchResult None resources true true
                  else
                    let g :=
                      initial_sequence forward_transform backward_transform
                        convolution_texture (npot_width, npot_height) num_positions
                        (Generator input_image blank sequence_buffer0) in
                    (* create noise layers *)
                    DispatchResult
                      (Some (noise_layers forward_transform backward_transform
                               convolution_texture (npot_width, npot_height)
                               width height num_positions (Z.to_nat layers) blank g))
                      resources true false
        end.

End Dispatch.

(** ** Statements of the search and remap properties *)

(** Follows the spec's words, for comparison with [extremal_search]: a
    sequential scan over all pixels for the maximum weight, row by row,
    which keeps the first maximum it meets. *)
Definition sequential_scan (k : sample_kernel) (T E : texture2D) : lane :=
  foldl (fun (acc : lane) p =>
           let w := pixel_weight k T E p in
           if f32_lt acc.2 w then (p, w) else acc)
        (pixel_lane k T E (0, 0))
        (all_positions (tex_width T) (tex_height T)).

(** The metric each kernel maximises over its eligible pixels. *)
Definition metric (k : sample_kernel) (energy : f32) : f32 :=
  match k with
  | MIN_SAMPLE_SHADER => f32_neg energy
  | MAX_SAMPLE_SHADER => energy
  end.

(** "The search with kernel [k] selects the arg-max of [m(energy)] over the
    pixels whose pattern value satisfies [sel]". *)
Definition search_selects (k : sample_kernel) (sel : f32 -> bool) (m : f32 -> f32)
    (T E : texture2D) : Prop :=
  ∃ p w,
    extremal_search k T E !! 0%nat = Some (IVec4 p.1 p.2 w 0) ∧
    in_bounds (tex_size T) p = true ∧
    sel (texelFetch T p) = true ∧
    ∀ q, in_bounds (tex_size T) q = true → sel (texelFetch T q) = true →
         f32_lt (m (texelFetch E p)) (m (texelFetch E q)) = false.

(** Follows the spec's words: the remap with the padded size as modulus. *)
Definition remap_as_specified (padded logical p : Z) : Z :=
  (p - (padded - logical) / 2) mod padded.

(** A 64 x 64 pattern with the pixels of [on] set, and a 64 x 64 field
    holding [hi] at [a], [lo] at [b] and zero elsewhere. *)
Definition pattern_of (on : list ivec2) : texture2D :=
  Texture 64 64
    (fun x y => if bool_decide ((x, y) ∈ on) then f32_one else f32_zero).

Definition field_of (a b : ivec2) (hi lo : f32) : texture2D :=
  Texture 64 64
    (fun x y => if bool_decide ((x, y) = a) then hi
                else if bool_decide ((x, y) = b) then lo else f32_zero).


(** ** Instances used to exercise the properties *)

(** Follows the spec's words for one pair of the tightening loop:
    cluster-search and turn the pixel off, then void-search and turn the
    pixel on. *)
Definition pair_as_specified (forward_transform : texture2D -> option ctexture)
    (backward_transform : ctexture -> option texture2D)
    (convolution_texture : ctexture) (backward_size : ivec2) (g : generator)
  : generator :=
  step_noise forward_transform backward_transform convolution_texture backward_size
    MIN_SAMPLE_SHADER f32_one Maxu32
    (step_noise forward_transform backward_transform convolution_texture
       backward_size MAX_SAMPLE_SHADER f32_zero Maxu32 g).

(** A stand-in for the external transform, with a flat spectrum: the
    energy of every pattern is zero. *)
Definition flat_forward (t : texture2D) : option ctexture :=
  Some (CTexture (tex_width t / 2 + 1) (tex_height t)
                 (fun _ _ => (f32_zero, f32_zero))).

Definition flat_backward (c : ctexture) : option texture2D :=
  Some (Texture ((ctex_width c - 1) * 2) (ctex_height c)
                (fun x y => (ctex_data c x y).1)).

Definition flat_spectrum : ctexture :=
  CTexture 33 64 (fun _ _ => (f32_zero, f32_zero)).

(** The generator right after the seed loop: [copy_texture] is blank and
    [sequence_buffer] has one slot per pixel. *)
Definition generator_of (noise : texture2D) : generator :=
  Generator noise
    (Texture (tex_width noise) (tex_height noise) (fun _ _ => f32_zero))
    (replicate (Z.to_nat (tex_width noise * tex_height noise))
               (IVec4 0 0 f32_zero 0)).

Global Arguments tree_reduce : simpl never.
Global Arguments sample_shader : simpl never.
Global Arguments position_shader : simpl never.
Global Arguments extremal_search : simpl never.
Global Arguments sequential_scan : simpl never.

(** ** Notions used to state further properties of the reduction *)

(** [r] is the first lane of [l] in the index range [lo, hi) that no lane
    of that range beats: every lane before it in the range is strictly
    smaller. *)
Definition block_first (l : list lane) (lo hi : Z) (r : lane) : Prop :=
  ∃ i, lo <= i < hi ∧ l !! Z.to_nat i = Some r ∧
       (∀ j x, lo <= j < hi → l !! Z.to_nat j = Some x → f32_lt r.2 x.2 = false) ∧
       (∀ j x, lo <= j < i → l !! Z.to_nat j = Some x → f32_lt x.2 r.2 = true).

Definition reduce_first_inv (N : Z) (l : list lane) (s : Z) (sh : list lane) : Prop :=
  Z.of_nat (length sh) = N ∧
  ∀ j, 0 <= j → s * j < N →
    ∃ r, sh !! Z.to_nat (s * j) = Some r ∧
         block_first l (s * j) (Z.min (s * j + s) N) r.

(** The texels of the work group [(gx, gy)] of a [G] x [G] tiling. *)
Definition in_tile (G gx gy : Z) (p : ivec2) : Prop :=
  G * gx <= p.1 < G * gx + G ∧ G * gy <= p.2 < G * gy + G.

(** Candidate slot [j] is met before slot [j'] by the position shader:
    lane [j mod G] comes before lane [j' mod G], or both slots belong to
    the same lane and [j] is the lower one. *)
Definition lane_order (G j j' : Z) : Prop :=
  j mod G < j' mod G ∨ (j mod G = j' mod G ∧ j <= j').

(** What a lane of the position shader holds after [steps] rounds of its
    strided scan: the sentinel when none of the candidates it has seen
    exceeds [-1e9], the first of its maximal candidates otherwise. *)
Definition lane_holds (G n : Z) (buf : list ivec4) (local_id steps : Z)
    (r : lane) : Prop :=
  (r = sentinel ∧
   ∀ i v, 0 <= i < steps → G * i + local_id < n →
          buf !! Z.to_nat (G * i + local_id) = Some v →
          f32_lt f32_neg1e9 (vec_z v) = false) ∨
  (∃ i v, 0 <= i < steps ∧ G * i + local_id < n ∧
          buf !! Z.to_nat (G * i + local_id) = Some v ∧
          r = ivec4_to_lane v ∧
          f32_lt f32_neg1e9 (vec_z v) = true ∧
          (∀ i' v', 0 <= i' < steps → G * i' + local_id < n →
                    buf !! Z.to_nat (G * i' + local_id) = Some v' →
                    f32_lt (vec_z v) (vec_z v') = false) ∧
          (∀ i' v', 0 <= i' < i →
                    buf !! Z.to_nat (G * i' + local_id) = Some v' →
                    f32_lt (vec_z v') (vec_z v) = true)).

(** The [position_buffer] slot of the tile a pixel belongs to, for a
    texture [width] texels wide. *)
Definition tile_slot (width : Z) (p : ivec2) : Z :=
  udiv width SampleGroupSize * (p.2 / SampleGroupSize) + p.1 / SampleGroupSize.

(** ** [BlueNoise::create]

    The device is represented by what it answers: whether the Fourier
    transform can be created for a size, whether a kernel compiles, and
    whether a buffer of a number of [Vector4u] slots can be allocated. *)

Inductive kernel_name : Type :=
  | InverseKernel | FilterKernel | MinSampleKernel | MaxSampleKernel
  | PositionKernel | UpdateKernel | RenderKernel | LayerKernel | UpscaleKernel.

(** What [create] leaves in the members: the size the transform was
    created for and the number of slots of the two buffers. *)
Record created_members : Type := CreatedMembers {
  transform_width : Z;
  transform_height : Z;
  sequence_slots : Z;
  position_slots : Z
}.

Section Create.

Variable transform_create : Z -> Z -> bool.
Variable kernel_create : kernel_name -> bool.
Variable buffer_create : Z -> bool.

Definition create (width height layers : Z) : option created_members :=
  (* npot size *)
  let width := npot (Z.max width MinSize) in
  let height := npot (Z.max height MinSize) in
  let layers := npot layers in
  (* create Fourier transform *)
  if negb (transform_create (Z.max width layers) (Z.max height layers)) then None
  else if negb (kernel_create InverseKernel) then None
  else if negb (kernel_create FilterKernel) then None
  else if negb (kernel_create MinSampleKernel) then None
  else if negb (kernel_create MaxSampleKernel) then None
  else if negb (kernel_create PositionKernel) then None
  else if negb (kernel_create UpdateKernel) then None
  else if negb (kernel_create RenderKernel) then None
  else if negb (kernel_create LayerKernel) then None
  else if negb (kernel_create UpscaleKernel) then None
  else
    (* create noise buffers *)
    let sequence_slots := width * height in
    let position_slots :=
      udiv width SampleGroupSize * udiv height SampleGroupSize in
    if negb (buffer_create sequence_slots && buffer_create position_slots)
    then None
    else Some (CreatedMembers (Z.max width layers) (Z.max height layers)
                              sequence_slots position_slots).

End Create.

(** ** [BlueNoise::dispatchForward] *)

Definition f32_sqrt (a : f32) : f32 := SFsqrt 24 128 a.

(** [sqrt(pixel.f.r * pixel.f.r + pixel.f.g * pixel.f.g)]. *)
Definition magnitude (pixel : f32 * f32) : f32 :=
  f32_sqrt (f32_add (f32_mul pixel.1 pixel.1) (f32_mul pixel.2 pixel.2)).

(** The body shared by the two inner loops of "convert forward image":
    the magnitude of the complex texel [(sx, sy)] goes to [(x, dy)] and,
    unless [x] is zero, to [(width - x, dy)]. *)
Definition convert_pixel (width : Z) (complex_image : ctexture) (sx sy dy x : Z)
    (forward_image : texture2D) : texture2D :=
  let pixel := magnitude (ctex_data complex_image sx sy) in
  let forward_image := imageStore forward_image (x, dy) pixel in
  if x =? 0 then forward_image
  else imageStore forward_image (width - x, dy) pixel.

(** One pass of the outer loop: the two inner loops for row [y]. *)
Definition convert_row (width height : Z) (complex_image : ctexture) (y : Z)
    (forward_image : texture2D) : texture2D :=
  let width_2 := width / 2 in
  let height_2 := height / 2 in
  let forward_image :=
    foldl (fun img x =>
             if (x =? width_2) && (y =? height_2 - 1) then img
             else convert_pixel width complex_image
                    (width_2 - x) (height_2 - y - 1) y x img)
          forward_image (seqZ 0 (width_2 + 1)) in
  foldl (fun img x =>
           if (x =? width_2) && (y =? height_2 - 1) then img
           else convert_pixel width complex_image
                  (width_2 - x) (height - y - 1) (height_2 + y) x img)
        forward_image (seqZ 0 (width_2 + 1)).

(** "convert forward image", starting from the freshly created
    [forward_image]. *)
Definition convert_forward (width height : Z) (complex_image : ctexture)
    (forward_image : texture2D) : texture2D :=
  foldl (fun img y => convert_row width height complex_image y img)
        forward_image (seqZ 0 (height / 2)).

Inductive forward_resource : Type := ForwardNoiseTexture | ForwardTexture.

Section DispatchForward.

(** [ispot] (TellusimMath.h is not part of the sources) is a parameter. *)
Variable ispot : Z -> bool.
Variable device : forward_resource -> bool.
Variable forward_transform : texture2D -> option ctexture.
(** Content of an image right after [create2D]. *)
Variable fresh : Z -> Z -> f32.

(** Returns the forward image ([None] is the null [Image()]) and the
    device resources created. *)
Definition dispatchForward (image : texture2D)
  : option texture2D * list forward_resource :=
  (* check image size *)
  let width := tex_width image in
  let height := tex_height image in
  if negb (ispot width) || negb (ispot height) then (None, [])
  else
    (* create noise texture *)
    if negb (device ForwardNoiseTexture) then (None, [])
    else
      (* create forward texture *)
      match (if device ForwardTexture then forward_transform image else None) with
      | None =>
          (None, List.filter device [ForwardNoiseTexture; ForwardTexture])
      | Some complex_image =>
          (Some (convert_forward width height complex_image
                   (Texture width height fresh)),
           [ForwardNoiseTexture; ForwardTexture])
      end.

End DispatchForward.

(** Column and row of the complex texel whose magnitude the conversion
    shows at [(x, y)]. *)
Definition forward_source (width height : Z) (p : ivec2) : ivec2 :=
  (width / 2 - Z.min p.1 (width - p.1),
   if p.2 <? height / 2 then height / 2 - 1 - p.2
   else height + height / 2 - 1 - p.2).

(** The two texels the conversion leaves out. *)
Definition forward_skipped (width height : Z) (p : ivec2) : bool :=
  (p.1 =? width / 2) && ((p.2 =? height / 2 - 1) || (p.2 =? height - 1)).

(** What the conversion shows at a texel it fills. *)
Definition forward_shown (width height : Z) (complex_image : ctexture)
    (p : ivec2) : f32 :=
  magnitude (ctex_data complex_image (forward_source width height p).1
                                     (forward_source width height p).2).

(** The stores of [convert_pixel], and those of one pass of the outer
    loop, in the order they are made. *)
Definition convert_pixel_writes_list (width : Z) (complex_image : ctexture)
    (sx sy dy x : Z) : list (ivec2 * f32) :=
  ((x, dy), magnitude (ctex_data complex_image sx sy))
  :: (if x =? 0 then []
      else [((width - x, dy), magnitude (ctex_data complex_image sx sy))]).

Definition convert_row_writes_list (width height : Z) (complex_image : ctexture)
    (y : Z) : list (ivec2 * f32) :=
  (x ← seqZ 0 (width / 2 + 1);
   if (x =? width / 2) && (y =? height / 2 - 1) then []
   else convert_pixel_writes_list width complex_image
          (width / 2 - x) (height / 2 - y - 1) y x)
  ++ (x ← seqZ 0 (width / 2 + 1);
      if (x =? width / 2) && (y =? height / 2 - 1) then []
      else convert_pixel_writes_list width complex_image
             (width / 2 - x) (height - y - 1) (height / 2 + y) x).

(** ** [main]: the synthesized seed image ("create image")

    [Random<int32_t>] is represented by its state and by [geti32], which
    returns a number and the next state.  The [FormatRu8n] image is
    represented by the [FormatRf32] image [dispatch] converts it to: a
    texel set to 255 is [1.0f], a texel never set is [0.0f]. *)

Section SeedSynthesis.

Variable random_state : Type.
Variable geti32 : random_state -> Z -> Z -> Z * random_state.

(** The body of the inner loop: two draws and one [set2D]. *)
Definition seed_draw (width height : Z) (st : texture2D * random_state) (x : Z)
  : texture2D * random_state :=
  let '(X, random) := geti32 st.2 0 (width - 1) in
  let '(Y, random) := geti32 random 0 (height - 1) in
  (imageStore st.1 (X, Y) f32_one, random).

(** [for(y = 0; y < height * init / 100; y++) for(x = 0; x < width; x++)]. *)
Definition random_seed_image (width height init : Z) (random : random_state)
  : texture2D * random_state :=
  foldl (fun st y => foldl (seed_draw width height) st (seqZ 0 width))
        (Texture width height (fun _ _ => f32_zero), random)
        (seqZ 0 (u32 (height * init) / 100)).

End SeedSynthesis.

(** * Properties *)

(** ** Order of binary32 numbers *)

Ltac f32_cases :=
  repeat match goal with
  | s : bool |- _ => destruct s
  end; simpl in *; try congruence; try tauto;
  repeat match goal with
  | |- context [(?a ?= ?b)%Z] => destruct (Z.compare_spec a b); simpl in *
  | H : context [(?a ?= ?b)%Z] |- _ => destruct (Z.compare_spec a b); simpl in *
  | |- context [PosDef.Pos.compare_cont Eq ?a ?b] =>
      change (PosDef.Pos.compare_cont Eq a b) with (Pos.compare a b);
      destruct (Pos.compare_spec a b); simpl in *
  | H : context [PosDef.Pos.compare_cont Eq ?a ?b] |- _ =>
      change (PosDef.Pos.compare_cont Eq a b) with (Pos.compare a b) in H;
      destruct (Pos.compare_spec a b); simpl in *
  end; subst; try congruence; try tauto; try lia.

Lemma f32_lt_irrefl a : f32_lt a a = false.
Proof. unfold f32_lt, SFltb. destruct a; simpl; f32_cases. Qed.

Lemma f32_lt_trans a b c : f32_lt a b = true → f32_lt b c = true → f32_lt a c = true.
Proof. unfold f32_lt, SFltb. destruct a, b, c; simpl; f32_cases. Qed.

Lemma f32_lt_cotrans a b c :
  f32_is_nan b = false → f32_lt a c = true → f32_lt a b = true ∨ f32_lt b c = true.
Proof. unfold f32_lt, SFltb. destruct a, b, c; simpl; f32_cases. Qed.

Lemma f32_lt_not_nan_l a b : f32_lt a b = true → f32_is_nan a = false.
Proof. unfold f32_lt, SFltb. destruct a, b; simpl; congruence. Qed.

Lemma f32_lt_not_nan_r a b : f32_lt a b = true → f32_is_nan b = false.
Proof. unfold f32_lt, SFltb. destruct a, b; simpl; congruence. Qed.

(** [x <= r1 < r2] gives [x <= r2], and [x <= r2 <= r1] gives [x <= r1]. *)
Lemma f32_le_lt_trans x r1 r2 :
  f32_lt r1 x = false → f32_lt r1 r2 = true → f32_lt r2 x = false.
Proof.
  intros H1 H2. destruct (f32_lt r2 x) eqn:E; [|done].
  by rewrite (f32_lt_trans _ _ _ H2 E) in H1.
Qed.

Lemma f32_le_le_trans x r1 r2 :
  f32_is_nan r2 = false → f32_lt r2 x = false → f32_lt r1 r2 = false → f32_lt r1 x = false.
Proof.
  intros Hn H1 H2. destruct (f32_lt r1 x) eqn:E; [|done].
  destruct (f32_lt_cotrans _ _ _ Hn E); congruence.
Qed.

Section Reduce.
Variables (N s : Z) (sh : list lane).
Hypothesis Hs : 1 <= s.
Hypothesis Hlen : Z.of_nat (length sh) = N.

Lemma reduce_thread_length t l : length (reduce_thread N s l t) = length l.
Proof.
  unfold reduce_thread. repeat case_match; try done. by rewrite length_insert.
Qed.

Lemma reduce_prefix (n : nat) :
  let cur := foldl (reduce_thread N s) sh (seqZ 0 (Z.of_nat n)) in
  length cur = length sh ∧
  (∀ i : nat,
     (∀ t, 0 <= t < Z.of_nat n → s * (t * 2) + s < N → Z.of_nat i ≠ s * (t * 2)) →
     cur !! i = sh !! i) ∧
  (∀ t a b, 0 <= t < Z.of_nat n → s * (t * 2) + s < N →
     sh !! Z.to_nat (s * (t * 2)) = Some a →
     sh !! Z.to_nat (s * (t * 2) + s) = Some b →
     cur !! Z.to_nat (s * (t * 2)) = Some (merged a b)).
Proof.
  induction n as [|n IH]; simpl.
  { split; [done|]. split; [done|]. intros; lia. }
  rewrite seqZ_S, foldl_app. simpl.
  destruct IH as (IHlen & IHA & IHB).
  remember (foldl (reduce_thread N s) sh (seqZ 0 (Z.of_nat n))) as cur eqn:Hcur. clear Hcur.
  rewrite Z.add_0_l.
  split; [by rewrite reduce_thread_length|].
  unfold reduce_thread; cbv zeta.
  destruct (Z.ltb_spec (s * (Z.of_nat n * 2) + s) N) as [Hlt|Hge].
  - assert (E0 : cur !! Z.to_nat (s * (Z.of_nat n * 2)) = sh !! Z.to_nat (s * (Z.of_nat n * 2))).
    { apply IHA. intros t Ht _. rewrite Z2Nat.id by nia. nia. }
    assert (E1 : cur !! Z.to_nat (s * (Z.of_nat n * 2) + s) = sh !! Z.to_nat (s * (Z.of_nat n * 2) + s)).
    { apply IHA. intros t Ht _. rewrite Z2Nat.id by nia. nia. }
    destruct (lookup_lt_is_Some_2 sh (Z.to_nat (s * (Z.of_nat n * 2)))) as [a Ha]; [nia|].
    destruct (lookup_lt_is_Some_2 sh (Z.to_nat (s * (Z.of_nat n * 2) + s))) as [b Hb]; [nia|].
    rewrite E0, E1, Ha, Hb.
    split.
    + intros i Hi.
      assert (Hne : Z.to_nat (s * (Z.of_nat n * 2)) ≠ i).
      { intros <-. apply (Hi (Z.of_nat n)); [lia|lia|]. rewrite Z2Nat.id by nia. done. }
      destruct (f32_lt a.2 b.2).
      * rewrite list_lookup_insert_ne by done. apply IHA. intros t Ht. apply Hi. lia.
      * apply IHA. intros t Ht. apply Hi. lia.
    + intros t a' b' Ht Hc Ha' Hb'.
      destruct (decide (t = Z.of_nat n)) as [->|Hne].
      * rewrite Ha in Ha'. rewrite Hb in Hb'. simplify_eq. unfold merged.
        destruct (f32_lt a'.2 b'.2).
        -- apply list_lookup_insert_eq. rewrite IHlen. nia.
        -- by rewrite E0.
      * assert (Z.to_nat (s * (Z.of_nat n * 2)) ≠ Z.to_nat (s * (t * 2))) by nia.
        destruct (f32_lt a.2 b.2).
        -- rewrite list_lookup_insert_ne by done. apply IHB; [lia|done..].
        -- apply IHB; [lia|done..].
  - split.
    + intros i Hi. apply IHA. intros t Ht. apply Hi. lia.
    + intros t a b Ht Hc. apply IHB; [|done].
      destruct (decide (t = Z.of_nat n)) as [->|]; lia.
Qed.
End Reduce.

Section ReduceRound.
Variables (N s : Z) (sh : list lane).
Hypothesis Hs : 1 <= s.
Hypothesis Hlen : Z.of_nat (length sh) = N.

Lemma reduce_round_length : length (reduce_round N s sh) = length sh.
Proof.
  unfold reduce_round. rewrite <- Hlen.
  apply (reduce_prefix _ s sh Hs eq_refl (length sh)).
Qed.

Lemma reduce_round_merged j a b :
  0 <= j → s * (j * 2) + s < N →
  sh !! Z.to_nat (s * (j * 2)) = Some a →
  sh !! Z.to_nat (s * (j * 2) + s) = Some b →
  reduce_round N s sh !! Z.to_nat (s * (j * 2)) = Some (merged a b).
Proof.
  intros Hj Hc Ha Hb. unfold reduce_round. rewrite <- Hlen.
  destruct (reduce_prefix (Z.of_nat (length sh)) s sh Hs eq_refl (length sh))
    as (_ & _ & HB).
  apply HB; [nia|lia|done..].
Qed.

Lemma reduce_round_kept j :
  0 <= j → ¬ (s * (j * 2) + s < N) →
  reduce_round N s sh !! Z.to_nat (s * (j * 2)) = sh !! Z.to_nat (s * (j * 2)).
Proof.
  intros Hj Hc. unfold reduce_round. rewrite <- Hlen.
  destruct (reduce_prefix (Z.of_nat (length sh)) s sh Hs eq_refl (length sh))
    as (_ & HA & _).
  apply HA. intros t Ht Hlt. rewrite Z2Nat.id by nia. nia.
Qed.
End ReduceRound.

Section TreeReduce.
Variables (N : Z) (l : list lane).
Hypothesis Hlen : Z.of_nat (length l) = N.
Hypothesis Hnan : Forall (λ x : lane, f32_is_nan x.2 = false) l.

Lemma reduce_inv_init : reduce_inv N l 1 l.
Proof.
  split; [done|]. intros j Hj Hlt.
  destruct (lookup_lt_is_Some_2 l (Z.to_nat (1 * j))) as [r Hr]; [lia|].
  exists r. split; [done|]. split.
  - exists (1 * j). split; [lia|done].
  - intros i x Hi Hx. assert (i = 1 * j) as -> by lia.
    rewrite Hr in Hx. simplify_eq. apply f32_lt_irrefl.
Qed.

Lemma block_max_not_nan lo hi r : block_max l lo hi r → f32_is_nan r.2 = false.
Proof.
  intros [(i & _ & Hi) _]. rewrite Forall_forall in Hnan.
  apply Hnan. eapply list_elem_of_lookup_2; eauto.
Qed.

Lemma block_max_merged lo mid hi r1 r2 :
  lo <= mid <= hi →
  block_max l lo mid r1 → block_max l mid hi r2 →
  block_max l lo hi (merged r1 r2).
Proof.
  intros Hm [(i1 & Hi1 & E1) B1] [(i2 & Hi2 & E2) B2].
  assert (Hn2 : f32_is_nan r2.2 = false).
  { rewrite Forall_forall in Hnan. apply Hnan.
    eapply list_elem_of_lookup_2; eauto. }
  unfold merged. destruct (f32_lt r1.2 r2.2) eqn:E.
  - split; [exists i2; split; [lia|done]|].
    intros i x Hi Hx. destruct (Z.lt_ge_cases i mid).
    + eapply f32_le_lt_trans; [|exact E]. eapply B1; [|done]. lia.
    + eapply B2; [|done]. lia.
  - split; [exists i1; split; [lia|done]|].
    intros i x Hi Hx. destruct (Z.lt_ge_cases i mid).
    + eapply B1; [|done]. lia.
    + eapply f32_le_le_trans; [exact Hn2| |exact E]. eapply B2; [|done]. lia.
Qed.

Lemma reduce_inv_round s sh :
  1 <= s → reduce_inv N l s sh → reduce_inv N l (s * 2) (reduce_round N s sh).
Proof.
  intros Hs [HlenS Hinv]. split.
  { by rewrite (reduce_round_length N s sh Hs HlenS). }
  intros j Hj Hlt.
  replace (s * 2 * j) with (s * (j * 2)) in * by lia.
  destruct (Hinv (j * 2)) as (r1 & E1 & M1); [lia|lia|].
  destruct (Z.lt_ge_cases (s * (j * 2) + s) N) as [Hc|Hc].
  - destruct (Hinv (j * 2 + 1)) as (r2 & E2 & M2); [lia|lia|].
    replace (s * (j * 2 + 1)) with (s * (j * 2) + s) in * by lia.
    exists (merged r1 r2). split.
    + by apply reduce_round_merged.
    + apply block_max_merged with (mid := s * (j * 2) + s); [lia| |].
      * by replace (Z.min (s * (j * 2) + s) N) with (s * (j * 2) + s) in M1 by lia.
      * by replace (Z.min (s * (j * 2) + s + s) N)
          with (Z.min (s * (j * 2) + s * 2) N) in M2 by lia.
  - exists r1. split.
    + rewrite reduce_round_kept; [done..|lia].
    + by replace (Z.min (s * (j * 2) + s * 2) N)
        with (Z.min (s * (j * 2) + s) N) by lia.
Qed.

Lemma reduce_loop_inv fuel s sh :
  1 <= s → N <= Z.of_nat fuel + s → 1 <= N → reduce_inv N l s sh →
  ∃ r, reduce_loop fuel N s sh !! 0%nat = Some r ∧ block_max l 0 N r.
Proof.
  revert s sh. induction fuel as [|fuel IH]; intros s sh Hs Hf HN Hinv; simpl.
  - destruct Hinv as [_ Hinv]. destruct (Hinv 0) as (r & E & M); [lia|lia|].
    rewrite Z.mul_0_r in *. exists r. split; [done|].
    by replace (Z.min (0 + s) N) with N in M by lia.
  - destruct (Z.ltb_spec s N).
    + apply IH; [lia|lia|done|]. by apply reduce_inv_round.
    + destruct Hinv as [_ Hinv]. destruct (Hinv 0) as (r & E & M); [lia|lia|].
      rewrite Z.mul_0_r in *. exists r. split; [done|].
      by replace (Z.min (0 + s) N) with N in M by lia.
Qed.

(** The reduction leaves in slot 0 a lane of the input that no lane of
    the input beats. *)
Lemma tree_reduce_max :
  1 <= N →
  ∃ r, tree_reduce N l !! 0%nat = Some r ∧ r ∈ l ∧
       ∀ x, x ∈ l → f32_lt r.2 x.2 = false.
Proof.
  intros HN. destruct (reduce_loop_inv (Z.to_nat N) 1 l) as (r & E & [(i & Hi & Ei) B]);
    [lia|lia|done|apply reduce_inv_init|].
  exists r. split; [done|]. split.
  - eapply list_elem_of_lookup_2; eauto.
  - intros x Hx. apply list_elem_of_lookup_1 in Hx as [k Hk].
    apply (B (Z.of_nat k)); [|by rewrite Nat2Z.id].
    apply lookup_lt_Some in Hk. lia.
Qed.
End TreeReduce.


Lemma ivec4_to_lane_to_ivec4 (l : lane) : ivec4_to_lane (lane_to_ivec4 l) = l.
Proof. by destruct l as [[x y] w]. Qed.

(** *** The strided scan of one lane of the position shader *)
Section PositionLane.
Variables (G n : Z) (buf : list ivec4) (local_id : Z).
Hypothesis HG : 1 <= G.
Hypothesis Hlid : 0 <= local_id < G.
Hypothesis Hnan : Forall (λ v, f32_is_nan (vec_z v) = false) buf.

Lemma position_lane_scan (steps : nat) :
  let r := foldl (fun (acc : lane) i =>
             let index := G * i + local_id in
             if index <? n then
               match buf !! Z.to_nat index with
               | Some position =>
                   if f32_lt acc.2 (vec_z position)
                   then (vec_xy position, vec_z position)
                   else acc
               | None => acc
               end
             else acc) sentinel (seqZ 0 (Z.of_nat steps)) in
  (r = sentinel ∨ ∃ v, v ∈ buf ∧ r = ivec4_to_lane v) ∧
  f32_is_nan r.2 = false ∧
  f32_lt r.2 f32_neg1e9 = false ∧
  ∀ i v, 0 <= i < Z.of_nat steps → G * i + local_id < n →
         buf !! Z.to_nat (G * i + local_id) = Some v →
         f32_lt r.2 (vec_z v) = false.
Proof.
  induction steps as [|steps IH].
  { simpl. split; [by left|]. split; [done|]. split; [done|]. intros; lia. }
  rewrite seqZ_S, foldl_app. simpl. rewrite Z.add_0_l.
  destruct IH as (Hin & Hn & Hs & Hall).
  remember (foldl _ sentinel (seqZ 0 (Z.of_nat steps))) as acc eqn:Hacc. clear Hacc.
  assert (Hkeep :
    ∀ i v, 0 <= i < Z.of_nat (S steps) →
      (i = Z.of_nat steps → G * i + local_id < n →
       buf !! Z.to_nat (G * i + local_id) = Some v → f32_lt acc.2 (vec_z v) = false) →
      G * i + local_id < n → buf !! Z.to_nat (G * i + local_id) = Some v →
      f32_lt acc.2 (vec_z v) = false).
  { intros i v Hi Hlast Hc Hv. destruct (decide (i = Z.of_nat steps)) as [->|].
    - by apply Hlast.
    - eapply Hall; [|done..]. lia. }
  destruct (Z.ltb_spec (G * Z.of_nat steps + local_id) n) as [Hlt|Hge].
  - destruct (buf !! Z.to_nat (G * Z.of_nat steps + local_id)) as [position|] eqn:E.
    + assert (Hpn : f32_is_nan (vec_z position) = false).
      { rewrite Forall_forall in Hnan. apply Hnan. eapply list_elem_of_lookup_2; eauto. }
      destruct (f32_lt acc.2 (vec_z position)) eqn:Elt.
      * split; [right; exists position; split;
                [eapply list_elem_of_lookup_2; eauto|done]|].
        split; [done|]. simpl.
        split; [eapply f32_le_lt_trans; eauto|].
        intros i v Hi Hc Hv. destruct (decide (i = Z.of_nat steps)) as [->|].
        -- rewrite E in Hv. simplify_eq. apply f32_lt_irrefl.
        -- eapply f32_le_lt_trans; [|exact Elt]. eapply Hall; [|done..]. lia.
      * split; [done|]. split; [done|]. split; [done|].
        intros i v Hi. apply Hkeep; [done|]. intros -> _ Hv. by simplify_eq.
    + split; [done|]. split; [done|]. split; [done|].
      intros i v Hi. apply Hkeep; [done|]. intros -> _ Hv. congruence.
  - split; [done|]. split; [done|]. split; [done|].
    intros i v Hi. apply Hkeep; [done|]. intros -> ?. lia.
Qed.

Hypothesis Hn0 : 0 <= n.

Lemma position_lane_spec :
  let r := position_lane G n buf local_id in
  (r = sentinel ∨ ∃ v, v ∈ buf ∧ r = ivec4_to_lane v) ∧
  f32_is_nan r.2 = false ∧
  f32_lt r.2 f32_neg1e9 = false ∧
  ∀ i v, 0 <= i → G * i + local_id < n →
         buf !! Z.to_nat (G * i + local_id) = Some v →
         f32_lt r.2 (vec_z v) = false.
Proof.
  unfold position_lane.
  assert (Hu : 0 <= udiv n G) by (unfold udiv; apply Z.div_pos; lia).
  destruct (position_lane_scan (Z.to_nat (udiv n G))) as (H1 & H2 & H3 & H4).
  rewrite Z2Nat.id in * by done. split; [done|]. split; [done|]. split; [done|].
  intros i v Hi Hc Hv. eapply H4; [|done..]. split; [done|].
  assert (i + 1 <= udiv n G); [|lia].
  unfold udiv. apply Z.div_le_lower_bound; lia.
Qed.
End PositionLane.

Lemma position_lane_sentinel G n (buf : list ivec4) local_id :
  (∀ v, v ∈ buf → f32_lt f32_neg1e9 (vec_z v) = false) →
  position_lane G n buf local_id = sentinel.
Proof.
  intros Hall. unfold position_lane.
  induction (seqZ 0 (udiv n G)) as [|i l IH] using rev_ind; [done|].
  rewrite foldl_app, IH. simpl.
  destruct (G * i + local_id <? n); [|done].
  destruct (buf !! Z.to_nat (G * i + local_id)) as [v|] eqn:E; [|done].
  rewrite Hall; [done|]. eapply list_elem_of_lookup_2; eauto.
Qed.

(** *** The position shader as a whole *)
Section PositionShader.
Variables (G n : Z) (buf : list ivec4).
Hypothesis HG : 1 <= G.
Hypothesis Hn : Z.of_nat (length buf) = n.
Hypothesis Hnan : Forall (λ v, f32_is_nan (vec_z v) = false) buf.

Lemma position_shader_spec :
  1 <= n →
  ∃ r : lane,
    position_shader G n buf !! 0%nat = Some (lane_to_ivec4 r) ∧
    (∃ lid, 0 <= lid < G ∧ r = position_lane G n buf lid) ∧
    (r = sentinel ∨ ∃ v, v ∈ buf ∧ r = ivec4_to_lane v) ∧
    f32_lt r.2 f32_neg1e9 = false ∧
    ∀ v, v ∈ buf → f32_lt r.2 (vec_z v) = false.
Proof.
  intros Hn1. unfold position_shader.
  set (sh := map (position_lane G n buf) (seqZ 0 G)).
  assert (Hsh : ∀ a, a ∈ sh → ∃ lid, 0 <= lid < G ∧ a = position_lane G n buf lid).
  { intros a Ha. apply list_elem_of_fmap in Ha as (lid & -> & Hl).
    apply elem_of_seqZ in Hl. exists lid. split; [lia|done]. }
  assert (Hshn : Forall (λ x : lane, f32_is_nan x.2 = false) sh).
  { apply Forall_forall. intros a Ha. destruct (Hsh a Ha) as (lid & Hl & ->).
    apply (position_lane_spec G n buf lid); done || lia. }
  destruct (tree_reduce_max G sh) as (r & E & Hr & Hmax); [|done|lia|].
  { unfold sh. rewrite length_map, length_seqZ. lia. }
  rewrite E. exists r. split.
  { apply list_lookup_insert_eq. lia. }
  destruct (Hsh r Hr) as (lid & Hl & Er).
  split; [by exists lid|].
  destruct (position_lane_spec G n buf lid) as (H1 & H2 & H3 & H4); [done..|lia|].
  rewrite <- Er in *. split; [done|]. split; [done|].
  intros v Hv. apply list_elem_of_lookup_1 in Hv as [idx Hidx].
  assert (Hlt : Z.of_nat idx < n) by (apply lookup_lt_Some in Hidx; lia).
  set (lid' := Z.of_nat idx mod G). set (i := Z.of_nat idx / G).
  assert (Hdm : Z.of_nat idx = G * i + lid') by (apply Z.div_mod; lia).
  assert (Hl' : 0 <= lid' < G) by (apply Z.mod_pos_bound; lia).
  assert (Hin' : position_lane G n buf lid' ∈ sh).
  { unfold sh. apply list_elem_of_fmap. exists lid'. split; [done|].
    apply elem_of_seqZ. lia. }
  destruct (position_lane_spec G n buf lid') as (_ & N2 & _ & M2); [done..|lia|].
  eapply f32_le_le_trans; [exact N2| |by apply Hmax].
  apply (M2 i); [apply Z.div_pos; lia|lia|].
  by rewrite <- Hdm, Nat2Z.id.
Qed.
End PositionShader.


Lemma udiv_exact a b : 0 < b → a mod b = 0 → udiv a b = a / b.
Proof.
  intros Hb Hm. unfold udiv.
  rewrite (Z.div_mod a b) at 1 by lia. rewrite Hm, Z.add_0_r.
  replace (b * (a / b) + b - 1) with ((b - 1) + (a / b) * b) by lia.
  rewrite Z.div_add by lia. rewrite Z.div_small by lia. lia.
Qed.

Lemma length_bind_const {A B} (f : A → list B) (l : list A) (c : nat) :
  (∀ x, x ∈ l → length (f x) = c) → length (l ≫= f) = (length l * c)%nat.
Proof.
  induction l as [|x l IH]; intros Hc; [done|].
  rewrite bind_cons, length_app, Hc, IH; [simpl; lia| |by left].
  intros y Hy. apply Hc. by right.
Qed.

Section SampleStage.
Variables (G : Z) (k : sample_kernel) (T E : texture2D).
Hypothesis HG : 1 <= G.
Hypothesis HW : 0 <= tex_width T ∧ tex_width T mod G = 0.
Hypothesis HH : 0 <= tex_height T ∧ tex_height T mod G = 0.
Hypothesis Hnan : ∀ p, in_bounds (tex_size T) p = true →
                       f32_is_nan (pixel_weight k T E p) = false.

Lemma global_id_in_bounds gx gy lid :
  0 <= gx < udiv (tex_width T) G → 0 <= gy < udiv (tex_height T) G →
  0 <= lid < G * G →
  in_bounds (tex_size T) (global_id G (gx, gy) lid) = true.
Proof.
  intros Hx Hy Hl. rewrite udiv_exact in Hx, Hy by lia.
  pose proof (Z.mod_pos_bound lid G ltac:(lia)).
  assert (0 <= lid / G < G).
  { split; [apply Z.div_pos; lia|]. apply Z.div_lt_upper_bound; lia. }
  pose proof (Z.div_mod (tex_width T) G ltac:(lia)).
  pose proof (Z.div_mod (tex_height T) G ltac:(lia)).
  unfold in_bounds, global_id, tex_size. simpl.
  repeat (apply andb_true_intro; split); (apply Z.leb_le || apply Z.ltb_lt); nia.
Qed.

Lemma global_id_surj p :
  in_bounds (tex_size T) p = true →
  ∃ gx gy lid, 0 <= gx < udiv (tex_width T) G ∧ 0 <= gy < udiv (tex_height T) G ∧
               0 <= lid < G * G ∧ global_id G (gx, gy) lid = p.
Proof.
  destruct p as [x y]. unfold in_bounds, tex_size. simpl. intros Hb.
  repeat (apply andb_prop in Hb as [Hb ?]).
  apply Z.leb_le in Hb. repeat match goal with
    | H : (_ <? _) = true |- _ => apply Z.ltb_lt in H
    | H : (_ <=? _) = true |- _ => apply Z.leb_le in H end.
  pose proof (Z.mod_pos_bound x G ltac:(lia)).
  pose proof (Z.mod_pos_bound y G ltac:(lia)).
  pose proof (Z.div_mod x G ltac:(lia)).
  pose proof (Z.div_mod y G ltac:(lia)).
  pose proof (Z.div_mod (tex_width T) G ltac:(lia)).
  pose proof (Z.div_mod (tex_height T) G ltac:(lia)).
  exists (x / G), (y / G), (y mod G * G + x mod G).
  rewrite !udiv_exact by lia.
  split; [split; [apply Z.div_pos; lia|apply Z.div_lt_upper_bound; lia]|].
  split; [split; [apply Z.div_pos; lia|apply Z.div_lt_upper_bound; lia]|].
  split; [nia|].
  unfold global_id. simpl.
  replace (y mod G * G + x mod G) with (x mod G + y mod G * G) by lia.
  rewrite Z.mod_add, Z.div_add by lia.
  rewrite Z.mod_mod, (Z.div_small (x mod G)) by lia. f_equal; lia.
Qed.

Lemma sample_group_spec gx gy :
  0 <= gx < udiv (tex_width T) G → 0 <= gy < udiv (tex_height T) G →
  ∃ r : lane,
    sample_group G k T E (gx, gy) = lane_to_ivec4 r ∧
    (∃ lid, 0 <= lid < G * G ∧ r = pixel_lane k T E (global_id G (gx, gy) lid)) ∧
    ∀ lid, 0 <= lid < G * G →
           f32_lt r.2 (pixel_weight k T E (global_id G (gx, gy) lid)) = false.
Proof.
  intros Hx Hy. unfold sample_group.
  set (l := sample_init G k T E (gx, gy)).
  assert (Hl : ∀ a, a ∈ l ↔ ∃ lid, 0 <= lid < G * G ∧
                                   a = pixel_lane k T E (global_id G (gx, gy) lid)).
  { intros a. unfold l, sample_init. rewrite list_elem_of_fmap.
    setoid_rewrite elem_of_seqZ. split; intros (lid & ? & ?); exists lid;
      split; auto; lia. }
  destruct (tree_reduce_max (G * G) l) as (r & Er & Hr & Hmax).
  - unfold l, sample_init. rewrite length_map, length_seqZ. nia.
  - apply Forall_forall. intros a Ha. apply Hl in Ha as (lid & Hlid & ->).
    simpl. apply Hnan. by apply global_id_in_bounds.
  - nia.
  - rewrite Er. simpl. exists r. split; [done|]. split; [by apply Hl|].
    intros lid Hlid. apply (Hmax (pixel_lane k T E (global_id G (gx, gy) lid))).
    apply Hl. eauto.
Qed.

Lemma elem_of_sample_shader v :
  v ∈ sample_shader G k T E ↔
  ∃ gx gy, 0 <= gx < udiv (tex_width T) G ∧ 0 <= gy < udiv (tex_height T) G ∧
           v = sample_group G k T E (gx, gy).
Proof.
  unfold sample_shader. rewrite list_elem_of_bind.
  setoid_rewrite list_elem_of_bind. setoid_rewrite elem_of_seqZ.
  setoid_rewrite list_elem_of_singleton.
  split.
  - intros (gy & (gx & -> & Hx) & Hy). exists gx, gy. repeat split; lia.
  - intros (gx & gy & Hx & Hy & ->). exists gy. split; [|lia]. exists gx. split; [done|lia].
Qed.

Lemma length_sample_shader :
  Z.of_nat (length (sample_shader G k T E))
  = udiv (tex_width T) G * udiv (tex_height T) G.
Proof.
  unfold sample_shader.
  rewrite (length_bind_const _ _ (Z.to_nat (udiv (tex_width T) G))).
  - rewrite length_seqZ. rewrite !udiv_exact by lia.
    assert (0 <= tex_width T / G) by (apply Z.div_pos; lia).
    assert (0 <= tex_height T / G) by (apply Z.div_pos; lia). nia.
  - intros gy _. rewrite (length_bind_const _ _ 1%nat); [|done].
    rewrite length_seqZ. lia.
Qed.
End SampleStage.


Section Search.
Variables (G PG : Z) (k : sample_kernel) (T E : texture2D).
Hypothesis HG : 1 <= G.
Hypothesis HPG : 1 <= PG.
Hypothesis HW : 1 <= tex_width T ∧ tex_width T mod G = 0.
Hypothesis HH : 1 <= tex_height T ∧ tex_height T mod G = 0.
Hypothesis Hnan : ∀ p, in_bounds (tex_size T) p = true →
                       f32_is_nan (pixel_weight k T E p) = false.

Let n := udiv (tex_width T) G * udiv (tex_height T) G.
Let buf := sample_shader G k T E.

Lemma candidates_count : Z.of_nat (length buf) = n ∧ 1 <= n.
Proof.
  split; [apply length_sample_shader; lia|].
  unfold n. rewrite !udiv_exact by lia.
  pose proof (Z.div_mod (tex_width T) G ltac:(lia)).
  pose proof (Z.div_mod (tex_height T) G ltac:(lia)).
  assert (1 <= tex_width T / G) by nia.
  assert (1 <= tex_height T / G) by nia. nia.
Qed.

Lemma candidate_is_pixel v :
  v ∈ buf →
  ∃ p, in_bounds (tex_size T) p = true ∧ v = lane_to_ivec4 (pixel_lane k T E p).
Proof.
  intros Hv. apply elem_of_sample_shader in Hv as (gx & gy & Hx & Hy & ->).
  destruct (sample_group_spec G k T E) with (gx := gx) (gy := gy)
    as (r & -> & (lid & Hlid & ->) & _); try done; try lia.
  eexists. split; [|done]. apply global_id_in_bounds; done || lia.
Qed.

Lemma candidates_not_nan : Forall (λ v, f32_is_nan (vec_z v) = false) buf.
Proof.
  apply Forall_forall. intros v Hv.
  destruct (candidate_is_pixel v Hv) as (p & Hp & ->). simpl. by apply Hnan.
Qed.

(** The two kernels leave in [position_buffer[0]] either the untouched
    initial lane or an in-bounds pixel, and in both cases a weight that
    neither [-1e9] nor any pixel weight exceeds. *)
Lemma search_spec :
  ∃ r : lane,
    position_shader PG n buf !! 0%nat = Some (lane_to_ivec4 r) ∧
    (r = sentinel ∨
     ∃ p, in_bounds (tex_size T) p = true ∧ r = pixel_lane k T E p) ∧
    f32_lt r.2 f32_neg1e9 = false ∧
    ∀ p, in_bounds (tex_size T) p = true →
         f32_lt r.2 (pixel_weight k T E p) = false.
Proof.
  destruct candidates_count as [Hlen Hn1].
  destruct (position_shader_spec PG n buf HPG Hlen candidates_not_nan Hn1)
    as (r & E0 & _ & Hin & Hs & Hmax).
  exists r. split; [done|]. split.
  { destruct Hin as [->|(v & Hv & ->)]; [by left|right].
    destruct (candidate_is_pixel v Hv) as (p & Hp & ->).
    exists p. by rewrite ivec4_to_lane_to_ivec4. }
  split; [done|].
  intros p Hp. destruct (global_id_surj G T) with (p := p)
    as (gx & gy & lid & Hx & Hy & Hlid & <-); try done; try lia.
  destruct (sample_group_spec G k T E) with (gx := gx) (gy := gy)
    as (rg & Eg & (lid' & Hlid' & Erg) & Hg); try done; try lia.
  eapply f32_le_le_trans; [| apply (Hg lid Hlid) |].
  - rewrite Erg. simpl. apply Hnan. apply global_id_in_bounds; done || lia.
  - replace rg.2 with (vec_z (sample_group G k T E (gx, gy))) by by rewrite Eg.
    apply Hmax. apply elem_of_sample_shader; try done; try lia. eauto.
Qed.

(** When some pixel weighs more than [-1e9], the winner is a pixel that
    weighs more than [-1e9]. *)
Lemma search_eligible q :
  in_bounds (tex_size T) q = true →
  f32_lt f32_neg1e9 (pixel_weight k T E q) = true →
  ∃ p, in_bounds (tex_size T) p = true ∧
       position_shader PG n buf !! 0%nat = Some (lane_to_ivec4 (pixel_lane k T E p)) ∧
       f32_lt f32_neg1e9 (pixel_weight k T E p) = true ∧
       ∀ p', in_bounds (tex_size T) p' = true →
             f32_lt (pixel_weight k T E p) (pixel_weight k T E p') = false.
Proof.
  intros Hq Hw. destruct search_spec as (r & E0 & Hin & Hs & Hmax).
  assert (Hr : f32_lt f32_neg1e9 r.2 = true).
  { destruct (f32_lt_cotrans f32_neg1e9 r.2 (pixel_weight k T E q)) as [?|Hc];
      [|done|done|].
    - destruct Hin as [->|(p & Hp & ->)]; [done|]. simpl. by apply Hnan.
    - by rewrite Hmax in Hc. }
  destruct Hin as [->|(p & Hp & ->)]; [done|].
  exists p. repeat split; done.
Qed.

(** When no pixel weighs more than [-1e9], no lane of the position
    shader is ever replaced and the initial lane comes out. *)
Lemma search_none :
  (∀ p, in_bounds (tex_size T) p = true →
        f32_lt f32_neg1e9 (pixel_weight k T E p) = false) →
  position_shader PG n buf !! 0%nat = Some (lane_to_ivec4 sentinel).
Proof.
  intros Hall. destruct candidates_count as [Hlen Hn1].
  destruct (position_shader_spec PG n buf HPG Hlen candidates_not_nan Hn1)
    as (r & E0 & (lid & _ & Hlane) & _).
  rewrite E0, Hlane, position_lane_sentinel; [done|].
  intros v Hv. destruct (candidate_is_pixel v Hv) as (p & Hp & ->).
  simpl. by apply Hall.
Qed.
End Search.


Lemma in_bounds_spec w h x y :
  in_bounds (w, h) (x, y) = true ↔ 0 <= x < w ∧ 0 <= y < h.
Proof.
  unfold in_bounds. simpl. rewrite !andb_true_iff, !Z.leb_le, !Z.ltb_lt. lia.
Qed.

Lemma elem_of_all_positions w h p :
  p ∈ all_positions w h ↔ in_bounds (w, h) p = true.
Proof.
  destruct p as [x y]. rewrite in_bounds_spec. unfold all_positions.
  rewrite list_elem_of_bind. setoid_rewrite list_elem_of_bind.
  setoid_rewrite elem_of_seqZ. setoid_rewrite list_elem_of_singleton.
  split.
  - intros (y' & (x' & E & Hx) & Hy). simplify_eq. lia.
  - intros [Hx Hy]. exists y. split; [|lia]. exists x. split; [done|lia].
Qed.

Lemma NoDup_all_positions w h : NoDup (all_positions w h).
Proof.
  unfold all_positions. apply NoDup_bind.
  - intros y1 y2 p _ _ H1 H2.
    apply list_elem_of_bind in H1 as (x1 & E1 & _).
    apply list_elem_of_bind in H2 as (x2 & E2 & _).
    apply list_elem_of_singleton in E1, E2. congruence.
  - intros y _. apply NoDup_bind.
    + intros x1 x2 p _ _ E1 E2. apply list_elem_of_singleton in E1, E2. congruence.
    + intros. apply NoDup_singleton.
    + apply NoDup_seqZ.
  - apply NoDup_seqZ.
Qed.

Lemma length_all_positions w h :
  0 <= w → 0 <= h → Z.of_nat (length (all_positions w h)) = w * h.
Proof.
  intros Hw Hh. unfold all_positions.
  rewrite (length_bind_const _ _ (Z.to_nat w)).
  - rewrite length_seqZ. nia.
  - intros y _. rewrite (length_bind_const _ _ 1%nat); [|done].
    rewrite length_seqZ. lia.
Qed.

(** *** Stores *)
Lemma tex_size_imageStore t p v : tex_size (imageStore t p v) = tex_size t.
Proof. unfold imageStore. by destruct (in_bounds (tex_size t) p). Qed.

Lemma texelFetch_imageStore t p v q :
  in_bounds (tex_size t) p = true →
  texelFetch (imageStore t p v) q =
  if decide (q = p) then v else texelFetch t q.
Proof.
  intros Hp. unfold texelFetch. rewrite tex_size_imageStore.
  unfold imageStore. rewrite Hp. simpl.
  destruct q as [qx qy], p as [px py]. simpl.
  destruct (decide ((qx, qy) = (px, py))) as [E|N].
  - simplify_eq. rewrite Hp, !Z.eqb_refl. done.
  - destruct (in_bounds (tex_size t) (qx, qy)); [|done].
    destruct (Z.eqb_spec qx px), (Z.eqb_spec qy py); simpl; congruence.
Qed.

Lemma binary_imageStore t p v :
  binary t → v = f32_zero ∨ v = f32_one → binary (imageStore t p v).
Proof.
  intros Hb Hv. destruct (in_bounds (tex_size t) p) eqn:Hp.
  - intros q Hq. rewrite tex_size_imageStore in Hq.
    rewrite texelFetch_imageStore by done. case_decide; auto.
  - unfold imageStore. by rewrite Hp.
Qed.

(** *** Counting *)
Lemma filter_length_update {A} (f g : A → bool) (l : list A) (a : A) :
  NoDup l → a ∈ l → (∀ x, x ∈ l → x ≠ a → g x = f x) →
  (length (List.filter g l) + (if f a then 1 else 0)
   = length (List.filter f l) + (if g a then 1 else 0))%nat.
Proof.
  assert (Hext : ∀ l', (∀ x, x ∈ l' → g x = f x) → List.filter g l' = List.filter f l').
  { induction l' as [|x l' IH]; intros H; [done|]. simpl.
    rewrite (H x) by left. rewrite IH; [done|]. intros; apply H. by right. }
  induction l as [|x l IH]; intros Hnd Ha Hg; [by apply elem_of_nil in Ha|].
  apply NoDup_cons in Hnd as [Hx Hnd]. simpl.
  apply elem_of_cons in Ha as [->|Ha].
  - rewrite (Hext l).
    + destruct (f x), (g x); simpl; lia.
    + intros y Hy. apply Hg; [by right|]. intros ->. done.
  - rewrite (Hg x); [|by left|by intros ->].
    specialize (IH Hnd Ha). destruct (f x); simpl; rewrite <- ?Nat.add_succ_l.
    + simpl in *. rewrite <- IH; [lia|]. intros; apply Hg; [by right|done].
    + apply IH. intros; apply Hg; [by right|done].
Qed.

Lemma count_on_imageStore t p v :
  in_bounds (tex_size t) p = true →
  count_on (imageStore t p v) + (if is_on t p then 1 else 0)
  = count_on t + (if f32_lt f32_half v then 1 else 0).
Proof.
  intros Hp. unfold count_on.
  assert (Es : tex_size (imageStore t p v) = tex_size t) by apply tex_size_imageStore.
  unfold tex_size in Es. injection Es as -> ->.
  pose proof (filter_length_update (is_on t) (is_on (imageStore t p v))
                (all_positions (tex_width t) (tex_height t)) p) as H.
  replace (is_on (imageStore t p v) p) with (f32_lt f32_half v) in H.
  2:{ unfold is_on. rewrite texelFetch_imageStore by done. by rewrite decide_True. }
  destruct (is_on t p), (f32_lt f32_half v); (rewrite <- Nat2Z.inj_add || idtac);
    (unshelve (epose proof (H _ _ _) as H'; clear H));
    try apply NoDup_all_positions;
    try (apply elem_of_all_positions; exact Hp);
    try (intros x _ Hx; unfold is_on; rewrite texelFetch_imageStore by done;
         by rewrite decide_False);
    lia.
Qed.

Lemma count_on_bounds t :
  0 <= tex_width t → 0 <= tex_height t →
  0 <= count_on t <= tex_width t * tex_height t.
Proof.
  intros Hw Hh. unfold count_on. split; [lia|].
  rewrite <- length_all_positions by done.
  apply inj_le. apply List.filter_length_le.
Qed.

(** Some pixel is on when the count is positive; some pixel is off when
    the count is below the number of pixels. *)
Lemma count_on_pos t :
  0 < count_on t → ∃ p, in_bounds (tex_size t) p = true ∧ is_on t p = true.
Proof.
  unfold count_on. intros H.
  destruct (List.filter (is_on t) _) as [|p l] eqn:E; [simpl in H; lia|].
  assert (Hp : List.In p (List.filter (is_on t) (all_positions (tex_width t) (tex_height t))))
    by (rewrite E; by left).
  apply List.filter_In in Hp as [Hp Hon]. exists p. split; [|done].
  apply elem_of_all_positions. by apply list_elem_of_In.
Qed.

Lemma count_on_lt t :
  0 <= tex_width t → 0 <= tex_height t →
  count_on t < tex_width t * tex_height t →
  ∃ p, in_bounds (tex_size t) p = true ∧ is_on t p = false.
Proof.
  intros Hw Hh H.
  unfold count_on in H. rewrite <- length_all_positions in H by done.
  assert (Hex : ∀ l, (length (List.filter (is_on t) l) < length l)%nat →
                     ∃ p, p ∈ l ∧ is_on t p = false).
  { induction l as [|x l IH]; simpl; [lia|].
    destruct (is_on t x) eqn:Ex; simpl; intros Hl.
    - destruct IH as (p & Hp & Hoff); [lia|]. exists p. split; [by right|done].
    - exists x. split; [by left|done]. }
  destruct (Hex (all_positions (tex_width t) (tex_height t))) as (p & Hp & Hoff); [lia|].
  exists p. split; [|done]. by apply elem_of_all_positions.
Qed.


(** *** The remap *)
Lemma upscale_position_axes S Tz x y :
  upscale_position S Tz (x, y) = (remap_axis S.1 Tz.1 x, remap_axis S.2 Tz.2 y).
Proof. done. Qed.

Lemma update_position_axes Tz S x y :
  update_position Tz S (x, y) = (remap_axis Tz.1 S.1 x, remap_axis Tz.2 S.2 y).
Proof. done. Qed.

Lemma remap_axis_in_range P L p :
  fits P L → 0 <= p < P → 0 <= remap_axis P L p < L.
Proof.
  intros [HL Hoff] Hp. unfold remap_axis.
  assert (H0 : 0 <= (P - L) ÷ 2) by (apply Z.quot_pos; lia).
  destruct (Z.ltb_spec p ((P - L) ÷ 2)).
  - rewrite Z.rem_small by lia. lia.
  - rewrite Z.rem_mod_nonneg by lia. apply Z.mod_pos_bound. lia.
Qed.

Lemma remap_axis_lift P L q :
  fits P L → 0 <= q < L →
  0 <= q + (P - L) ÷ 2 < P ∧ remap_axis P L (q + (P - L) ÷ 2) = q.
Proof.
  intros [HL Hoff] Hq. unfold remap_axis.
  assert (H0 : 0 <= (P - L) ÷ 2) by (apply Z.quot_pos; lia).
  assert (H1 : (P - L) ÷ 2 <= P - L).
  { rewrite Z.quot_div_nonneg by lia. apply Z.div_le_upper_bound; lia. }
  split; [lia|].
  destruct (Z.ltb_spec (q + (P - L) ÷ 2) ((P - L) ÷ 2)); [lia|].
  rewrite Z.rem_small by lia. lia.
Qed.

Lemma remap_axis_id P p : 0 <= p < P → remap_axis P P p = p.
Proof.
  intros Hp. unfold remap_axis. rewrite Z.sub_diag. change (0 ÷ 2) with 0.
  destruct (Z.ltb_spec p 0); [lia|]. rewrite Z.sub_0_r. apply Z.rem_small. lia.
Qed.

(** *** Weights *)
Lemma sample_weight_eligible k v e :
  sample_weight k v e =
  if eligible k v
  then match k with MIN_SAMPLE_SHADER => f32_neg e | MAX_SAMPLE_SHADER => e end
  else f32_neg1e9.
Proof. destruct k; simpl; by destruct (f32_lt _ _). Qed.

Lemma sample_weight_above k v e :
  f32_bounded e → eligible k v = true → f32_lt f32_neg1e9 (sample_weight k v e) = true.
Proof. intros [H1 H2] He. rewrite sample_weight_eligible, He. by destruct k. Qed.

Lemma sample_weight_not_nan k v e :
  f32_bounded e → f32_is_nan (sample_weight k v e) = false.
Proof.
  intros [H1 H2]. rewrite sample_weight_eligible.
  destruct (eligible k v); [|done].
  destruct k; eapply f32_lt_not_nan_r; eauto.
Qed.

Lemma sample_weight_above_inv k v e :
  f32_lt f32_neg1e9 (sample_weight k v e) = true → eligible k v = true.
Proof.
  rewrite sample_weight_eligible. destruct (eligible k v); [done|].
  by rewrite f32_lt_irrefl.
Qed.

Section Step.
Variable forward_transform : texture2D → option ctexture.
Variable backward_transform : ctexture → option texture2D.
Variable convolution_texture : ctexture.
Variables PW PH : Z.

Hypothesis Henergy :
  energy_ok forward_transform backward_transform convolution_texture PW PH.
Hypothesis HPW : 1 <= PW ∧ PW mod SampleGroupSize = 0.
Hypothesis HPH : 1 <= PH ∧ PH mod SampleGroupSize = 0.

Variable t : texture2D.
Hypothesis Hbin : binary t.
Hypothesis Hw : fits PW (tex_width t).
Hypothesis Hh : fits PH (tex_height t).

Let U : texture2D :=
  if (tex_width t =? PW) && (tex_height t =? PH) then t
  else upscale_shader t (PW, PH).

Lemma upscaled_size : tex_size U = (PW, PH).
Proof.
  unfold U. destruct (Z.eqb_spec (tex_width t) PW), (Z.eqb_spec (tex_height t) PH);
    simpl; try done. unfold tex_size. congruence.
Qed.

Lemma upscaled_position_in_bounds p :
  in_bounds (PW, PH) p = true →
  in_bounds (tex_size t) (update_position (PW, PH) (tex_size t) p) = true.
Proof.
  destruct p as [x y]. rewrite update_position_axes. unfold tex_size. simpl.
  rewrite !in_bounds_spec. intros [Hx Hy].
  split; apply remap_axis_in_range; done.
Qed.

Lemma upscaled_fetch p :
  in_bounds (PW, PH) p = true →
  texelFetch U p = texelFetch t (update_position (PW, PH) (tex_size t) p).
Proof.
  intros Hp. unfold U.
  destruct (Z.eqb_spec (tex_width t) PW) as [Ew|Ew],
           (Z.eqb_spec (tex_height t) PH) as [Eh|Eh]; simpl.
  1:{ destruct p as [x y]. rewrite update_position_axes. unfold tex_size. simpl.
      rewrite Ew, Eh. apply in_bounds_spec in Hp as [Hx Hy].
      by rewrite !remap_axis_id by done. }
  all: unfold texelFetch at 1; unfold upscale_shader, tex_size at 1; simpl;
    rewrite Hp; destruct p as [x y]; done.
Qed.

Lemma upscaled_binary : binary U.
Proof.
  intros p Hp. rewrite upscaled_size in Hp. rewrite upscaled_fetch by done.
  apply Hbin. by apply upscaled_position_in_bounds.
Qed.

Lemma upscaled_lift q :
  in_bounds (tex_size t) q = true →
  ∃ p, in_bounds (PW, PH) p = true ∧ update_position (PW, PH) (tex_size t) p = q.
Proof.
  destruct q as [x y]. unfold tex_size. rewrite in_bounds_spec. intros [Hx Hy].
  destruct (remap_axis_lift PW (tex_width t) x Hw Hx) as [Bx Ex].
  destruct (remap_axis_lift PH (tex_height t) y Hh Hy) as [By Ey].
  exists (x + (PW - tex_width t) ÷ 2, y + (PH - tex_height t) ÷ 2).
  rewrite in_bounds_spec, update_position_axes. simpl. by rewrite Ex, Ey.
Qed.

(** A step with an eligible pixel: the winner is an eligible pixel of
    [t], [value] is stored there and the position is recorded. *)
Lemma dispatch_kernel_step sb k value index :
  (∃ q, in_bounds (tex_size t) q = true ∧ eligible k (texelFetch t q) = true) →
  ∃ p wgt,
    in_bounds (tex_size t) p = true ∧ eligible k (texelFetch t p) = true ∧
    dispatch_kernel forward_transform backward_transform convolution_texture
                    (PW, PH) t sb k value index
    = (true, imageStore t p value,
       if index =? Maxu32 then sb
       else <[Z.to_nat index := IVec4 p.1 p.2 wgt 0]> sb).
Proof.
  intros (q & Hq & Hel).
  destruct (Henergy U upscaled_size upscaled_binary) as (F & E & EF & EB & Hbd).
  destruct (upscaled_lift q Hq) as (q' & Hq' & Eq').
  assert (HsU := upscaled_size). unfold tex_size in HsU. injection HsU as HwU HhU.
  destruct (search_eligible SampleGroupSize PositionGroupSize k U E) with (q := q')
    as (p' & Hp' & Es & Hab & _).
  - done.
  - done.
  - by rewrite HwU.
  - by rewrite HhU.
  - intros p Hp. rewrite upscaled_size in Hp. apply sample_weight_not_nan. auto.
  - by rewrite upscaled_size.
  - apply sample_weight_above; [auto|]. by rewrite upscaled_fetch, Eq'.
  - rewrite upscaled_size in Hp'.
    exists (update_position (PW, PH) (tex_size t) p'), (pixel_weight k U E p').
    split; [by apply upscaled_position_in_bounds|].
    split.
    { rewrite <- upscaled_fetch by done. eapply sample_weight_above_inv. exact Hab. }
    unfold dispatch_kernel. cbn [fst snd]. fold U. rewrite EF, EB.
    unfold update_shader. rewrite Es. cbn [default].
    rewrite upscaled_size. done.
Qed.

(** A step without any eligible pixel: the initial lane [(0, 0), -1e9]
    wins and [value] is stored at the image of [(0, 0)]. *)
Lemma dispatch_kernel_none sb k value index :
  (∀ q, in_bounds (tex_size t) q = true → eligible k (texelFetch t q) = false) →
  let p := update_position (PW, PH) (tex_size t) (0, 0) in
  dispatch_kernel forward_transform backward_transform convolution_texture
                  (PW, PH) t sb k value index
  = (true, imageStore t p value,
     if index =? Maxu32 then sb
     else <[Z.to_nat index := IVec4 p.1 p.2 f32_neg1e9 0]> sb).
Proof.
  intros Hnone.
  destruct (Henergy U upscaled_size upscaled_binary) as (F & E & EF & EB & Hbd).
  assert (HsU := upscaled_size). unfold tex_size in HsU. injection HsU as HwU HhU.
  pose proof (search_none SampleGroupSize PositionGroupSize k U E) as Es.
  rewrite HwU, HhU in Es. specialize (Es ltac:(done) ltac:(done) HPW HPH).
  unfold dispatch_kernel. cbn [fst snd]. fold U. rewrite EF, EB.
  unfold update_shader. rewrite HwU, HhU, Es; [by rewrite upscaled_size| |].
  - intros p Hp. rewrite upscaled_size in Hp. apply sample_weight_not_nan. auto.
  - intros p Hp. rewrite upscaled_size in Hp. unfold pixel_weight.
    rewrite sample_weight_eligible, upscaled_fetch, Hnone; [apply f32_lt_irrefl|..];
      [by apply upscaled_position_in_bounds|done].
Qed.
End Step.


Lemma batched_for_unroll {S : Type} (body : Z → S → S) fuel i stop s :
  0 <= i → stop + BatchSize <= 2 ^ 32 → stop - i <= Z.of_nat fuel →
  batched_for fuel i stop body s = foldl (fun s k => body k s) s (seqZ i (stop - i)).
Proof.
  revert i s. induction fuel as [|fuel IH]; intros i s Hi Hstop Hfuel.
  { simpl. by rewrite seqZ_nil by lia. }
  simpl. destruct (Z.ltb_spec i stop) as [Hlt|Hge].
  2:{ by rewrite seqZ_nil by lia. }
  unfold u32, BatchSize in *. rewrite Z.mod_small by lia.
  set (end_ := Z.min (i + 512) stop).
  assert (i < end_ <= stop) by (unfold end_; lia).
  replace (Z.max i end_) with end_ by lia.
  rewrite IH by lia.
  replace (stop - i) with ((end_ - i) + (stop - end_)) by lia.
  rewrite seqZ_app, foldl_app by lia.
  by replace (i + (end_ - i)) with end_ by lia.
Qed.

Lemma eligible_MAX_is_on t p :
  binary t → in_bounds (tex_size t) p = true →
  eligible MAX_SAMPLE_SHADER (texelFetch t p) = is_on t p.
Proof.
  intros Hb Hp. unfold is_on. simpl. by destruct (Hb p Hp) as [-> | ->].
Qed.

Lemma eligible_MIN_is_on t p :
  eligible MIN_SAMPLE_SHADER (texelFetch t p) = negb (is_on t p).
Proof. done. Qed.

Lemma eligible_count_pos k t :
  binary t → 0 <= tex_width t → 0 <= tex_height t → 0 < eligible_count k t →
  ∃ q, in_bounds (tex_size t) q = true ∧ eligible k (texelFetch t q) = true.
Proof.
  intros Hb Hw Hh Hc. destruct k; simpl in Hc.
  - destruct (count_on_lt t) as (q & Hq & Hoff); [done..|lia|].
    exists q. split; [done|]. by rewrite eligible_MIN_is_on, Hoff.
  - destruct (count_on_pos t Hc) as (q & Hq & Hon).
    exists q. split; [done|]. by rewrite eligible_MAX_is_on.
Qed.

Lemma eligible_count_none k t :
  binary t → 0 <= tex_width t → 0 <= tex_height t → eligible_count k t <= 0 →
  ∀ q, in_bounds (tex_size t) q = true → eligible k (texelFetch t q) = false.
Proof.
  intros Hb Hw Hh Hc q Hq.
  destruct (eligible k (texelFetch t q)) eqn:E; [|done]. exfalso.
  assert (Hin : q ∈ all_positions (tex_width t) (tex_height t))
    by by apply elem_of_all_positions.
  pose proof (count_on_imageStore t q (if is_on t q then f32_zero else f32_one) Hq) as Hst.
  pose proof (count_on_bounds (imageStore t q (if is_on t q then f32_zero else f32_one))) as Hbd.
  assert (Es := tex_size_imageStore t q (if is_on t q then f32_zero else f32_one)).
  unfold tex_size in Es. injection Es as Ew Eh. rewrite Ew, Eh in Hbd.
  specialize (Hbd Hw Hh).
  destruct k; simpl in Hc.
  - rewrite eligible_MIN_is_on in E. destruct (is_on t q); [done|].
    change (f32_lt f32_half f32_one) with true in Hst. cbv iota in Hst. lia.
  - rewrite eligible_MAX_is_on in E by done. rewrite E in Hst, Hbd.
    cbv iota in Hst, Hbd.
    change (f32_lt f32_half f32_zero) with false in Hst. cbv iota in Hst. lia.
Qed.

Lemma eligible_value k value : fills_or_clears k value → eligible k value = false.
Proof. by intros [[-> ->]|[-> ->]]. Qed.

Lemma eligible_count_imageStore k value t p :
  binary t → fills_or_clears k value →
  in_bounds (tex_size t) p = true → eligible k (texelFetch t p) = true →
  eligible_count k (imageStore t p value) = eligible_count k t - 1.
Proof.
  intros Hb Hkv Hp He.
  pose proof (count_on_imageStore t p value Hp) as Hst.
  assert (Es := tex_size_imageStore t p value).
  unfold tex_size in Es. injection Es as Ew Eh.
  destruct Hkv as [[-> ->]|[-> ->]]; simpl; rewrite ?Ew, ?Eh.
  - rewrite eligible_MIN_is_on in He. destruct (is_on t p); [done|].
    change (f32_lt f32_half f32_one) with true in Hst. cbv iota in Hst. lia.
  - rewrite eligible_MAX_is_on in He by done. rewrite He in Hst.
    change (f32_lt f32_half f32_zero) with false in Hst. cbv iota in Hst. lia.
Qed.

(** *** Lookups in a buffer after a run of records *)
Lemma length_records sb idxs es : length (records sb idxs es) = length sb.
Proof.
  unfold records. revert sb. induction (zip idxs es) as [|[i e] l IH]; intros sb; [done|].
  simpl. rewrite IH. unfold record. simpl. destruct (i =? Maxu32); [done|].
  apply length_insert.
Qed.

Lemma records_cons sb i idxs e es :
  records sb (i :: idxs) (e :: es) = records (record sb (i, e)) idxs es.
Proof. done. Qed.

Lemma lookup_records_other sb idxs es (n : nat) :
  (∀ i, i ∈ idxs → Z.to_nat i ≠ n) → records sb idxs es !! n = sb !! n.
Proof.
  revert sb es. induction idxs as [|i idxs IH]; intros sb es Hn; [done|].
  destruct es as [|e es]; [done|]. rewrite records_cons, IH.
  - unfold record. simpl. destruct (i =? Maxu32); [done|].
    apply list_lookup_insert_ne. apply Hn. by left.
  - intros j Hj. apply Hn. by right.
Qed.

Lemma lookup_records sb idxs es (j : nat) i e :
  NoDup idxs → (∀ i, i ∈ idxs → 0 <= i < Z.of_nat (length sb) ∧ i ≠ Maxu32) →
  idxs !! j = Some i → es !! j = Some e →
  records sb idxs es !! Z.to_nat i = Some e.
Proof.
  revert sb es j. induction idxs as [|i0 idxs IH]; intros sb es j Hnd Hr Hi He; [done|].
  destruct es as [|e0 es]; [done|]. rewrite records_cons.
  apply NoDup_cons in Hnd as [Hi0 Hnd].
  destruct j as [|j]; simpl in Hi, He.
  - simplify_eq. rewrite lookup_records_other.
    + unfold record. simpl. destruct (Hr i ltac:(left)) as [Hb Hm].
      destruct (Z.eqb_spec i Maxu32); [done|]. apply list_lookup_insert_eq. lia.
    + intros i' Hi' E. destruct (Hr i ltac:(left)), (Hr i' ltac:(by right)).
      assert (i = i') by lia. by subst.
  - eapply IH; eauto. intros i' Hi'.
    assert (length (record sb (i0, e0)) = length sb) as ->.
    { unfold record. simpl. destruct (i0 =? Maxu32); [done|]. apply length_insert. }
    apply Hr. by right.
Qed.

Lemma records_app sb idxs1 idxs2 es1 es2 :
  length idxs1 = length es1 →
  records sb (idxs1 ++ idxs2) (es1 ++ es2) = records (records sb idxs1 es1) idxs2 es2.
Proof.
  intros Hl. unfold records. by rewrite zip_with_app, foldl_app.
Qed.

(** *** Stores *)
Lemma tex_size_stores value t es : tex_size (stores value t es) = tex_size t.
Proof.
  unfold stores. revert t. induction es as [|e es IH]; intros t; [done|].
  simpl. by rewrite IH, tex_size_imageStore.
Qed.

Lemma texelFetch_stores value t es q :
  Forall (λ e, in_bounds (tex_size t) (vec_xy e) = true) es →
  texelFetch (stores value t es) q =
  if decide (q ∈ vec_xy <$> es) then value else texelFetch t q.
Proof.
  unfold stores. revert t. induction es as [|e es IH]; intros t Hes; [done|].
  apply Forall_cons in Hes as [He Hes]. simpl. rewrite IH.
  2:{ by rewrite tex_size_imageStore. }
  rewrite texelFetch_imageStore by done.
  change (list_fmap ivec4 (Z * Z)%type vec_xy es) with (vec_xy <$> es).
  destruct (decide (q ∈ vec_xy <$> es)) as [Hin|Hin],
           (decide (q = vec_xy e)) as [Heq|Heq].
  - rewrite decide_True; [done|]. by right.
  - rewrite decide_True; [done|]. by right.
  - rewrite decide_True; [done|]. rewrite Heq. by left.
  - rewrite decide_False; [done|]. intros [?|?]%elem_of_cons; done.
Qed.


Lemma fits_nonneg P L : fits P L → 0 <= L.
Proof. intros [? _]. lia. Qed.

Lemma vec_xy_IVec4 (p : ivec2) w z : vec_xy (IVec4 p.1 p.2 w z) = p.
Proof. by destruct p. Qed.

Section Run.
Variable forward_transform : texture2D → option ctexture.
Variable backward_transform : ctexture → option texture2D.
Variable convolution_texture : ctexture.
Variables PW PH : Z.
Hypothesis Henergy :
  energy_ok forward_transform backward_transform convolution_texture PW PH.
Hypothesis HPW : 1 <= PW ∧ PW mod SampleGroupSize = 0.
Hypothesis HPH : 1 <= PH ∧ PH mod SampleGroupSize = 0.

Abbreviation run := (greedy_run forward_transform backward_transform
                            convolution_texture (PW, PH)).
Abbreviation step_noise' := (step_noise forward_transform backward_transform
                                    convolution_texture (PW, PH)).
Abbreviation step_copy' := (step_copy forward_transform backward_transform
                                  convolution_texture (PW, PH)).

Lemma greedy_run_spec k value idxs :
  fills_or_clears k value →
  ∀ t sb,
    binary t → fits PW (tex_width t) → fits PH (tex_height t) →
    Z.of_nat (length idxs) <= eligible_count k t →
    ∃ es,
      length es = length idxs ∧
      NoDup (vec_xy <$> es) ∧
      Forall (λ e, in_bounds (tex_size t) (vec_xy e) = true ∧
                   eligible k (texelFetch t (vec_xy e)) = true) es ∧
      run k value idxs (t, sb) = (stores value t es, records sb idxs es) ∧
      binary (stores value t es) ∧
      eligible_count k (stores value t es)
      = eligible_count k t - Z.of_nat (length idxs) ∧
      ∀ n, run k value (take n idxs) (t, sb)
           = (stores value t (take n es), records sb (take n idxs) (take n es)).
Proof.
  intros Hkv. induction idxs as [|i idxs IH]; intros t sb Hb Hw Hh Hc.
  { exists []. split; [done|]. split; [constructor|]. split; [constructor|].
    split; [done|]. split; [done|]. split; [simpl; lia|].
    intros n. by rewrite !take_nil. }
  destruct (eligible_count_pos k t) as (q & Hq & Hel);
    [done|by eapply fits_nonneg|by eapply fits_nonneg|simpl in Hc; lia|].
  destruct (dispatch_kernel_step forward_transform backward_transform
              convolution_texture PW PH Henergy HPW HPH t Hb Hw Hh sb k value i)
    as (p & wgt & Hp & Hpel & Estep); [by exists q|].
  set (t1 := imageStore t p value).
  set (e0 := IVec4 p.1 p.2 wgt 0).
  assert (Et1 : tex_size t1 = tex_size t) by apply tex_size_imageStore.
  assert (Ew1 : tex_width t1 = tex_width t) by (unfold tex_size in Et1; congruence).
  assert (Eh1 : tex_height t1 = tex_height t) by (unfold tex_size in Et1; congruence).
  assert (Hb1 : binary t1).
  { apply binary_imageStore; [done|]. destruct Hkv as [[_ ->]|[_ ->]]; auto. }
  assert (Hc1 : eligible_count k t1 = eligible_count k t - 1)
    by by apply eligible_count_imageStore.
  destruct (IH t1 (record sb (i, e0)) Hb1)
    as (es & Hlen & Hnd & Hall & Erun & Hbin & Hcnt & Hpre).
  { by rewrite Ew1. } { by rewrite Eh1. } { simpl in Hc. lia. }
  exists (e0 :: es). split; [simpl; lia|].
  assert (Hxy : vec_xy e0 = p) by apply vec_xy_IVec4.
  rewrite Forall_forall in Hall.
  split.
  { rewrite fmap_cons, Hxy. apply NoDup_cons. split; [|done].
    intros Hin. apply list_elem_of_fmap in Hin as (e & Ee & He).
    destruct (Hall e He) as [_ Hel']. rewrite <- Ee in Hel'.
    unfold t1 in Hel'. rewrite texelFetch_imageStore, decide_True in Hel' by done.
    by rewrite eligible_value in Hel'. }
  split.
  { apply Forall_cons. split; [by rewrite Hxy|].
    apply Forall_forall. intros e He. destruct (Hall e He) as [Hin Hel'].
    rewrite Et1 in Hin. split; [done|].
    unfold t1 in Hel'. rewrite texelFetch_imageStore in Hel' by done.
    case_decide as Heq; [|done].
    by rewrite eligible_value in Hel'. }
  split.
  { change (run k value (i :: idxs) (t, sb))
      with (run k value idxs
              (greedy_step forward_transform backward_transform
                 convolution_texture (PW, PH) k value (t, sb) i)).
    assert (greedy_step forward_transform backward_transform
              convolution_texture (PW, PH) k value (t, sb) i
            = (t1, record sb (i, e0))) as ->.
    { unfold greedy_step. simpl. by rewrite Estep. }
    rewrite Erun. rewrite records_cons. unfold stores. simpl. by rewrite Hxy. }
  assert (Estep' : greedy_step forward_transform backward_transform
                     convolution_texture (PW, PH) k value (t, sb) i
                   = (t1, record sb (i, e0))).
  { unfold greedy_step. simpl. by rewrite Estep. }
  split.
  { unfold stores. simpl. by rewrite Hxy. }
  split.
  { unfold stores in *. simpl. rewrite Hxy. fold t1. rewrite Hcnt, Hc1.
    rewrite Nat2Z.inj_succ. lia. }
  intros [|n]; [done|]. rewrite !firstn_cons.
  change (run k value (i :: take n idxs) (t, sb))
    with (run k value (take n idxs)
            (greedy_step forward_transform backward_transform
               convolution_texture (PW, PH) k value (t, sb) i)).
  rewrite Estep', Hpre, records_cons. unfold stores. simpl. by rewrite Hxy.
Qed.

Lemma step_copy_greedy k value i g :
  step_copy' k value i g
  = Generator (noise_texture g)
      (greedy_step forward_transform backward_transform convolution_texture
         (PW, PH) k value (copy_texture g, sequence_buffer g) i).1
      (greedy_step forward_transform backward_transform convolution_texture
         (PW, PH) k value (copy_texture g, sequence_buffer g) i).2.
Proof.
  unfold step_copy, greedy_step. simpl.
  by destruct (dispatch_kernel _ _ _ _ _ _ _ _ _) as [[? ?] ?].
Qed.

Lemma step_noise_greedy k value i g :
  step_noise' k value i g
  = Generator
      (greedy_step forward_transform backward_transform convolution_texture
         (PW, PH) k value (noise_texture g, sequence_buffer g) i).1
      (copy_texture g)
      (greedy_step forward_transform backward_transform convolution_texture
         (PW, PH) k value (noise_texture g, sequence_buffer g) i).2.
Proof.
  unfold step_noise, greedy_step. simpl.
  by destruct (dispatch_kernel _ _ _ _ _ _ _ _ _) as [[? ?] ?].
Qed.

Lemma fold_step_copy k value (f : Z → Z) l g :
  foldl (fun g i => step_copy' k value (f i) g) g l
  = Generator (noise_texture g)
      (run k value (f <$> l) (copy_texture g, sequence_buffer g)).1
      (run k value (f <$> l) (copy_texture g, sequence_buffer g)).2.
Proof.
  revert g. induction l as [|i l IH]; intros g; [by destruct g|].
  simpl. rewrite IH, step_copy_greedy. simpl.
  by destruct (greedy_step _ _ _ _ _ _ _ _) as [? ?].
Qed.

Lemma fold_step_noise k value (f : Z → Z) l g :
  foldl (fun g i => step_noise' k value (f i) g) g l
  = Generator
      (run k value (f <$> l) (noise_texture g, sequence_buffer g)).1
      (copy_texture g)
      (run k value (f <$> l) (noise_texture g, sequence_buffer g)).2.
Proof.
  revert g. induction l as [|i l IH]; intros g; [by destruct g|].
  simpl. rewrite IH, step_noise_greedy. simpl.
  by destruct (greedy_step _ _ _ _ _ _ _ _) as [? ?].
Qed.
End Run.


(** *** The inverse kernel *)
Lemma texelFetch_inverse t p :
  in_bounds (tex_size t) p = true →
  texelFetch (inverse_shader t) p = f32_sub f32_one (texelFetch t p).
Proof.
  intros Hp. unfold texelFetch at 1. unfold inverse_shader, tex_size at 1. simpl.
  fold (tex_size t). rewrite Hp. by destruct p.
Qed.

Lemma binary_inverse t : binary t → binary (inverse_shader t).
Proof.
  intros Hb p Hp. change (tex_size (inverse_shader t)) with (tex_size t) in Hp.
  rewrite texelFetch_inverse by done.
  destruct (Hb p Hp) as [-> | ->]; [by right|by left].
Qed.

Lemma is_on_inverse t p :
  binary t → in_bounds (tex_size t) p = true →
  is_on (inverse_shader t) p = negb (is_on t p).
Proof.
  intros Hb Hp. unfold is_on. rewrite texelFetch_inverse by done.
  by destruct (Hb p Hp) as [-> | ->].
Qed.

Lemma filter_length_negb {A} (f g : A → bool) (l : list A) :
  (∀ x, x ∈ l → g x = negb (f x)) →
  (length (List.filter g l) + length (List.filter f l) = length l)%nat.
Proof.
  induction l as [|x l IH]; intros H; [done|]. simpl.
  rewrite (H x) by left. specialize (IH ltac:(intros; apply H; by right)).
  destruct (f x); simpl; lia.
Qed.

Lemma count_on_inverse t :
  binary t → 0 <= tex_width t → 0 <= tex_height t →
  count_on (inverse_shader t) = tex_width t * tex_height t - count_on t.
Proof.
  intros Hb Hw Hh. unfold count_on.
  change (tex_width (inverse_shader t)) with (tex_width t).
  change (tex_height (inverse_shader t)) with (tex_height t).
  rewrite <- (length_all_positions (tex_width t) (tex_height t)) by done.
  pose proof (filter_length_negb (is_on t) (is_on (inverse_shader t))
                (all_positions (tex_width t) (tex_height t))) as H.
  rewrite <- H; [lia|].
  intros p Hp. apply is_on_inverse; [done|]. by apply elem_of_all_positions.
Qed.

(** *** Rank lists *)
Lemma first_phase_ranks_reverse P :
  0 <= P < 2 ^ 32 → first_phase_ranks P = reverse (seqZ 0 P).
Proof.
  intros HP. apply list_eq. intros j. unfold first_phase_ranks.
  rewrite list_lookup_fmap.
  destruct (decide (Z.of_nat j < P)) as [Hj|Hj].
  - rewrite lookup_seqZ_lt by done. simpl.
    rewrite reverse_lookup by (rewrite length_seqZ; lia).
    rewrite length_seqZ, lookup_seqZ_lt by lia.
    unfold u32. rewrite Z.mod_small by lia. f_equal. lia.
  - rewrite lookup_seqZ_ge by lia. simpl. symmetry.
    apply lookup_ge_None. rewrite length_reverse, length_seqZ. lia.
Qed.

Lemma phase_ranks_permutation P half num :
  0 <= P <= half → half <= num → num < 2 ^ 32 →
  first_phase_ranks P ++ second_phase_ranks P half ++ third_phase_ranks half num
  ≡ₚ seqZ 0 num.
Proof.
  intros HP Hh Hn. rewrite first_phase_ranks_reverse by lia.
  rewrite reverse_Permutation. unfold second_phase_ranks, third_phase_ranks.
  replace num with (P + ((half - P) + (num - half))) at 2 by lia.
  rewrite !seqZ_app by lia. rewrite Z.add_0_l.
  by replace (P + (half - P)) with half by lia.
Qed.

Lemma dispatch_kernel_no_record fwd bwd conv bs t sb k value :
  (dispatch_kernel fwd bwd conv bs t sb k value Maxu32).2 = sb.
Proof.
  unfold dispatch_kernel. destruct (fwd _); [|done]. destruct (bwd _); done.
Qed.


Section Phases.
Variable forward_transform : texture2D → option ctexture.
Variable backward_transform : ctexture → option texture2D.
Variable convolution_texture : ctexture.
Variables PW PH : Z.
Hypothesis Henergy :
  energy_ok forward_transform backward_transform convolution_texture PW PH.
Hypothesis HPW : 1 <= PW ∧ PW mod SampleGroupSize = 0.
Hypothesis HPH : 1 <= PH ∧ PH mod SampleGroupSize = 0.

Abbreviation run := (greedy_run forward_transform backward_transform
                            convolution_texture (PW, PH)).
Abbreviation first_phase' := (first_phase forward_transform backward_transform
                                convolution_texture (PW, PH)).
Abbreviation second_phase' := (second_phase forward_transform backward_transform
                                convolution_texture (PW, PH)).
Abbreviation third_phase' := (third_phase forward_transform backward_transform
                                convolution_texture (PW, PH)).
Abbreviation initial_pair' := (initial_pair forward_transform backward_transform
                                convolution_texture (PW, PH)).
Abbreviation initial_sequence' := (initial_sequence forward_transform backward_transform
                                convolution_texture (PW, PH)).
Abbreviation step_noise' := (step_noise forward_transform backward_transform
                                    convolution_texture (PW, PH)).

Lemma first_phase_unroll P g :
  0 <= P → P + BatchSize <= 2 ^ 32 →
  first_phase' P g
  = Generator (noise_texture g)
      (run MAX_SAMPLE_SHADER f32_zero (first_phase_ranks P)
           (noise_texture g, sequence_buffer g)).1
      (run MAX_SAMPLE_SHADER f32_zero (first_phase_ranks P)
           (noise_texture g, sequence_buffer g)).2.
Proof.
  intros HP Hov. unfold first_phase.
  rewrite batched_for_unroll by lia. rewrite Z.sub_0_r.
  by rewrite (fold_step_copy _ _ _ _ _ _ _ (fun i => u32 (P - i - 1))).
Qed.

Lemma second_phase_unroll P half g :
  0 <= P → half + BatchSize <= 2 ^ 32 →
  second_phase' P half g
  = Generator
      (run MIN_SAMPLE_SHADER f32_one (second_phase_ranks P half)
           (noise_texture g, sequence_buffer g)).1
      (copy_texture g)
      (run MIN_SAMPLE_SHADER f32_one (second_phase_ranks P half)
           (noise_texture g, sequence_buffer g)).2.
Proof.
  intros HP Hov. unfold second_phase.
  rewrite batched_for_unroll by lia.
  rewrite (fold_step_noise _ _ _ _ _ _ _ (fun i => i)).
  by rewrite list_fmap_id.
Qed.

Lemma third_phase_unroll half num g :
  0 <= half → num + BatchSize <= 2 ^ 32 →
  third_phase' half num g
  = Generator (noise_texture g)
      (run MAX_SAMPLE_SHADER f32_zero (third_phase_ranks half num)
           (inverse_shader (noise_texture g), sequence_buffer g)).1
      (run MAX_SAMPLE_SHADER f32_zero (third_phase_ranks half num)
           (inverse_shader (noise_texture g), sequence_buffer g)).2.
Proof.
  intros HP Hov. unfold third_phase.
  rewrite batched_for_unroll by lia.
  rewrite (fold_step_copy _ _ _ _ _ _ _ (fun i => i)).
  by rewrite list_fmap_id.
Qed.

(** One pair of the initial sequence on a pattern that has an off
    pixel: an off pixel [p] is turned on, then an on pixel [q] of the
    result is turned off; nothing is recorded. *)
Lemma initial_pair_spec g :
  binary (noise_texture g) →
  fits PW (tex_width (noise_texture g)) → fits PH (tex_height (noise_texture g)) →
  count_on (noise_texture g)
    < tex_width (noise_texture g) * tex_height (noise_texture g) →
  ∃ p q,
    in_bounds (tex_size (noise_texture g)) p = true ∧
    is_on (noise_texture g) p = false ∧
    in_bounds (tex_size (noise_texture g)) q = true ∧
    is_on (imageStore (noise_texture g) p f32_one) q = true ∧
    step_noise' MIN_SAMPLE_SHADER f32_one Maxu32 g
      = Generator (imageStore (noise_texture g) p f32_one)
                  (copy_texture g) (sequence_buffer g) ∧
    initial_pair' g
      = Generator (imageStore (imageStore (noise_texture g) p f32_one) q f32_zero)
                  (copy_texture g) (sequence_buffer g) ∧
    count_on (imageStore (noise_texture g) p f32_one) = count_on (noise_texture g) + 1 ∧
    count_on (imageStore (imageStore (noise_texture g) p f32_one) q f32_zero)
      = count_on (noise_texture g).
Proof.
  intros Hb Hw Hh Hc. set (t := noise_texture g) in *.
  destruct (eligible_count_pos MIN_SAMPLE_SHADER t) as (q0 & Hq0 & Hel0);
    [done|by eapply fits_nonneg|by eapply fits_nonneg|simpl; lia|].
  destruct (dispatch_kernel_step forward_transform backward_transform
              convolution_texture PW PH Henergy HPW HPH t Hb Hw Hh
              (sequence_buffer g) MIN_SAMPLE_SHADER f32_one Maxu32)
    as (p & w1 & Hp & Hpel & E1); [by exists q0|].
  set (t1 := imageStore t p f32_one) in *.
  assert (Et1 : tex_size t1 = tex_size t) by apply tex_size_imageStore.
  assert (Ew1 : tex_width t1 = tex_width t) by (unfold tex_size in Et1; congruence).
  assert (Eh1 : tex_height t1 = tex_height t) by (unfold tex_size in Et1; congruence).
  assert (Hb1 : binary t1) by (apply binary_imageStore; auto).
  rewrite eligible_MIN_is_on in Hpel. apply negb_true_iff in Hpel.
  assert (Hc1 : count_on t1 = count_on t + 1).
  { pose proof (count_on_imageStore t p f32_one Hp) as H. rewrite Hpel in H.
    change (f32_lt f32_half f32_one) with true in H. cbv iota in H. fold t1 in H. lia. }
  destruct (eligible_count_pos MAX_SAMPLE_SHADER t1) as (q1 & Hq1 & Hel1);
    [done|rewrite Ew1; by eapply fits_nonneg|rewrite Eh1; by eapply fits_nonneg| |].
  { simpl. pose proof (count_on_bounds t ltac:(by eapply fits_nonneg)
                         ltac:(by eapply fits_nonneg)). lia. }
  destruct (dispatch_kernel_step forward_transform backward_transform
              convolution_texture PW PH Henergy HPW HPH t1 Hb1
              ltac:(by rewrite Ew1) ltac:(by rewrite Eh1)
              (sequence_buffer g) MAX_SAMPLE_SHADER f32_zero Maxu32)
    as (q & w2 & Hq & Hqel & E2); [by exists q1|].
  rewrite eligible_MAX_is_on in Hqel by done.
  exists p, q. split; [done|]. split; [done|]. split; [by rewrite <- Et1|].
  split; [done|].
  assert (Es1 : step_noise' MIN_SAMPLE_SHADER f32_one Maxu32 g
                = Generator t1 (copy_texture g) (sequence_buffer g)).
  { unfold step_noise. fold t. by rewrite E1. }
  split; [done|]. split.
  { unfold initial_pair. rewrite Es1. unfold step_noise. simpl. by rewrite E2. }
  split; [done|].
  pose proof (count_on_imageStore t1 q f32_zero Hq) as H. rewrite Hqel in H.
  change (f32_lt f32_half f32_zero) with false in H. cbv iota in H. fold t1. lia.
Qed.

Lemma initial_sequence_unroll P g :
  0 <= P → P + BatchSize <= 2 ^ 32 →
  initial_sequence' P g = Nat.iter (Z.to_nat P) initial_pair' g.
Proof.
  intros HP Hov. unfold initial_sequence.
  rewrite batched_for_unroll by lia. rewrite Z.sub_0_r.
  rewrite <- (Z2Nat.id P) at 1 by done.
  induction (Z.to_nat P) as [|n IH]; [done|].
  rewrite seqZ_S, foldl_app. simpl. by rewrite IH.
Qed.

Lemma initial_pair_no_record g :
  sequence_buffer (initial_pair' g) = sequence_buffer g ∧
  copy_texture (initial_pair' g) = copy_texture g.
Proof.
  unfold initial_pair, step_noise.
  pose proof (dispatch_kernel_no_record forward_transform backward_transform
    convolution_texture (PW, PH) (noise_texture g) (sequence_buffer g)
    MIN_SAMPLE_SHADER f32_one) as H1.
  destruct (dispatch_kernel _ _ _ _ (noise_texture g) _ _ _ _) as [[b1 t1] sb1].
  simpl in *. subst sb1.
  pose proof (dispatch_kernel_no_record forward_transform backward_transform
    convolution_texture (PW, PH) t1 (sequence_buffer g)
    MAX_SAMPLE_SHADER f32_zero) as H2.
  destruct (dispatch_kernel _ _ _ _ t1 _ _ _ _) as [[b2 t2] sb2].
  simpl in *. by subst sb2.
Qed.

Lemma initial_iter_no_record n g :
  sequence_buffer (Nat.iter n initial_pair' g) = sequence_buffer g ∧
  copy_texture (Nat.iter n initial_pair' g) = copy_texture g.
Proof.
  induction n as [|n [IH1 IH2]]; [done|]. simpl.
  destruct (initial_pair_no_record (Nat.iter n initial_pair' g)) as [-> ->]. done.
Qed.

(** The pattern keeps its count through any number of pairs as long as
    it has an off pixel to begin with. *)
Lemma initial_iter_count n g :
  binary (noise_texture g) →
  fits PW (tex_width (noise_texture g)) → fits PH (tex_height (noise_texture g)) →
  count_on (noise_texture g)
    < tex_width (noise_texture g) * tex_height (noise_texture g) →
  let g' := Nat.iter n initial_pair' g in
  binary (noise_texture g') ∧
  tex_size (noise_texture g') = tex_size (noise_texture g) ∧
  count_on (noise_texture g') = count_on (noise_texture g).
Proof.
  intros Hb Hw Hh Hc. induction n as [|n (IHb & IHs & IHc)]; [done|]. simpl.
  set (g1 := Nat.iter n initial_pair' g) in *.
  assert (Ew : tex_width (noise_texture g1) = tex_width (noise_texture g))
    by (unfold tex_size in IHs; congruence).
  assert (Eh : tex_height (noise_texture g1) = tex_height (noise_texture g))
    by (unfold tex_size in IHs; congruence).
  destruct (initial_pair_spec g1) as (p & q & Hp & Hoff & Hq & Hon & _ & E & _ & Ec);
    [done|by rewrite Ew|by rewrite Eh|rewrite Ew, Eh, IHc; done|].
  rewrite E. simpl. split; [|split].
  - apply binary_imageStore; [apply binary_imageStore|]; auto.
  - by rewrite !tex_size_imageStore.
  - by rewrite Ec.
Qed.

(** What the three phases of a layer do to a pattern with [P] on-pixels
    when [P] does not exceed half the pixel count. *)
Lemma layer_phases_spec g P :
  let N0 := noise_texture g in
  let w := tex_width N0 in
  let h := tex_height N0 in
  let num := w * h in
  let half := num / 2 in
  binary N0 → fits PW w → fits PH h →
  count_on N0 = P → P <= half → num + BatchSize <= 2 ^ 32 →
  ∃ es1 es2 es3,
    let g1 := first_phase' P g in
    let g2 := second_phase' P half g1 in
    let g3 := third_phase' half num g2 in
    length es1 = Z.to_nat P ∧ length es2 = Z.to_nat (half - P) ∧
    length es3 = Z.to_nat (num - half) ∧
    g1 = Generator N0 (stores f32_zero N0 es1)
           (records (sequence_buffer g) (first_phase_ranks P) es1) ∧
    g2 = Generator (stores f32_one N0 es2) (copy_texture g1)
           (records (sequence_buffer g1) (second_phase_ranks P half) es2) ∧
    g3 = Generator (noise_texture g2)
           (stores f32_zero (inverse_shader (noise_texture g2)) es3)
           (records (sequence_buffer g2) (third_phase_ranks half num) es3) ∧
    count_on (copy_texture g1) = 0 ∧
    count_on (noise_texture g2) = half ∧
    count_on (copy_texture g3) = 0 ∧
    vec_xy <$> (es1 ++ es2 ++ es3) ≡ₚ all_positions w h ∧
    (∀ n, run MAX_SAMPLE_SHADER f32_zero (take n (first_phase_ranks P))
              (N0, sequence_buffer g)
          = (stores f32_zero N0 (take n es1),
             records (sequence_buffer g) (take n (first_phase_ranks P))
                     (take n es1))) ∧
    (∀ n, run MIN_SAMPLE_SHADER f32_one (take n (second_phase_ranks P half))
              (N0, sequence_buffer g1)
          = (stores f32_one N0 (take n es2),
             records (sequence_buffer g1) (take n (second_phase_ranks P half))
                     (take n es2))) ∧
    (∀ n, run MAX_SAMPLE_SHADER f32_zero (take n (third_phase_ranks half num))
              (inverse_shader (noise_texture g2), sequence_buffer g2)
          = (stores f32_zero (inverse_shader (noise_texture g2)) (take n es3),
             records (sequence_buffer g2) (take n (third_phase_ranks half num))
                     (take n es3))).
Proof.
  intros N0 w h num half Hb Hw Hh HP Hhalf Hov.
  assert (Hw0 : 0 <= w) by by eapply fits_nonneg.
  assert (Hh0 : 0 <= h) by by eapply fits_nonneg.
  assert (Hnum : 0 <= num) by (unfold num; nia).
  assert (Hhn : 0 <= half <= num).
  { unfold half. split; [apply Z.div_pos; lia|]. apply Z.div_le_upper_bound; lia. }
  pose proof (count_on_bounds N0 Hw0 Hh0) as HPb. rewrite HP in HPb.
  unfold BatchSize in Hov.
  (* first phase *)
  destruct (greedy_run_spec forward_transform backward_transform convolution_texture
              PW PH Henergy HPW HPH MAX_SAMPLE_SHADER f32_zero (first_phase_ranks P)
              ltac:(by right) N0 (sequence_buffer g) Hb Hw Hh)
    as (es1 & L1 & ND1 & F1 & R1 & B1 & C1 & T1).
  { unfold first_phase_ranks. rewrite length_fmap, length_seqZ. simpl. lia. }
  (* second phase *)
  destruct (greedy_run_spec forward_transform backward_transform convolution_texture
              PW PH Henergy HPW HPH MIN_SAMPLE_SHADER f32_one (second_phase_ranks P half)
              ltac:(by left) N0 (records (sequence_buffer g) (first_phase_ranks P) es1)
              Hb Hw Hh)
    as (es2 & L2 & ND2 & F2 & R2 & B2 & C2 & T2).
  { unfold second_phase_ranks. rewrite length_seqZ. simpl. fold w h num. lia. }
  set (N2 := stores f32_one N0 es2) in *.
  assert (Es2 : tex_size N2 = tex_size N0) by apply tex_size_stores.
  assert (Ew2 : tex_width N2 = w) by (unfold tex_size in Es2; by injection Es2).
  assert (Eh2 : tex_height N2 = h) by (unfold tex_size in Es2; by injection Es2).
  assert (Hc2 : count_on N2 = half).
  { simpl in C2. rewrite Ew2, Eh2 in C2. fold w h num in C2.
    unfold second_phase_ranks in C2. rewrite length_seqZ in C2. lia. }
  (* third phase *)
  destruct (greedy_run_spec forward_transform backward_transform convolution_texture
              PW PH Henergy HPW HPH MAX_SAMPLE_SHADER f32_zero (third_phase_ranks half num)
              ltac:(by right) (inverse_shader N2)
              (records (records (sequence_buffer g) (first_phase_ranks P) es1)
                       (second_phase_ranks P half) es2))
    as (es3 & L3 & ND3 & F3 & R3 & B3 & C3 & T3).
  { by apply binary_inverse. }
  { change (tex_width (inverse_shader N2)) with (tex_width N2). by rewrite Ew2. }
  { change (tex_height (inverse_shader N2)) with (tex_height N2). by rewrite Eh2. }
  { simpl. rewrite count_on_inverse by (rewrite ?Ew2, ?Eh2; done).
    rewrite Ew2, Eh2, Hc2. fold num. unfold third_phase_ranks.
    rewrite length_seqZ. lia. }
  exists es1, es2, es3. cbv zeta.
  rewrite first_phase_unroll by (unfold BatchSize; lia). fold N0. rewrite R1.
  cbn [fst snd].
  rewrite second_phase_unroll by (unfold BatchSize; lia).
  cbn [noise_texture sequence_buffer copy_texture fst snd].
  rewrite R2. cbn [fst snd].
  rewrite third_phase_unroll by (unfold BatchSize; lia).
  cbn [noise_texture sequence_buffer copy_texture fst snd].
  rewrite R3. cbn [fst snd].
  split. { rewrite L1. unfold first_phase_ranks. by rewrite length_fmap, length_seqZ. }
  split. { rewrite L2. unfold second_phase_ranks. by rewrite length_seqZ. }
  split. { rewrite L3. unfold third_phase_ranks. by rewrite length_seqZ. }
  split; [done|]. split; [done|]. split; [done|].
  split.
  { simpl in C1. unfold first_phase_ranks in C1.
    rewrite length_fmap, length_seqZ in C1. lia. }
  split; [done|].
  split.
  { simpl in C3. rewrite count_on_inverse in C3 by (rewrite ?Ew2, ?Eh2; done).
    rewrite Ew2, Eh2, Hc2 in C3. fold num in C3. unfold third_phase_ranks in C3.
    rewrite length_seqZ in C3. lia. }
  (* the recorded positions are all the pixels *)
  rewrite Forall_forall in F1, F2, F3.
  assert (On1 : ∀ x, x ∈ vec_xy <$> es1 →
                     in_bounds (tex_size N0) x = true ∧ is_on N0 x = true).
  { intros x (e & -> & He)%list_elem_of_fmap. destruct (F1 e He) as [Hin Hel].
    split; [done|]. by rewrite <- eligible_MAX_is_on. }
  assert (On2 : ∀ x, x ∈ vec_xy <$> es2 →
                     in_bounds (tex_size N0) x = true ∧ is_on N0 x = false).
  { intros x (e & -> & He)%list_elem_of_fmap. destruct (F2 e He) as [Hin Hel].
    split; [done|]. rewrite eligible_MIN_is_on in Hel. by apply negb_true_iff. }
  assert (On3 : ∀ x, x ∈ vec_xy <$> es3 →
                     in_bounds (tex_size N0) x = true ∧
                     (x ∉ vec_xy <$> es2) ∧ is_on N0 x = false).
  { intros x (e & -> & He)%list_elem_of_fmap. destruct (F3 e He) as [Hin Hel].
    change (tex_size (inverse_shader N2)) with (tex_size N2) in Hin.
    rewrite eligible_MAX_is_on in Hel; [|by apply binary_inverse|done].
    rewrite is_on_inverse in Hel by done. apply negb_true_iff in Hel.
    rewrite Es2 in Hin. split; [done|].
    unfold is_on, N2 in Hel. rewrite texelFetch_stores in Hel.
    2:{ apply Forall_forall. intros e' He'. by apply F2. }
    case_decide; [done|]. done. }
  split; [|by split; [exact T1|split; [exact T2|exact T3]]].
  apply submseteq_length_Permutation.
  - apply NoDup_submseteq.
    + rewrite !fmap_app. apply NoDup_app. split; [done|]. split.
      * intros x H1 [H2|H3]%elem_of_app.
        -- destruct (On1 x H1) as [_ Ha], (On2 x H2) as [_ Hb']. congruence.
        -- destruct (On1 x H1) as [_ Ha], (On3 x H3) as (_ & _ & Hb'). congruence.
      * apply NoDup_app. split; [done|]. split; [|done].
        intros x H2 H3. by destruct (On3 x H3) as (_ & Hn & _).
    + intros x. rewrite !fmap_app, !elem_of_app. intros [H|[H|H]];
        apply elem_of_all_positions.
      * by destruct (On1 x H).
      * by destruct (On2 x H).
      * by destruct (On3 x H).
  - rewrite length_fmap, !length_app, L1, L2, L3.
    unfold first_phase_ranks, second_phase_ranks, third_phase_ranks.
    rewrite length_fmap, !length_seqZ.
    apply Nat2Z.inj_le. rewrite length_all_positions by done.
    fold num. lia.
Qed.
End Phases.


(** *** The seed loop *)
Lemma seed_fold t0 c0 l :
  NoDup l → (∀ q, q ∈ l → in_bounds (tex_size t0) q = true) →
  c0 + Z.of_nat (length l) < 2 ^ 32 → 0 <= c0 →
  let r := foldl seed_pixel (t0, c0) l in
  tex_size r.1 = tex_size t0 ∧
  (∀ q, texelFetch r.1 q =
        if decide (q ∈ l) then (if is_on t0 q then f32_one else f32_zero)
        else texelFetch t0 q) ∧
  r.2 = c0 + Z.of_nat (length (List.filter (is_on t0) l)).
Proof.
  revert t0 c0. induction l as [|x l IH]; intros t0 c0 Hnd Hin Hc Hc0.
  { simpl. split; [done|]. split; [done|]. lia. }
  apply NoDup_cons in Hnd as [Hx Hnd].
  assert (Hxb : in_bounds (tex_size t0) x = true) by (apply Hin; by left).
  set (v := if is_on t0 x then f32_one else f32_zero).
  set (c1 := if is_on t0 x then u32 (c0 + 1) else c0).
  assert (Estep : seed_pixel (t0, c0) x = (imageStore t0 x v, c1)).
  { unfold seed_pixel, v, c1, is_on. simpl. by destruct (f32_lt _ _). }
  simpl in Hc.
  assert (Hc1 : c1 = c0 + (if is_on t0 x then 1 else 0)).
  { unfold c1, u32. destruct (is_on t0 x); [|lia]. rewrite Z.mod_small; lia. }
  cbn [foldl]. rewrite Estep.
  destruct (IH (imageStore t0 x v) c1 Hnd) as (Hs & Hf & Hcnt).
  { intros q Hq. rewrite tex_size_imageStore. apply Hin. by right. }
  { destruct (is_on t0 x); lia. }
  { destruct (is_on t0 x); lia. }
  split; [by rewrite Hs, tex_size_imageStore|]. split.
  - intros q. rewrite Hf.
    destruct (decide (q ∈ l)) as [Hq|Hq].
    + rewrite decide_True by (by right).
      unfold is_on. rewrite texelFetch_imageStore by done.
      rewrite decide_False; [done|]. by intros ->.
    + rewrite texelFetch_imageStore by done.
      destruct (decide (q = x)) as [->|Hne].
      * destruct (decide (x ∈ x :: l)) as [_|Hn]; [reflexivity|].
        exfalso. apply Hn. by left.
      * rewrite decide_False; [done|]. by intros [?|?]%elem_of_cons.
  - rewrite Hcnt, Hc1. simpl.
    assert (Ef : List.filter (is_on (imageStore t0 x v)) l = List.filter (is_on t0) l).
    { apply List.filter_ext_in. intros y Hy%list_elem_of_In.
      unfold is_on. rewrite texelFetch_imageStore, decide_False; [done| |done].
      by intros ->. }
    rewrite Ef. destruct (is_on t0 x); simpl; lia.
Qed.

(** The seed loop leaves a two-valued image with the on-pixels of its
    input and returns their number. *)
Lemma seed_image_spec input_image :
  0 <= tex_width input_image → 0 <= tex_height input_image →
  tex_width input_image * tex_height input_image < 2 ^ 32 →
  tex_size (seed_image input_image).1 = tex_size input_image ∧
  binary (seed_image input_image).1 ∧
  (seed_image input_image).2 = count_on (seed_image input_image).1 ∧
  count_on (seed_image input_image).1 = count_on input_image.
Proof.
  intros Hw Hh Hov. unfold seed_image.
  destruct (seed_fold input_image 0
              (all_positions (tex_width input_image) (tex_height input_image)))
    as (Hs & Hf & Hc).
  { apply NoDup_all_positions. }
  { intros q Hq. by apply elem_of_all_positions. }
  { rewrite length_all_positions by done. lia. }
  { done. }
  set (r := foldl seed_pixel (input_image, 0) _) in *.
  assert (Hon : ∀ q, in_bounds (tex_size input_image) q = true →
                     is_on r.1 q = is_on input_image q).
  { intros q Hq. unfold is_on at 1. rewrite Hf, decide_True.
    - by destruct (is_on input_image q).
    - by apply elem_of_all_positions. }
  assert (Hcnt : count_on r.1 = count_on input_image).
  { unfold count_on. unfold tex_size in Hs. injection Hs as -> ->. f_equal. f_equal.
    clear -Hon.
    assert (H : ∀ l, (∀ q, q ∈ l → in_bounds (tex_size input_image) q = true) →
                     List.filter (is_on r.1) l = List.filter (is_on input_image) l).
    { intros l Hl. apply List.filter_ext_in. intros y Hy%list_elem_of_In. auto. }
    apply H. intros q Hq. by apply elem_of_all_positions. }
  split; [done|]. split.
  - intros q Hq. rewrite Hs in Hq. rewrite Hf, decide_True.
    + destruct (is_on input_image q); auto.
    + by apply elem_of_all_positions.
  - split; [|done]. rewrite Hc, Hcnt. unfold count_on. lia.
Qed.


Section FullPattern.
Variable forward_transform : texture2D → option ctexture.
Variable backward_transform : ctexture → option texture2D.
Variable convolution_texture : ctexture.
Variables PW PH : Z.
Hypothesis Henergy :
  energy_ok forward_transform backward_transform convolution_texture PW PH.
Hypothesis HPW : 1 <= PW ∧ PW mod SampleGroupSize = 0.
Hypothesis HPH : 1 <= PH ∧ PH mod SampleGroupSize = 0.

(** One pair on a pattern without any off pixel: the void step finds
    nothing to fill and rewrites an on pixel, the cluster step then
    clears one, so the pattern loses a pixel. *)
Lemma initial_pair_full g :
  binary (noise_texture g) →
  fits PW (tex_width (noise_texture g)) → fits PH (tex_height (noise_texture g)) →
  count_on (noise_texture g)
    = tex_width (noise_texture g) * tex_height (noise_texture g) →
  let g' := initial_pair forward_transform backward_transform
              convolution_texture (PW, PH) g in
  binary (noise_texture g') ∧
  tex_size (noise_texture g') = tex_size (noise_texture g) ∧
  count_on (noise_texture g') = count_on (noise_texture g) - 1.
Proof.
  intros Hb Hw Hh Hc. set (t := noise_texture g) in *.
  assert (Hw0 : 0 <= tex_width t) by by eapply fits_nonneg.
  assert (Hh0 : 0 <= tex_height t) by by eapply fits_nonneg.
  pose proof (eligible_count_none MIN_SAMPLE_SHADER t Hb Hw0 Hh0
                ltac:(simpl; lia)) as Hnone.
  pose proof (dispatch_kernel_none forward_transform backward_transform
                convolution_texture PW PH Henergy HPW HPH t Hb Hw Hh
                (sequence_buffer g) MIN_SAMPLE_SHADER f32_one Maxu32 Hnone) as E1.
  cbv zeta in E1.
  set (p0 := update_position (PW, PH) (tex_size t) (0, 0)) in *.
  assert (Hp0 : in_bounds (tex_size t) p0 = true).
  { apply (upscaled_position_in_bounds PW PH t Hw Hh). apply in_bounds_spec. lia. }
  set (t1 := imageStore t p0 f32_one) in *.
  assert (Et1 : tex_size t1 = tex_size t) by apply tex_size_imageStore.
  assert (Ew1 : tex_width t1 = tex_width t) by (unfold tex_size in Et1; by injection Et1).
  assert (Eh1 : tex_height t1 = tex_height t) by (unfold tex_size in Et1; by injection Et1).
  assert (Hb1 : binary t1) by (apply binary_imageStore; auto).
  assert (Hon0 : is_on t p0 = true).
  { specialize (Hnone p0 Hp0). rewrite eligible_MIN_is_on in Hnone.
    by apply negb_false_iff. }
  assert (Hc1 : count_on t1 = count_on t).
  { pose proof (count_on_imageStore t p0 f32_one Hp0) as H. rewrite Hon0 in H.
    change (f32_lt f32_half f32_one) with true in H. cbv iota in H. fold t1 in H. lia. }
  assert (Hpos : 0 < count_on t1).
  { rewrite Hc1, Hc. destruct Hw as [? _], Hh as [? _]. nia. }
  destruct (eligible_count_pos MAX_SAMPLE_SHADER t1 Hb1) as (q1 & Hq1 & Hel1);
    [by rewrite Ew1|by rewrite Eh1|done|].
  destruct (dispatch_kernel_step forward_transform backward_transform
              convolution_texture PW PH Henergy HPW HPH t1 Hb1
              ltac:(by rewrite Ew1) ltac:(by rewrite Eh1)
              (sequence_buffer g) MAX_SAMPLE_SHADER f32_zero Maxu32)
    as (q & w2 & Hq & Hqel & E2); [by exists q1|].
  rewrite eligible_MAX_is_on in Hqel by done.
  assert (Eg : initial_pair forward_transform backward_transform
                 convolution_texture (PW, PH) g
               = Generator (imageStore t1 q f32_zero) (copy_texture g)
                           (sequence_buffer g)).
  { unfold initial_pair, step_noise. fold t. rewrite E1.
    cbn [noise_texture sequence_buffer copy_texture]. fold t1.
    change (if Maxu32 =? Maxu32 then sequence_buffer g else _)
      with (sequence_buffer g).
    by rewrite E2. }
  cbv zeta. rewrite Eg. cbn [noise_texture].
  split; [apply binary_imageStore; auto|].
  split; [by rewrite tex_size_imageStore|].
  pose proof (count_on_imageStore t1 q f32_zero Hq) as H. rewrite Hqel in H.
  change (f32_lt f32_half f32_zero) with false in H. cbv iota in H. lia.
Qed.

(** Hence a seed without any off pixel comes out of the initial
    sequence one pixel short. *)
Lemma initial_iter_full n g :
  binary (noise_texture g) →
  fits PW (tex_width (noise_texture g)) → fits PH (tex_height (noise_texture g)) →
  count_on (noise_texture g)
    = tex_width (noise_texture g) * tex_height (noise_texture g) →
  count_on (noise_texture
              (Nat.iter (S n) (initial_pair forward_transform backward_transform
                                 convolution_texture (PW, PH)) g))
  = count_on (noise_texture g) - 1.
Proof.
  intros Hb Hw Hh Hc. rewrite Nat.iter_succ_r.
  destruct (initial_pair_full g Hb Hw Hh Hc) as (Hb1 & Hs1 & Hc1).
  set (g1 := initial_pair _ _ _ _ g) in *.
  assert (Ew : tex_width (noise_texture g1) = tex_width (noise_texture g))
    by (unfold tex_size in Hs1; by injection Hs1).
  assert (Eh : tex_height (noise_texture g1) = tex_height (noise_texture g))
    by (unfold tex_size in Hs1; by injection Hs1).
  destruct (initial_iter_count forward_transform backward_transform
              convolution_texture PW PH Henergy HPW HPH n g1 Hb1) as (_ & _ & Hcn).
  - by rewrite Ew. - by rewrite Eh. - rewrite Ew, Eh, Hc1. lia.
  - by rewrite Hcn.
Qed.
End FullPattern.

(** ** The extremal search *)

Section SearchClaims.
Variables (k : sample_kernel) (T E : texture2D).
Hypothesis HW : 1 <= tex_width T ∧ tex_width T mod SampleGroupSize = 0.
Hypothesis HH : 1 <= tex_height T ∧ tex_height T mod SampleGroupSize = 0.

Lemma origin_in_bounds : in_bounds (tex_size T) (0, 0) = true.
Proof. unfold tex_size. apply in_bounds_spec. lia. Qed.

Lemma bounded_weights_not_nan :
  (∀ p, in_bounds (tex_size T) p = true → f32_bounded (texelFetch E p)) →
  ∀ p, in_bounds (tex_size T) p = true → f32_is_nan (pixel_weight k T E p) = false.
Proof. intros Hbd p Hp. apply sample_weight_not_nan. auto. Qed.

(** With bounded energies the winner is always an in-bounds pixel
    carrying its own weight, and no pixel weighs more. *)
Lemma extremal_search_max :
  (∀ p, in_bounds (tex_size T) p = true → f32_bounded (texelFetch E p)) →
  ∃ p, in_bounds (tex_size T) p = true ∧
       extremal_search k T E !! 0%nat = Some (lane_to_ivec4 (pixel_lane k T E p)) ∧
       ∀ q, in_bounds (tex_size T) q = true →
            f32_lt (pixel_weight k T E p) (pixel_weight k T E q) = false.
Proof.
  intros Hbd.
  destruct (search_spec SampleGroupSize PositionGroupSize k T E
              ltac:(done) ltac:(done) HW HH (bounded_weights_not_nan Hbd))
    as (r & Es & Hin & Hs & Hmax).
  destruct Hin as [->|(p & Hp & ->)];
    [|exists p; split; [exact Hp|split; [exact Es|exact Hmax]]].
  exists (0, 0). split; [apply origin_in_bounds|].
  assert (Hall : ∀ q, in_bounds (tex_size T) q = true →
                      pixel_weight k T E q = f32_neg1e9).
  { intros q Hq. unfold pixel_weight. rewrite sample_weight_eligible.
    destruct (eligible k (texelFetch T q)) eqn:Eel; [|done].
    specialize (Hmax q Hq). simpl in Hmax.
    pose proof (sample_weight_above k (texelFetch T q) (texelFetch E q)
                  (Hbd q Hq) Eel) as Hab.
    unfold pixel_weight in Hmax. congruence. }
  split.
  - unfold extremal_search. cbv zeta. rewrite Es. unfold pixel_lane.
    fold (pixel_weight k T E (0, 0)). rewrite (Hall _ origin_in_bounds).
    reflexivity.
  - intros q Hq. rewrite (Hall _ origin_in_bounds), (Hall q Hq). apply f32_lt_irrefl.
Qed.

Lemma sequential_scan_max :
  (∀ p, in_bounds (tex_size T) p = true → f32_is_nan (pixel_weight k T E p) = false) →
  ∃ p, in_bounds (tex_size T) p = true ∧
       sequential_scan k T E = pixel_lane k T E p ∧
       ∀ q, in_bounds (tex_size T) q = true →
            f32_lt (pixel_weight k T E p) (pixel_weight k T E q) = false.
Proof.
  intros Hnan. unfold sequential_scan.
  assert (Hgen : ∀ l, (∀ q, q ∈ l → in_bounds (tex_size T) q = true) →
    ∃ p, in_bounds (tex_size T) p = true ∧
         foldl (fun (acc : lane) p =>
                  let w := pixel_weight k T E p in
                  if f32_lt acc.2 w then (p, w) else acc)
               (pixel_lane k T E (0, 0)) l = pixel_lane k T E p ∧
         ∀ q, q ∈ l → f32_lt (pixel_weight k T E p) (pixel_weight k T E q) = false).
  { induction l as [|x l IH] using rev_ind; intros Hl.
    - exists (0, 0). split; [apply origin_in_bounds|]. split; [done|].
      intros q Hq. by apply elem_of_nil in Hq.
    - destruct IH as (p & Hp & Ep & Hmax).
      { intros q Hq. apply Hl. apply elem_of_app. by left. }
      assert (Hx : in_bounds (tex_size T) x = true).
      { apply Hl. apply elem_of_app. right. by left. }
      rewrite foldl_app, Ep. simpl.
      fold (pixel_weight k T E p).
      destruct (f32_lt (pixel_weight k T E p) (pixel_weight k T E x)) eqn:Elt.
      + exists x. split; [done|]. split; [done|].
        intros q [Hq|Hq]%elem_of_app.
        * eapply f32_le_lt_trans; [|exact Elt]. by apply Hmax.
        * apply list_elem_of_singleton in Hq as ->. apply f32_lt_irrefl.
      + exists p. split; [done|]. split; [done|].
        intros q [Hq|Hq]%elem_of_app; [by apply Hmax|].
        by apply list_elem_of_singleton in Hq as ->. }
  destruct (Hgen (all_positions (tex_width T) (tex_height T))) as (p & Hp & Ep & Hmax).
  { intros q Hq. by apply elem_of_all_positions. }
  exists p. split; [done|]. split; [done|].
  intros q Hq. apply Hmax. by apply elem_of_all_positions.
Qed.
End SearchClaims.

(** C2 (amended).  With bounded energies and at least one eligible pixel,
    the search with kernel [k] selects an eligible pixel that maximises the
    kernel's metric over the eligible pixels: MAX_SAMPLE_SHADER, the kernel
    of the cluster steps, takes the arg-max of +energy over the pixels that
    are on; MIN_SAMPLE_SHADER, the kernel of the void steps, takes the
    arg-max of -energy over the pixels that are off.  In particular no
    ineligible pixel wins. *)
Theorem search_policy (k : sample_kernel) (T E : texture2D) :
  1 <= tex_width T ∧ tex_width T mod SampleGroupSize = 0 →
  1 <= tex_height T ∧ tex_height T mod SampleGroupSize = 0 →
  (∀ p, in_bounds (tex_size T) p = true → f32_bounded (texelFetch E p)) →
  (∃ q, in_bounds (tex_size T) q = true ∧ eligible k (texelFetch T q) = true) →
  search_selects k (eligible k) (metric k) T E.
Proof.
  intros HW HH Hbd (q & Hq & Hel).
  destruct (search_eligible SampleGroupSize PositionGroupSize k T E
              ltac:(done) ltac:(done) HW HH
              (bounded_weights_not_nan k T E Hbd) q Hq
              (sample_weight_above k _ _ (Hbd q Hq) Hel))
    as (p & Hp & Es & Hab & Hmax).
  assert (Help : eligible k (texelFetch T p) = true)
    by (eapply sample_weight_above_inv; exact Hab).
  exists p, (pixel_weight k T E p). split; [exact Es|]. split; [exact Hp|].
  split; [exact Help|].
  intros q' Hq' Hel'. specialize (Hmax q' Hq'). unfold pixel_weight in Hmax.
  rewrite !sample_weight_eligible, Help, Hel' in Hmax. by destruct k.
Qed.

Lemma search_policy_witness :
  search_selects MAX_SAMPLE_SHADER (eligible MAX_SAMPLE_SHADER)
    (metric MAX_SAMPLE_SHADER)
    (pattern_of [(3, 2); (40, 50)]) (field_of (3, 2) (40, 50) f32_one f32_half).
Proof.
  apply search_policy.
  - split; [simpl; lia|reflexivity].
  - split; [simpl; lia|reflexivity].
  - intros p Hp. unfold texelFetch, tex_size in *. simpl in *. rewrite Hp.
    repeat case_bool_decide; split; reflexivity.
  - exists (3, 2). split; reflexivity.
Defined.

(** C2 as stated fails.  On a pattern with the on-pixels (3,2) of energy 1
    and (40,50) of energy 0.5, no kernel returns the on-pixel of maximal
    -energy: the kernel of the cluster steps returns (3,2), the on-pixel of
    maximal +energy.  With the energies 1 at (10,10) and 0.5 at (40,50) no
    kernel returns the off-pixel of maximal +energy either: the kernel of
    the void steps returns (0,0), an off-pixel of maximal -energy. *)
Lemma search_policy_as_claimed_fails :
  (∀ k, ¬ search_selects k (eligible MAX_SAMPLE_SHADER) f32_neg
            (pattern_of [(3, 2); (40, 50)])
            (field_of (3, 2) (40, 50) f32_one f32_half)) ∧
  (∀ k, ¬ search_selects k (eligible MIN_SAMPLE_SHADER) (fun e => e)
            (pattern_of [(3, 2); (40, 50)])
            (field_of (10, 10) (40, 50) f32_one f32_half)).
Proof.
  split; intros k (p & w & Hs & Hin & Hsel & Hmax).
  - destruct k.
    + assert (E0 : extremal_search MIN_SAMPLE_SHADER (pattern_of [(3, 2); (40, 50)])
                     (field_of (3, 2) (40, 50) f32_one f32_half) !! 0%nat
                   = Some (IVec4 0 0 (S754_zero true) 0)) by (vm_compute; reflexivity).
      rewrite E0 in Hs. clear E0. destruct p as [x y]. simpl in Hs.
      injection Hs as <- <- _.
      vm_compute in Hsel. discriminate.
    + assert (E0 : extremal_search MAX_SAMPLE_SHADER (pattern_of [(3, 2); (40, 50)])
                     (field_of (3, 2) (40, 50) f32_one f32_half) !! 0%nat
                   = Some (IVec4 3 2 f32_one 0)) by (vm_compute; reflexivity).
      rewrite E0 in Hs. clear E0. destruct p as [x y]. simpl in Hs.
      injection Hs as <- <- _.
      specialize (Hmax (40, 50) eq_refl eq_refl). vm_compute in Hmax. discriminate.
  - destruct k.
    + assert (E0 : extremal_search MIN_SAMPLE_SHADER (pattern_of [(3, 2); (40, 50)])
                     (field_of (10, 10) (40, 50) f32_one f32_half) !! 0%nat
                   = Some (IVec4 0 0 (S754_zero true) 0)) by (vm_compute; reflexivity).
      rewrite E0 in Hs. clear E0. destruct p as [x y]. simpl in Hs.
      injection Hs as <- <- _.
      specialize (Hmax (10, 10) eq_refl eq_refl). vm_compute in Hmax. discriminate.
    + assert (E0 : extremal_search MAX_SAMPLE_SHADER (pattern_of [(3, 2); (40, 50)])
                     (field_of (10, 10) (40, 50) f32_one f32_half) !! 0%nat
                   = Some (IVec4 40 50 f32_half 0)) by (vm_compute; reflexivity).
      rewrite E0 in Hs. clear E0. destruct p as [x y]. simpl in Hs.
      injection Hs as <- <- _.
      vm_compute in Hsel. discriminate.
Qed.

(** C6 (amended).  With bounded energies the two-stage search returns one
    in-bounds pixel together with its own weight; no pixel weighs more, and
    this weight compares equal to the one a row-by-row sequential scan
    returns (neither is less than the other).  The position agrees with the
    scan as well whenever the maximum is attained at a single pixel; ties
    are broken by the order of tiles and lanes, not by rows. *)
Theorem search_refines_scan (k : sample_kernel) (T E : texture2D) :
  1 <= tex_width T ∧ tex_width T mod SampleGroupSize = 0 →
  1 <= tex_height T ∧ tex_height T mod SampleGroupSize = 0 →
  (∀ p, in_bounds (tex_size T) p = true → f32_bounded (texelFetch E p)) →
  ∃ p,
    in_bounds (tex_size T) p = true ∧
    extremal_search k T E !! 0%nat = Some (lane_to_ivec4 (pixel_lane k T E p)) ∧
    (∀ q, in_bounds (tex_size T) q = true →
          f32_lt (pixel_weight k T E p) (pixel_weight k T E q) = false) ∧
    f32_lt (pixel_weight k T E p) (sequential_scan k T E).2 = false ∧
    f32_lt (sequential_scan k T E).2 (pixel_weight k T E p) = false ∧
    ((∀ q, in_bounds (tex_size T) q = true → q ≠ p →
           f32_lt (pixel_weight k T E q) (pixel_weight k T E p) = true) →
     extremal_search k T E !! 0%nat = Some (lane_to_ivec4 (sequential_scan k T E))).
Proof.
  intros HW HH Hbd.
  destruct (extremal_search_max k T E HW HH Hbd) as (p & Hp & Es & Hmax).
  destruct (sequential_scan_max k T E HW HH) as (p' & Hp' & Ep' & Hmax').
  { by apply bounded_weights_not_nan. }
  exists p. split; [exact Hp|]. split; [exact Es|]. split; [exact Hmax|].
  rewrite Ep'. unfold pixel_lane at 1 2. cbn [snd]. fold (pixel_weight k T E p').
  split; [by apply Hmax|]. split; [by apply Hmax'|].
  intros Huniq. destruct (decide (p' = p)) as [->|Hne]; [exact Es|].
  specialize (Huniq p' Hp' Hne). rewrite (Hmax' p Hp) in Huniq. discriminate.
Qed.

Lemma search_refines_scan_witness :
  ∃ p,
    in_bounds (64, 64) p = true ∧
    extremal_search MAX_SAMPLE_SHADER (pattern_of [(3, 2); (40, 50)])
      (field_of (3, 2) (40, 50) f32_one f32_half) !! 0%nat
    = Some (lane_to_ivec4
              (pixel_lane MAX_SAMPLE_SHADER (pattern_of [(3, 2); (40, 50)])
                 (field_of (3, 2) (40, 50) f32_one f32_half) p)).
Proof.
  destruct (search_refines_scan MAX_SAMPLE_SHADER (pattern_of [(3, 2); (40, 50)])
              (field_of (3, 2) (40, 50) f32_one f32_half))
    as (p & Hp & Es & _).
  - split; [simpl; lia|reflexivity].
  - split; [simpl; lia|reflexivity].
  - intros p Hp. unfold texelFetch, tex_size in *. simpl in *. rewrite Hp.
    repeat case_bool_decide; split; reflexivity.
  - exists p. split; [exact Hp|exact Es].
Defined.

(** C6 as stated fails.  With the on-pixels (16,0) and (0,1) and a zero
    energy field both weigh the same; the two-stage search returns (0,1),
    the candidate of the first tile, the row-by-row scan returns (16,0). *)
Lemma search_differs_from_scan_on_ties :
  extremal_search MAX_SAMPLE_SHADER (pattern_of [(16, 0); (0, 1)])
    (field_of (0, 0) (0, 0) f32_zero f32_zero) !! 0%nat
  ≠ Some (lane_to_ivec4
            (sequential_scan MAX_SAMPLE_SHADER (pattern_of [(16, 0); (0, 1)])
               (field_of (0, 0) (0, 0) f32_zero f32_zero))).
Proof. vm_compute. discriminate. Qed.




(** ** The size remap *)

(** C8 (amended).  Both shaders compute the same remap, axis by axis:
    [p' = ((p < offset ? p + logicalSize : p) - offset) % logicalSize] with
    [offset = (paddedSize - logicalSize) / 2]; the modulus is the logical
    size.  When the offset does not exceed the logical size, the operand of
    [%] is never negative and every position of the padded image is sent
    into the logical image; every logical position [q] is the image of the
    padded position [q + offset].  The condition is needed: the operand is
    non-negative at every padded position exactly when the offset does
    not exceed the logical size. *)
Theorem remap_is_shared_and_in_range (padded logical : ivec2) (x y : Z) :
  fits padded.1 logical.1 → fits padded.2 logical.2 →
  in_bounds padded (x, y) = true →
  upscale_position padded logical (x, y) = update_position padded logical (x, y) ∧
  update_position padded logical (x, y)
    = (remap_axis padded.1 logical.1 x, remap_axis padded.2 logical.2 y) ∧
  (let offset := (padded.1 - logical.1) / 2 in
   0 <= (if x <? offset then x + logical.1 else x) - offset ∧
   remap_axis padded.1 logical.1 x
     = ((if x <? offset then x + logical.1 else x) - offset) mod logical.1) ∧
  (let offset := (padded.2 - logical.2) / 2 in
   0 <= (if y <? offset then y + logical.2 else y) - offset ∧
   remap_axis padded.2 logical.2 y
     = ((if y <? offset then y + logical.2 else y) - offset) mod logical.2) ∧
  in_bounds logical (update_position padded logical (x, y)) = true ∧
  (∀ q, in_bounds logical q = true →
        in_bounds padded (q.1 + (padded.1 - logical.1) / 2,
                          q.2 + (padded.2 - logical.2) / 2) = true ∧
        update_position padded logical
          (q.1 + (padded.1 - logical.1) / 2, q.2 + (padded.2 - logical.2) / 2) = q) ∧
  (∀ P L, 1 <= L <= P →
     (∀ p, 0 <= p < P →
           0 <= (if p <? (P - L) / 2 then p + L else p) - (P - L) / 2)
     ↔ fits P L).
Proof.
  destruct padded as [PW PH], logical as [LW LH]. simpl.
  intros Hw Hh Hin. apply in_bounds_spec in Hin as [Hx Hy].
  split; [done|]. split; [done|].
  assert (Eq : ∀ P L, fits P L → (P - L) ÷ 2 = (P - L) / 2).
  { intros P L [HL _]. apply Z.quot_div_nonneg; lia. }
  assert (Hax : ∀ P L p, fits P L → 0 <= p < P →
            0 <= (if p <? (P - L) / 2 then p + L else p) - (P - L) / 2 ∧
            remap_axis P L p
            = ((if p <? (P - L) / 2 then p + L else p) - (P - L) / 2) mod L).
  { intros P L p Hf Hp. unfold remap_axis. rewrite (Eq _ _ Hf).
    destruct Hf as [HL Ho]. rewrite Z.quot_div_nonneg in Ho by lia.
    assert (0 <= (P - L) / 2) by (apply Z.div_pos; lia).
    assert (0 <= (if p <? (P - L) / 2 then p + L else p) - (P - L) / 2)
      by (destruct (Z.ltb_spec p ((P - L) / 2)); lia).
    split; [done|]. apply Z.rem_mod_nonneg; lia. }
  split; [by apply Hax|]. split; [by apply Hax|].
  split.
  { rewrite update_position_axes. apply in_bounds_spec. simpl.
    split; apply remap_axis_in_range; done. }
  split.
  { intros [qx qy] Hq. apply in_bounds_spec in Hq as [Hqx Hqy]. simpl.
    rewrite <- (Eq _ _ Hw), <- (Eq _ _ Hh).
    destruct (remap_axis_lift PW LW qx Hw Hqx) as [Bx Ex].
    destruct (remap_axis_lift PH LH qy Hh Hqy) as [By Ey].
    split; [apply in_bounds_spec; lia|].
    rewrite update_position_axes. simpl. by rewrite Ex, Ey. }
  intros P L HL. split.
  - intros Hop. split; [done|]. rewrite Z.quot_div_nonneg by lia.
    specialize (Hop 0 ltac:(lia)).
    destruct (Z.ltb_spec 0 ((P - L) / 2)); lia.
  - intros Hf p Hp. by apply Hax.
Qed.

Lemma remap_is_shared_and_in_range_witness :
  update_position (128, 128) (100, 100) (120, 0) = (6, 86).
Proof.
  destruct (remap_is_shared_and_in_range (128, 128) (100, 100) 120 0)
    as (_ & E & _).
  - unfold fits. repeat split; apply Z.leb_le; reflexivity.
  - unfold fits. repeat split; apply Z.leb_le; reflexivity.
  - reflexivity.
  - rewrite E. reflexivity.
Defined.

(** C8 as stated fails.  For a 100-wide image in a 128-wide padded texture
    the shaders send the padded position 120 to 6 and the padded position 0
    to 86, whereas [(p - offset) mod paddedSize] gives 106 and 114, which
    are not even positions of the logical image. *)
Lemma remap_modulus_is_not_padded_size :
  update_position (128, 128) (100, 100) (120, 0) = (6, 86) ∧
  upscale_position (128, 128) (100, 100) (120, 0) = (6, 86) ∧
  (remap_as_specified 128 100 120, remap_as_specified 128 100 0) = (106, 114).
Proof. repeat split. Qed.

(** ** The phase driver *)

Lemma flat_energy_ok : energy_ok flat_forward flat_backward flat_spectrum 64 64.
Proof.
  intros U Hs Hb. eexists _, _. split; [reflexivity|]. split; [reflexivity|].
  intros p _. unfold texelFetch.
  match goal with |- context [if ?c then _ else _] => destruct c end;
    split; reflexivity.
Qed.

Lemma binary_pattern_of on : binary (pattern_of on).
Proof.
  intros p Hp. unfold texelFetch. rewrite Hp. simpl.
  case_bool_decide; auto.
Qed.

Lemma fits_64 : fits 64 64.
Proof. unfold fits. repeat split; apply Z.leb_le; reflexivity. Qed.

Lemma padded_64 : 1 <= 64 ∧ 64 mod SampleGroupSize = 0.
Proof. split; [lia|reflexivity]. Qed.

(** C5 (amended).  Conditions: the padded sides are positive multiples
    of 16; the sides of the seed image are not below their centring
    offsets [(padded - side) / 2]; both transforms succeed and every
    energy lies strictly between [-1e9] and [1e9]; the pixel count plus
    [BatchSize] is within 32 bits.  For every such seed image with [P]
    on-pixels, [P] below the pixel count, the pattern has exactly [P]
    on-pixels after any number of pairs of the tightening loop, in
    particular after the [P] pairs the loop performs: each pair turns one
    off pixel on and then one on pixel off. *)
Theorem initial_sequence_conserves_count
    (forward_transform : texture2D → option ctexture)
    (backward_transform : ctexture → option texture2D)
    (convolution_texture : ctexture) (PW PH : Z)
    (input_image copy : texture2D) (sb : list ivec4) :
  energy_ok forward_transform backward_transform convolution_texture PW PH →
  1 <= PW ∧ PW mod SampleGroupSize = 0 →
  1 <= PH ∧ PH mod SampleGroupSize = 0 →
  fits PW (tex_width input_image) → fits PH (tex_height input_image) →
  tex_width input_image * tex_height input_image + BatchSize <= 2 ^ 32 →
  let noise := (seed_image input_image).1 in
  let P := (seed_image input_image).2 in
  let g := Generator noise copy sb in
  P < tex_width input_image * tex_height input_image →
  P = count_on input_image ∧
  (∀ n, count_on (noise_texture
                    (Nat.iter n (initial_pair forward_transform backward_transform
                                   convolution_texture (PW, PH)) g)) = P) ∧
  (∀ n,
     let g' := Nat.iter n (initial_pair forward_transform backward_transform
                             convolution_texture (PW, PH)) g in
     ∃ p q,
       in_bounds (tex_size (noise_texture g')) p = true ∧
       is_on (noise_texture g') p = false ∧
       in_bounds (tex_size (noise_texture g')) q = true ∧
       is_on (imageStore (noise_texture g') p f32_one) q = true ∧
       noise_texture (initial_pair forward_transform backward_transform
                        convolution_texture (PW, PH) g')
       = imageStore (imageStore (noise_texture g') p f32_one) q f32_zero) ∧
  initial_sequence forward_transform backward_transform convolution_texture
                   (PW, PH) P g
  = Nat.iter (Z.to_nat P)
      (initial_pair forward_transform backward_transform convolution_texture
                    (PW, PH)) g ∧
  count_on (noise_texture
              (initial_sequence forward_transform backward_transform
                                convolution_texture (PW, PH) P g)) = P.
Proof.
  intros Henergy HPW HPH Hw Hh Hov noise P g HP.
  unfold BatchSize in Hov.
  destruct (seed_image_spec input_image) as (Hs & Hb & HPc & Hci);
    [by eapply fits_nonneg|by eapply fits_nonneg|lia|].
  fold noise in Hs, Hb, HPc, Hci. fold P in HPc.
  assert (Ew : tex_width noise = tex_width input_image)
    by (unfold tex_size in Hs; by injection Hs).
  assert (Eh : tex_height noise = tex_height input_image)
    by (unfold tex_size in Hs; by injection Hs).
  assert (Hiter : ∀ n, count_on (noise_texture
             (Nat.iter n (initial_pair forward_transform backward_transform
                            convolution_texture (PW, PH)) g)) = P).
  { intros n.
    destruct (initial_iter_count forward_transform backward_transform
                convolution_texture PW PH Henergy HPW HPH n g) as (_ & _ & Hc).
    - exact Hb.
    - cbn [noise_texture g]. by rewrite Ew.
    - cbn [noise_texture g]. by rewrite Eh.
    - cbn [noise_texture g]. rewrite Ew, Eh, <- HPc. exact HP.
    - rewrite Hc. cbn [noise_texture g]. by rewrite <- HPc. }
  assert (HP0 : 0 <= P).
  { rewrite HPc. unfold count_on. lia. }
  split; [by rewrite HPc, Hci|]. split; [exact Hiter|].
  split.
  { intros n g'.
    destruct (initial_iter_count forward_transform backward_transform
                convolution_texture PW PH Henergy HPW HPH n g)
      as (Hb' & Hs' & Hc').
    - exact Hb.
    - cbn [noise_texture g]. by rewrite Ew.
    - cbn [noise_texture g]. by rewrite Eh.
    - cbn [noise_texture g]. rewrite Ew, Eh, <- HPc. exact HP.
    - fold g' in Hb', Hs', Hc'. cbn [noise_texture g] in Hs', Hc'.
      assert (Ew' : tex_width (noise_texture g') = tex_width input_image).
      { unfold tex_size in Hs'. rewrite <- Ew. by injection Hs'. }
      assert (Eh' : tex_height (noise_texture g') = tex_height input_image).
      { unfold tex_size in Hs'. rewrite <- Eh. by injection Hs'. }
      destruct (initial_pair_spec forward_transform backward_transform
                  convolution_texture PW PH Henergy HPW HPH g' Hb')
        as (p & q & Hp & Hoff & Hq & Hon & E1 & E2 & _).
      + by rewrite Ew'.
      + by rewrite Eh'.
      + rewrite Ew', Eh', Hc', <- HPc. exact HP.
      + exists p, q. rewrite E2. cbn [noise_texture]. repeat split; assumption. }
  rewrite initial_sequence_unroll by (unfold BatchSize; lia).
  split; [reflexivity|apply Hiter].
Qed.

Lemma initial_sequence_conserves_count_witness :
  count_on (noise_texture
              (initial_sequence flat_forward flat_backward flat_spectrum (64, 64)
                 (seed_image (pattern_of [(5, 7)])).2
                 (Generator (seed_image (pattern_of [(5, 7)])).1
                            (pattern_of []) [])))
  = (seed_image (pattern_of [(5, 7)])).2.
Proof.
  refine (proj2 (proj2 (proj2 (proj2 (initial_sequence_conserves_count
    flat_forward flat_backward flat_spectrum 64 64 (pattern_of [(5, 7)])
    (pattern_of []) [] flat_energy_ok padded_64 padded_64 fits_64 fits_64 _ _))))).
  - vm_compute. discriminate.
  - vm_compute. reflexivity.
Defined.

(** C5 as stated fails.  A 64 x 64 seed with all 4096 pixels on comes out
    of the 4096 pairs of the tightening loop with 4095 on-pixels: the
    first void step finds no off pixel, stores at the image of (0, 0),
    which is on already, and the cluster step that follows clears a
    pixel. *)
Lemma full_seed_loses_a_pixel :
  (seed_image (Texture 64 64 (fun _ _ => f32_one))).2 = 4096 ∧
  count_on (noise_texture
              (initial_sequence flat_forward flat_backward flat_spectrum (64, 64)
                 4096
                 (generator_of (seed_image (Texture 64 64 (fun _ _ => f32_one))).1)))
  = 4095.
Proof.
  split; [vm_compute; reflexivity|].
  rewrite initial_sequence_unroll by (unfold BatchSize; lia).
  change (Z.to_nat 4096) with (S (Z.to_nat 4095)).
  destruct (seed_image_spec (Texture 64 64 (fun _ _ => f32_one)))
    as (Hs & Hb & _ & Hci); [simpl; lia..|].
  assert (Hc0 : count_on (Texture 64 64 (fun _ _ => f32_one)) = 4096)
    by (vm_compute; reflexivity).
  rewrite Hc0 in Hci. clear Hc0.
  remember (seed_image (Texture 64 64 (fun _ _ => f32_one))).1 as noise eqn:Hn.
  clear Hn. rename Hci into Hc.
  assert (Ew : tex_width noise = 64) by (unfold tex_size in Hs; by injection Hs).
  assert (Eh : tex_height noise = 64) by (unfold tex_size in Hs; by injection Hs).
  rewrite (initial_iter_full flat_forward flat_backward flat_spectrum 64 64
             flat_energy_ok padded_64 padded_64).
  - cbn [noise_texture generator_of]. rewrite Hc. reflexivity.
  - exact Hb.
  - cbn [noise_texture generator_of]. rewrite Ew. exact fits_64.
  - cbn [noise_texture generator_of]. rewrite Eh. exact fits_64.
  - cbn [noise_texture generator_of]. rewrite Ew, Eh, Hc. reflexivity.
Qed.

(** C3 (amended).  Conditions: the padded sides are positive multiples
    of 16; the sides of the pattern are not below their centring offsets
    [(padded - side) / 2]; the pattern is two-valued and has an off
    pixel; both transforms succeed and every energy lies strictly between
    [-1e9] and [1e9]; [P + BatchSize] is within 32 bits.  The tightening
    loop then runs exactly [P] pairs whatever the pattern looks like, and
    never records a rank.  Each pair first runs the void search
    (MIN_SAMPLE_SHADER) and turns the pixel it finds, an off pixel [p],
    on; it then runs the cluster search (MAX_SAMPLE_SHADER) on the result
    and turns the pixel it finds, an on pixel [q], off. *)
Theorem initial_sequence_structure
    (forward_transform : texture2D → option ctexture)
    (backward_transform : ctexture → option texture2D)
    (convolution_texture : ctexture) (PW PH : Z) (P : Z) (g : generator) :
  energy_ok forward_transform backward_transform convolution_texture PW PH →
  1 <= PW ∧ PW mod SampleGroupSize = 0 →
  1 <= PH ∧ PH mod SampleGroupSize = 0 →
  binary (noise_texture g) →
  fits PW (tex_width (noise_texture g)) → fits PH (tex_height (noise_texture g)) →
  count_on (noise_texture g)
    < tex_width (noise_texture g) * tex_height (noise_texture g) →
  0 <= P → P + BatchSize <= 2 ^ 32 →
  initial_sequence forward_transform backward_transform convolution_texture
                   (PW, PH) P g
  = Nat.iter (Z.to_nat P)
      (initial_pair forward_transform backward_transform convolution_texture
                    (PW, PH)) g ∧
  sequence_buffer
    (initial_sequence forward_transform backward_transform convolution_texture
                      (PW, PH) P g) = sequence_buffer g ∧
  ∀ n,
    let g' := Nat.iter n (initial_pair forward_transform backward_transform
                            convolution_texture (PW, PH)) g in
    ∃ p q,
      in_bounds (tex_size (noise_texture g')) p = true ∧
      is_on (noise_texture g') p = false ∧
      step_noise forward_transform backward_transform convolution_texture (PW, PH)
                 MIN_SAMPLE_SHADER f32_one Maxu32 g'
        = Generator (imageStore (noise_texture g') p f32_one)
                    (copy_texture g') (sequence_buffer g') ∧
      in_bounds (tex_size (noise_texture g')) q = true ∧
      is_on (imageStore (noise_texture g') p f32_one) q = true ∧
      initial_pair forward_transform backward_transform convolution_texture
                   (PW, PH) g'
        = Generator (imageStore (imageStore (noise_texture g') p f32_one) q f32_zero)
                    (copy_texture g') (sequence_buffer g').
Proof.
  intros Henergy HPW HPH Hb Hw Hh Hc HP Hov.
  split; [by apply initial_sequence_unroll|]. split.
  { rewrite initial_sequence_unroll by done. apply initial_iter_no_record. }
  intros n g'.
  destruct (initial_iter_count forward_transform backward_transform
              convolution_texture PW PH Henergy HPW HPH n g Hb Hw Hh Hc)
    as (Hb' & Hs' & Hc').
  fold g' in Hb', Hs', Hc'.
  assert (Ew : tex_width (noise_texture g') = tex_width (noise_texture g))
    by (unfold tex_size in Hs'; by injection Hs').
  assert (Eh : tex_height (noise_texture g') = tex_height (noise_texture g))
    by (unfold tex_size in Hs'; by injection Hs').
  destruct (initial_pair_spec forward_transform backward_transform
              convolution_texture PW PH Henergy HPW HPH g' Hb')
    as (p & q & Hp & Hoff & Hq & Hon & E1 & E2 & _).
  - by rewrite Ew. - by rewrite Eh. - by rewrite Ew, Eh, Hc'.
  - exists p, q. repeat split; assumption.
Qed.

Lemma initial_sequence_structure_witness :
  sequence_buffer
    (initial_sequence flat_forward flat_backward flat_spectrum (64, 64) 1
                      (generator_of (pattern_of [(5, 7)])))
  = sequence_buffer (generator_of (pattern_of [(5, 7)])).
Proof.
  refine (proj1 (proj2 (initial_sequence_structure
    flat_forward flat_backward flat_spectrum 64 64 1
    (generator_of (pattern_of [(5, 7)]))
    flat_energy_ok padded_64 padded_64 (binary_pattern_of _) fits_64 fits_64 _ _ _))).
  - vm_compute. reflexivity.
  - lia.
  - vm_compute. discriminate.
Defined.

(** C3 as stated fails.  On a pattern whose only on-pixel is (5, 7) the
    first step of a pair leaves two on-pixels: it has turned a pixel on,
    not off.  And the pair ends with (5, 7) on, whereas the order
    cluster-off then void-on ends with (5, 7) off. *)
Lemma initial_pair_order_differs :
  count_on (noise_texture (generator_of (pattern_of [(5, 7)]))) = 1 ∧
  count_on (noise_texture
              (step_noise flat_forward flat_backward flat_spectrum (64, 64)
                 MIN_SAMPLE_SHADER f32_one Maxu32
                 (generator_of (pattern_of [(5, 7)])))) = 2 ∧
  is_on (noise_texture
           (initial_pair flat_forward flat_backward flat_spectrum (64, 64)
              (generator_of (pattern_of [(5, 7)])))) (5, 7) = true ∧
  is_on (noise_texture
           (pair_as_specified flat_forward flat_backward flat_spectrum (64, 64)
              (generator_of (pattern_of [(5, 7)])))) (5, 7) = false.
Proof. vm_compute. repeat split. Qed.

(** C4 (amended).  Conditions: the padded sides are positive multiples
    of 16; the sides of the pattern are not below their centring offsets
    [(padded - side) / 2]; the pattern is two-valued with [P] on-pixels,
    [P] not above half the pixel count; both transforms succeed and every
    energy lies strictly between [-1e9] and [1e9]; the pixel count plus
    [BatchSize] is within 32 bits.  The first phase works on a copy: after
    its [P] steps the copy has no on-pixel, while [noise_texture] is
    untouched and still has [P] on-pixels.  The second phase steps on
    [noise_texture], not on the pattern the first phase produced, leaves
    the copy alone, and ends with exactly pixelCount / 2 on-pixels. *)
Theorem second_phase_pattern
    (forward_transform : texture2D → option ctexture)
    (backward_transform : ctexture → option texture2D)
    (convolution_texture : ctexture) (PW PH : Z) (g : generator) (P : Z) :
  energy_ok forward_transform backward_transform convolution_texture PW PH →
  1 <= PW ∧ PW mod SampleGroupSize = 0 →
  1 <= PH ∧ PH mod SampleGroupSize = 0 →
  let w := tex_width (noise_texture g) in
  let h := tex_height (noise_texture g) in
  let num := w * h in
  let half := num / 2 in
  binary (noise_texture g) → fits PW w → fits PH h →
  count_on (noise_texture g) = P → P <= half → num + BatchSize <= 2 ^ 32 →
  let g1 := first_phase forward_transform backward_transform convolution_texture
                        (PW, PH) P g in
  let g2 := second_phase forward_transform backward_transform convolution_texture
                         (PW, PH) P half g1 in
  count_on (copy_texture g1) = 0 ∧
  noise_texture g1 = noise_texture g ∧
  count_on (noise_texture g1) = P ∧
  noise_texture g2
    = (greedy_run forward_transform backward_transform convolution_texture (PW, PH)
         MIN_SAMPLE_SHADER f32_one (second_phase_ranks P half)
         (noise_texture g1, sequence_buffer g1)).1 ∧
  copy_texture g2 = copy_texture g1 ∧
  count_on (noise_texture g2) = half.
Proof.
  intros Henergy HPW HPH w h num half Hb Hw Hh HP Hhalf Hov g1 g2.
  destruct (layer_phases_spec forward_transform backward_transform
              convolution_texture PW PH Henergy HPW HPH g P Hb Hw Hh HP Hhalf Hov)
    as (es1 & es2 & es3 & _ & _ & _ & E1 & E2 & _ & C1 & C2 & _).
  fold w h num half g1 in E1, E2, C1, C2. fold g2 in E2, C2.
  assert (HP0 : 0 <= P) by (rewrite <- HP; unfold count_on; lia).
  assert (Hhn : half <= num).
  { unfold half. apply Z.div_le_upper_bound; [lia|].
    assert (0 <= num); [|lia]. unfold num.
    destruct Hw as [? _], Hh as [? _]. nia. }
  split; [exact C1|]. split; [by rewrite E1|]. split; [by rewrite E1|].
  split.
  { unfold g2. rewrite second_phase_unroll by (unfold BatchSize in *; lia).
    reflexivity. }
  split; [by rewrite E2|exact C2].
Qed.

Lemma second_phase_pattern_witness :
  count_on (copy_texture
              (first_phase flat_forward flat_backward flat_spectrum (64, 64) 1
                           (generator_of (pattern_of [(5, 7)])))) = 0.
Proof.
  refine (proj1 (second_phase_pattern flat_forward flat_backward flat_spectrum
    64 64 (generator_of (pattern_of [(5, 7)])) 1
    flat_energy_ok padded_64 padded_64 (binary_pattern_of _) fits_64 fits_64 _ _ _)).
  - vm_compute. reflexivity.
  - vm_compute. discriminate.
  - vm_compute. discriminate.
Defined.

(** C4 as stated fails.  Seed: the single on-pixel (5, 7).  After the
    tightening loop and the first phase the copy holds no on-pixel, but
    the texture the second phase steps on, [noise_texture], holds one: the
    second phase does not work on the pattern the first phase produced. *)
Lemma second_phase_input_is_not_first_phase_output :
  let g1 :=
    first_phase flat_forward flat_backward flat_spectrum (64, 64) 1
      (initial_sequence flat_forward flat_backward flat_spectrum (64, 64) 1
         (generator_of (pattern_of [(5, 7)]))) in
  count_on (copy_texture g1) = 0 ∧
  count_on (noise_texture g1) = 1 ∧
  noise_texture
    (second_phase flat_forward flat_backward flat_spectrum (64, 64) 1 2048 g1)
  = (greedy_run flat_forward flat_backward flat_spectrum (64, 64)
       MIN_SAMPLE_SHADER f32_one (second_phase_ranks 1 2048)
       (noise_texture g1, sequence_buffer g1)).1.
Proof.
  cbv zeta. split; [vm_compute; reflexivity|]. split; [vm_compute; reflexivity|].
  rewrite second_phase_unroll by (unfold BatchSize; lia). reflexivity.
Qed.

(** C1 (amended).  For a two-valued pattern with [P] on-pixels, [P] not
    above half the pixel count, on an image whose sides are not below
    their centring offsets, with transforms that succeed and energies
    strictly between [-1e9] and [1e9], the pixel count plus [BatchSize]
    within 32 bits and one buffer slot per pixel.  Each phase is the run
    of [dispatch_kernel] steps with the indices of its rank list, in the
    order of the list: [P-1, ..., 0] for the first phase, [P, ..., half-1]
    for the second, [half, ..., num-1] for the third.  After the first [n]
    steps of a phase the pixels changed are the first [n] entries of its
    list of positions, recorded at the first [n] ranks of its rank list:
    the pixel the first phase removes in step [j] gets the rank [P-1-j].
    Together the ranks are [0, ..., num-1], each once; the positions
    recorded are the pixels of the image, each once; and at the end slot
    [r] of the sequence buffer holds the position recorded with rank
    [r]. *)
Theorem layer_rank_bijection
    (forward_transform : texture2D → option ctexture)
    (backward_transform : ctexture → option texture2D)
    (convolution_texture : ctexture) (PW PH : Z) (g : generator) (P : Z) :
  energy_ok forward_transform backward_transform convolution_texture PW PH →
  1 <= PW ∧ PW mod SampleGroupSize = 0 →
  1 <= PH ∧ PH mod SampleGroupSize = 0 →
  let w := tex_width (noise_texture g) in
  let h := tex_height (noise_texture g) in
  let num := w * h in
  let half := num / 2 in
  binary (noise_texture g) → fits PW w → fits PH h →
  count_on (noise_texture g) = P → P <= half → num + BatchSize <= 2 ^ 32 →
  num <= Z.of_nat (length (sequence_buffer g)) →
  let run := greedy_run forward_transform backward_transform convolution_texture
                        (PW, PH) in
  let g1 := first_phase forward_transform backward_transform convolution_texture
                        (PW, PH) P g in
  let g2 := second_phase forward_transform backward_transform convolution_texture
                         (PW, PH) P half g1 in
  let g3 := third_phase forward_transform backward_transform convolution_texture
                        (PW, PH) half num g2 in
  let ranks := first_phase_ranks P ++ second_phase_ranks P half
                 ++ third_phase_ranks half num in
  first_phase_ranks P = reverse (seqZ 0 P) ∧
  second_phase_ranks P half = seqZ P (half - P) ∧
  third_phase_ranks half num = seqZ half (num - half) ∧
  ranks ≡ₚ seqZ 0 num ∧
  g3 = layer_phases forward_transform backward_transform convolution_texture
                    (PW, PH) P half num g ∧
  (copy_texture g1, sequence_buffer g1)
    = run MAX_SAMPLE_SHADER f32_zero (first_phase_ranks P)
          (noise_texture g, sequence_buffer g) ∧
  (noise_texture g2, sequence_buffer g2)
    = run MIN_SAMPLE_SHADER f32_one (second_phase_ranks P half)
          (noise_texture g1, sequence_buffer g1) ∧
  (copy_texture g3, sequence_buffer g3)
    = run MAX_SAMPLE_SHADER f32_zero (third_phase_ranks half num)
          (inverse_shader (noise_texture g2), sequence_buffer g2) ∧
  ∃ es1 es2 es3,
    (∀ n, run MAX_SAMPLE_SHADER f32_zero (take n (first_phase_ranks P))
              (noise_texture g, sequence_buffer g)
          = (stores f32_zero (noise_texture g) (take n es1),
             records (sequence_buffer g) (take n (first_phase_ranks P))
                     (take n es1))) ∧
    (∀ n, run MIN_SAMPLE_SHADER f32_one (take n (second_phase_ranks P half))
              (noise_texture g1, sequence_buffer g1)
          = (stores f32_one (noise_texture g1) (take n es2),
             records (sequence_buffer g1) (take n (second_phase_ranks P half))
                     (take n es2))) ∧
    (∀ n, run MAX_SAMPLE_SHADER f32_zero (take n (third_phase_ranks half num))
              (inverse_shader (noise_texture g2), sequence_buffer g2)
          = (stores f32_zero (inverse_shader (noise_texture g2)) (take n es3),
             records (sequence_buffer g2) (take n (third_phase_ranks half num))
                     (take n es3))) ∧
    sequence_buffer g1 = records (sequence_buffer g) (first_phase_ranks P) es1 ∧
    sequence_buffer g2 = records (sequence_buffer g1) (second_phase_ranks P half) es2 ∧
    sequence_buffer g3 = records (sequence_buffer g2) (third_phase_ranks half num) es3 ∧
    length es1 = length (first_phase_ranks P) ∧
    length es2 = length (second_phase_ranks P half) ∧
    length es3 = length (third_phase_ranks half num) ∧
    vec_xy <$> (es1 ++ es2 ++ es3) ≡ₚ all_positions w h ∧
    ∀ (j : nat) r e,
      ranks !! j = Some r → (es1 ++ es2 ++ es3) !! j = Some e →
      sequence_buffer g3 !! Z.to_nat r = Some e.
Proof.
  intros Henergy HPW HPH w h num half Hb Hw Hh HP Hhalf Hov Hsb run g1 g2 g3 ranks.
  destruct (layer_phases_spec forward_transform backward_transform
              convolution_texture PW PH Henergy HPW HPH g P Hb Hw Hh HP Hhalf Hov)
    as (es1 & es2 & es3 & L1 & L2 & L3 & E1 & E2 & E3 & _ & _ & _ & Hperm
        & T1 & T2 & T3).
  fold w h num half g1 in L1, L2, L3, E1, E2, E3, Hperm, T1, T2, T3.
  fold g2 in E2, E3, T3. fold g3 in E3. fold run in T1, T2, T3.
  assert (HP0 : 0 <= P) by (rewrite <- HP; unfold count_on; lia).
  assert (Hnum : 0 <= num).
  { unfold num. destruct Hw as [? _], Hh as [? _]. nia. }
  assert (Hhn : 0 <= half <= num).
  { unfold half. split; [apply Z.div_pos; lia|]. apply Z.div_le_upper_bound; lia. }
  unfold BatchSize in Hov.
  assert (Hranks : ranks ≡ₚ seqZ 0 num) by (apply phase_ranks_permutation; lia).
  assert (Hl1 : length es1 = length (first_phase_ranks P)).
  { rewrite L1. unfold first_phase_ranks. by rewrite length_fmap, length_seqZ. }
  assert (Hl2 : length es2 = length (second_phase_ranks P half)).
  { rewrite L2. unfold second_phase_ranks. by rewrite length_seqZ. }
  assert (Hl3 : length es3 = length (third_phase_ranks half num)).
  { rewrite L3. unfold third_phase_ranks. by rewrite length_seqZ. }
  assert (N1 : noise_texture g1 = noise_texture g) by by rewrite E1.
  split; [apply first_phase_ranks_reverse; lia|].
  split; [reflexivity|]. split; [reflexivity|]. split; [exact Hranks|].
  split; [reflexivity|].
  split.
  { unfold g1, run. rewrite first_phase_unroll by (unfold BatchSize; lia).
    cbn [copy_texture sequence_buffer]. by destruct (greedy_run _ _ _ _ _ _ _ _). }
  split.
  { unfold g2, run. rewrite second_phase_unroll by (unfold BatchSize; lia).
    cbn [noise_texture sequence_buffer]. by destruct (greedy_run _ _ _ _ _ _ _ _). }
  split.
  { unfold g3, run. rewrite third_phase_unroll by (unfold BatchSize; lia).
    cbn [copy_texture sequence_buffer]. by destruct (greedy_run _ _ _ _ _ _ _ _). }
  exists es1, es2, es3.
  assert (S1 : sequence_buffer g1
               = records (sequence_buffer g) (first_phase_ranks P) es1)
    by by rewrite E1.
  assert (S2 : sequence_buffer g2
               = records (sequence_buffer g1) (second_phase_ranks P half) es2)
    by by rewrite E2.
  assert (S3 : sequence_buffer g3
               = records (sequence_buffer g2) (third_phase_ranks half num) es3)
    by by rewrite E3.
  split; [exact T1|]. split; [by rewrite N1|]. split; [exact T3|].
  split; [exact S1|]. split; [exact S2|]. split; [exact S3|].
  split; [exact Hl1|]. split; [exact Hl2|]. split; [exact Hl3|].
  split; [exact Hperm|].
  intros j r e Hr He.
  rewrite S3, S2, S1, <- !records_app by done.
  eapply lookup_records; [| |exact Hr|exact He].
  - fold ranks. rewrite Hranks. apply NoDup_seqZ.
  - intros i Hi. fold ranks in Hi. rewrite Hranks in Hi.
    apply elem_of_seqZ in Hi. unfold Maxu32. lia.
Qed.

Lemma layer_rank_bijection_witness :
  first_phase_ranks 1 ++ second_phase_ranks 1 2048 ++ third_phase_ranks 2048 4096
  ≡ₚ seqZ 0 4096.
Proof.
  refine (proj1 (proj2 (proj2 (proj2 (layer_rank_bijection
    flat_forward flat_backward flat_spectrum 64 64
    (generator_of (pattern_of [(5, 7)])) 1
    flat_energy_ok padded_64 padded_64 (binary_pattern_of _) fits_64 fits_64
    _ _ _ _))))).
  - vm_compute. reflexivity.
  - vm_compute. discriminate.
  - vm_compute. discriminate.
  - vm_compute. discriminate.
Defined.

(** C1 as stated fails.  A 64 x 64 seed whose 47 leftmost columns are on
    has P = 3008 on-pixels, more than half of 4096.  The first phase then
    passes the ranks 3007, ..., 0 to [dispatch_kernel], the third phase
    the ranks 2048, ..., 4095: rank 2048 is assigned twice, in two
    different phases. *)
Lemma ranks_overlap_beyond_half :
  let seed := Texture 64 64 (fun x _ => if x <? 47 then f32_one else f32_zero) in
  let P := (seed_image seed).2 in
  let g := generator_of (seed_image seed).1 in
  P = 3008 ∧
  first_phase flat_forward flat_backward flat_spectrum (64, 64) P g
  = Generator (noise_texture g)
      (greedy_run flat_forward flat_backward flat_spectrum (64, 64)
         MAX_SAMPLE_SHADER f32_zero (first_phase_ranks P)
         (noise_texture g, sequence_buffer g)).1
      (greedy_run flat_forward flat_backward flat_spectrum (64, 64)
         MAX_SAMPLE_SHADER f32_zero (first_phase_ranks P)
         (noise_texture g, sequence_buffer g)).2 ∧
  2048 ∈ first_phase_ranks P ∧
  2048 ∈ third_phase_ranks (4096 / 2) 4096 ∧
  ¬ NoDup (first_phase_ranks P ++ second_phase_ranks P (4096 / 2)
             ++ third_phase_ranks (4096 / 2) 4096).
Proof.
  cbv zeta.
  assert (EP : (seed_image
                  (Texture 64 64 (fun x _ => if x <? 47 then f32_one else f32_zero))).2
               = 3008) by (vm_compute; reflexivity).
  rewrite EP. clear EP.
  assert (H1 : 2048 ∈ first_phase_ranks 3008).
  { unfold first_phase_ranks. apply list_elem_of_fmap. exists 959.
    split; [reflexivity|]. apply elem_of_seqZ. lia. }
  assert (H3 : 2048 ∈ third_phase_ranks (4096 / 2) 4096).
  { unfold third_phase_ranks. apply elem_of_seqZ. change (4096 / 2) with 2048. lia. }
  split; [reflexivity|].
  split; [apply first_phase_unroll; unfold BatchSize; lia|].
  split; [exact H1|]. split; [exact H3|].
  intros Hnd. apply NoDup_app in Hnd as (_ & Hdisj & _).
  apply (Hdisj 2048 H1). apply elem_of_app. by right.
Qed.

(** ** Configuration errors *)

Lemma dispatch_accepts
    (device : resource → bool)
    (forward_transform : texture2D → option ctexture)
    (backward_transform : ctexture → option texture2D)
    (kernel_spectrum : f32 → f32 → Z → Z → option ctexture)
    (sb : list ivec4) (image : texture2D) (layers : Z) (sigma epsilon : f32) :
  1 <= tex_width image → 1 <= tex_height image → 1 <= layers →
  (∀ r, device r = true) →
  is_Some (kernel_spectrum sigma epsilon
             (Z.max (npot (tex_width image)) MinSize)
             (Z.max (npot (tex_height image)) MinSize)) →
  let d := dispatch device forward_transform backward_transform kernel_spectrum
                    sb image layers sigma epsilon in
  generation_started d = true ∧ NoiseTexture ∈ created d ∧
  (division_by_zero d = false → is_Some (noise_image d)) ∧
  (division_by_zero d = true →
   progress_pixels (seed_image image).2
                   (u32 (tex_width image * tex_height image)) layers = 0).
Proof.
  intros Hw Hh Hl Hdev [c Hc]. unfold dispatch. cbv zeta.
  destruct (Z.ltb_spec (tex_width image) 1); [lia|].
  destruct (Z.ltb_spec (tex_height image) 1); [lia|].
  destruct (Z.ltb_spec layers 1); [lia|].
  cbn [orb]. rewrite !Hdev. cbn [negb andb]. rewrite Hc.
  destruct (negb _ && false) eqn:E.
  { by rewrite andb_false_r in E. }
  destruct (Z.eqb_spec
              (progress_pixels (seed_image image).2
                 (u32 (tex_width image * tex_height image)) layers) 0)
    as [Hz|Hz]; cbn [andb].
  - destruct (_ || _);
      cbn [generation_started created noise_image division_by_zero].
    + split; [done|]. split; [left|]. split; [done|]. done.
    + split; [done|]. split; [left|]. split; [by eexists|]. done.
  - cbn [generation_started created noise_image division_by_zero].
    split; [done|]. split; [left|]. split; [by eexists|]. done.
Qed.

(** C9 (amended).  [dispatch] rejects a call exactly when the image has no
    pixel in one direction or no layer is requested: it then returns the
    null image before any device resource is created and without
    entering the greedy loops.  An image smaller than the minimum working
    size of 64 is not a configuration error: it is accepted and padded,
    the resources are created and the greedy loops are entered; an image
    is returned unless the call ends in the division by a
    [progress_pixels] that has wrapped to zero. *)
Theorem dispatch_rejects_empty_input
    (device : resource → bool)
    (forward_transform : texture2D → option ctexture)
    (backward_transform : ctexture → option texture2D)
    (kernel_spectrum : f32 → f32 → Z → Z → option ctexture)
    (sb : list ivec4) (image : texture2D) (layers : Z) (sigma epsilon : f32) :
  let d := dispatch device forward_transform backward_transform kernel_spectrum
                    sb image layers sigma epsilon in
  (tex_width image < 1 ∨ tex_height image < 1 ∨ layers < 1 →
   d = DispatchResult None [] false false) ∧
  (1 <= tex_width image → 1 <= tex_height image → 1 <= layers →
   (∀ r, device r = true) →
   is_Some (kernel_spectrum sigma epsilon
              (Z.max (npot (tex_width image)) MinSize)
              (Z.max (npot (tex_height image)) MinSize)) →
   generation_started d = true ∧ NoiseTexture ∈ created d ∧
   (division_by_zero d = false → is_Some (noise_image d)) ∧
   (division_by_zero d = true →
    progress_pixels (seed_image image).2
                    (u32 (tex_width image * tex_height image)) layers = 0)).
Proof.
  cbv zeta. split.
  - intros H. unfold dispatch. cbv zeta.
    destruct (Z.ltb_spec (tex_width image) 1); [done|].
    destruct (Z.ltb_spec (tex_height image) 1); [done|].
    destruct (Z.ltb_spec layers 1); [done|]. lia.
  - apply dispatch_accepts.
Qed.

(** C9 as stated fails.  A 32 x 32 image is smaller than the minimum
    working size of 64; with one layer and a device on which every
    creation succeeds, [dispatch] does not return the null image: it
    creates its resources, runs the generation and returns an image. *)
Lemma small_image_is_accepted :
  let d := dispatch (fun _ => true) flat_forward flat_backward
                    (fun _ _ _ _ => Some flat_spectrum) []
                    (Texture 32 32 (fun _ _ => f32_zero)) 1 f32_one f32_zero in
  tex_width (Texture 32 32 (fun _ _ => f32_zero)) < MinSize ∧
  noise_image d ≠ None ∧ generation_started d = true ∧ created d ≠ [] ∧
  division_by_zero d = false.
Proof.
  cbv zeta.
  destruct (dispatch_accepts (fun _ => true) flat_forward flat_backward
              (fun _ _ _ _ => Some flat_spectrum) []
              (Texture 32 32 (fun _ _ => f32_zero)) 1 f32_one f32_zero)
    as (Hst & Hcr & Himg & Hdz); [simpl; lia|simpl; lia|lia|done|by eexists|].
  assert (Hz : division_by_zero
                 (dispatch (fun _ => true) flat_forward flat_backward
                    (fun _ _ _ _ => Some flat_spectrum) []
                    (Texture 32 32 (fun _ _ => f32_zero)) 1 f32_one f32_zero)
               = false).
  { destruct (division_by_zero _); [|done].
    specialize (Hdz eq_refl). vm_compute in Hdz. discriminate. }
  split; [reflexivity|]. split.
  { destruct (Himg Hz) as [img E]. by rewrite E. }
  split; [exact Hst|]. split; [|exact Hz].
  intros E. rewrite E in Hcr. by apply elem_of_nil in Hcr.
Qed.

Lemma dispatch_rejects_empty_input_witness :
  dispatch (fun _ => true) flat_forward flat_backward
           (fun _ _ _ _ => Some flat_spectrum) []
           (Texture 64 64 (fun _ _ => f32_zero)) 0 f32_one f32_zero
  = DispatchResult None [] false false.
Proof.
  apply (proj1 (dispatch_rejects_empty_input (fun _ => true) flat_forward
    flat_backward (fun _ _ _ _ => Some flat_spectrum) []
    (Texture 64 64 (fun _ _ => f32_zero)) 0 f32_one f32_zero)).
  right. right. lia.
Defined.

(** * Further properties *)

(** ** The shared-memory reduction *)

Section FirstMaximum.
Variables (N : Z) (l : list lane).
Hypothesis Hlen : Z.of_nat (length l) = N.
Hypothesis Hnan : Forall (λ x : lane, f32_is_nan x.2 = false) l.

Lemma reduce_first_inv_init : reduce_first_inv N l 1 l.
Proof.
  split; [done|]. intros j Hj Hlt.
  destruct (lookup_lt_is_Some_2 l (Z.to_nat (1 * j))) as [r Hr]; [lia|].
  exists r. split; [done|]. exists (1 * j). split; [lia|]. split; [done|]. split.
  - intros i x Hi Hx. assert (i = 1 * j) as -> by lia.
    rewrite Hr in Hx. injection Hx as <-. apply f32_lt_irrefl.
  - intros i x Hi. lia.
Qed.

Lemma lane_not_nan i x : l !! i = Some x → f32_is_nan x.2 = false.
Proof.
  intros Hx. rewrite Forall_forall in Hnan. apply Hnan.
  eapply list_elem_of_lookup_2; eauto.
Qed.

Lemma block_first_merged lo mid hi r1 r2 :
  lo <= mid <= hi →
  block_first l lo mid r1 → block_first l mid hi r2 →
  block_first l lo hi (merged r1 r2).
Proof.
  intros Hm (i1 & Hi1 & E1 & B1 & F1) (i2 & Hi2 & E2 & B2 & F2).
  pose proof (lane_not_nan _ _ E2) as Hn2.
  unfold merged. destruct (f32_lt r1.2 r2.2) eqn:E.
  - exists i2. split; [lia|]. split; [done|]. split.
    + intros i x Hi Hx. destruct (Z.lt_ge_cases i mid).
      * eapply f32_le_lt_trans; [|exact E]. eapply B1; [|done]. lia.
      * eapply B2; [|done]. lia.
    + intros j x Hj Hx. destruct (Z.lt_ge_cases j mid).
      * pose proof (lane_not_nan _ _ Hx) as Hnx.
        destruct (f32_lt_cotrans _ _ _ Hnx E) as [C|C]; [|done].
        rewrite (B1 j x) in C; [done|lia|done].
      * eapply F2; [|done]. lia.
  - exists i1. split; [lia|]. split; [done|]. split.
    + intros i x Hi Hx. destruct (Z.lt_ge_cases i mid).
      * eapply B1; [|done]. lia.
      * eapply f32_le_le_trans; [exact Hn2| |exact E]. eapply B2; [|done]. lia.
    + intros j x Hj Hx. eapply F1; [|done]. lia.
Qed.

Lemma reduce_first_inv_round s sh :
  1 <= s → reduce_first_inv N l s sh →
  reduce_first_inv N l (s * 2) (reduce_round N s sh).
Proof.
  intros Hs [HlenS Hinv]. split.
  { by rewrite (reduce_round_length N s sh Hs HlenS). }
  intros j Hj Hlt.
  replace (s * 2 * j) with (s * (j * 2)) in * by lia.
  destruct (Hinv (j * 2)) as (r1 & E1 & M1); [lia|lia|].
  destruct (Z.lt_ge_cases (s * (j * 2) + s) N) as [Hc|Hc].
  - destruct (Hinv (j * 2 + 1)) as (r2 & E2 & M2); [lia|lia|].
    replace (s * (j * 2 + 1)) with (s * (j * 2) + s) in * by lia.
    exists (merged r1 r2). split.
    + by apply reduce_round_merged.
    + apply block_first_merged with (mid := s * (j * 2) + s); [lia| |].
      * by replace (Z.min (s * (j * 2) + s) N) with (s * (j * 2) + s) in M1 by lia.
      * by replace (Z.min (s * (j * 2) + s + s) N)
          with (Z.min (s * (j * 2) + s * 2) N) in M2 by lia.
  - exists r1. split.
    + rewrite reduce_round_kept; [done..|lia].
    + by replace (Z.min (s * (j * 2) + s * 2) N)
        with (Z.min (s * (j * 2) + s) N) by lia.
Qed.

Lemma reduce_loop_first fuel s sh :
  1 <= s → N <= Z.of_nat fuel + s → 1 <= N → reduce_first_inv N l s sh →
  ∃ r, reduce_loop fuel N s sh !! 0%nat = Some r ∧ block_first l 0 N r.
Proof.
  revert s sh. induction fuel as [|fuel IH]; intros s sh Hs Hf HN Hinv; simpl.
  - destruct Hinv as [_ Hinv]. destruct (Hinv 0) as (r & E & M); [lia|lia|].
    rewrite Z.mul_0_r in *. exists r. split; [done|].
    by replace (Z.min (0 + s) N) with N in M by lia.
  - destruct (Z.ltb_spec s N).
    + apply IH; [lia|lia|done|]. by apply reduce_first_inv_round.
    + destruct Hinv as [_ Hinv]. destruct (Hinv 0) as (r & E & M); [lia|lia|].
      rewrite Z.mul_0_r in *. exists r. split; [done|].
      by replace (Z.min (0 + s) N) with N in M by lia.
Qed.

Lemma reduce_loop_length fuel : ∀ s sh,
  1 <= s → Z.of_nat (length sh) = N →
  length (reduce_loop fuel N s sh) = length sh.
Proof.
  induction fuel as [|fuel IH]; intros s sh Hs Hl; simpl; [done|].
  destruct (Z.ltb_spec s N); [|done].
  rewrite IH; [|lia|].
  - by apply reduce_round_length.
  - by rewrite (reduce_round_length N s sh Hs Hl).
Qed.

End FirstMaximum.

(** The reduction leaves in slot 0 the first lane of maximal weight. *)
Lemma tree_reduce_first (N : Z) (l : list lane) :
  Z.of_nat (length l) = N → 1 <= N →
  Forall (λ x : lane, f32_is_nan x.2 = false) l →
  ∃ (i : nat) (r : lane),
    l !! i = Some r ∧
    tree_reduce N l !! 0%nat = Some r ∧
    (∀ (j : nat) x, l !! j = Some x → f32_lt r.2 x.2 = false) ∧
    (∀ (j : nat) x, (j < i)%nat → l !! j = Some x → f32_lt x.2 r.2 = true).
Proof.
  intros Hlen HN Hnan.
  destruct (reduce_loop_first N l Hnan (Z.to_nat N) 1 l)
    as (r & E & i & Hi & Ei & B & F);
    [lia|lia|done|by apply reduce_first_inv_init|].
  exists (Z.to_nat i), r. split; [done|]. split; [done|]. split.
  - intros j x Hx. apply (B (Z.of_nat j)); [|by rewrite Nat2Z.id].
    apply lookup_lt_Some in Hx. lia.
  - intros j x Hj Hx. apply (F (Z.of_nat j)); [lia|by rewrite Nat2Z.id].
Qed.

Lemma bind_singleton_fmap {A B} (g : A → B) (l : list A) :
  l ≫= (fun a => [g a]) = g <$> l.
Proof. induction l as [|a l IH]; [done|]. cbn. by rewrite <- IH. Qed.

(** Row-major indexing of a list built by two nested loops. *)
Lemma lookup_grid {A} (f : Z → Z → A) (w : Z) (n : nat) :
  0 <= w →
  Z.of_nat (length (y' ← seqZ 0 (Z.of_nat n); x' ← seqZ 0 w; [f x' y']))
  = w * Z.of_nat n ∧
  ∀ x y, 0 <= x < w → 0 <= y < Z.of_nat n →
    (y' ← seqZ 0 (Z.of_nat n); x' ← seqZ 0 w; [f x' y']) !! Z.to_nat (w * y + x)
    = Some (f x y).
Proof.
  intros Hw. induction n as [|n [IHl IH]].
  { split; [rewrite Z.mul_0_r; reflexivity|]. intros; lia. }
  rewrite seqZ_S, bind_app. cbn [mbind list_bind].
  rewrite app_nil_r, Z.add_0_l, bind_singleton_fmap.
  split.
  - rewrite length_app, length_fmap, length_seqZ. lia.
  - intros x y Hx Hy. destruct (decide (y = Z.of_nat n)) as [->|Hne].
    + rewrite lookup_app_r by lia.
      replace (Z.to_nat (w * Z.of_nat n + x) - _)%nat with (Z.to_nat x) by lia.
      rewrite list_lookup_fmap, lookup_seqZ_lt by lia. cbn. f_equal. f_equal. lia.
    + rewrite lookup_app_l by nia. apply IH; lia.
Qed.

(** X1.  The reduction loop of the sample and position shaders, run on
    [N >= 1] lanes none of which is a NaN, keeps the number of lanes and
    leaves in slot 0 the first lane of maximal weight: no lane weighs
    more, and every lane with a smaller index weighs strictly less.  [N]
    need not be a power of two. *)
Theorem tree_reduce_first_maximum (N : Z) (l : list lane) :
  Z.of_nat (length l) = N → 1 <= N →
  Forall (λ x : lane, f32_is_nan x.2 = false) l →
  length (tree_reduce N l) = length l ∧
  ∃ (i : nat) (r : lane),
    l !! i = Some r ∧
    tree_reduce N l !! 0%nat = Some r ∧
    (∀ (j : nat) x, l !! j = Some x → f32_lt r.2 x.2 = false) ∧
    (∀ (j : nat) x, (j < i)%nat → l !! j = Some x → f32_lt x.2 r.2 = true).
Proof.
  intros Hlen HN Hnan. split.
  - unfold tree_reduce. by apply reduce_loop_length.
  - by apply tree_reduce_first.
Qed.

Lemma tree_reduce_first_maximum_witness :
  ∃ (i : nat) (r : lane),
    [((0, 0), f32_zero); ((1, 0), f32_one); ((2, 0), f32_one)] !! i = Some r ∧
    tree_reduce 3 [((0, 0), f32_zero); ((1, 0), f32_one); ((2, 0), f32_one)]
      !! 0%nat = Some r.
Proof.
  destruct (tree_reduce_first_maximum 3
              [((0, 0), f32_zero); ((1, 0), f32_one); ((2, 0), f32_one)])
    as (_ & i & r & H1 & H2 & _).
  - reflexivity.
  - lia.
  - repeat constructor.
  - exists i, r. split; assumption.
Defined.

(** ** The sample shader *)

(** One candidate per tile: the first maximal pixel of the tile. *)
Lemma sample_tile_first (k : sample_kernel) (T E : texture2D) :
  0 <= tex_width T ∧ tex_width T mod SampleGroupSize = 0 →
  0 <= tex_height T ∧ tex_height T mod SampleGroupSize = 0 →
  (∀ p, in_bounds (tex_size T) p = true →
        f32_is_nan (pixel_weight k T E p) = false) →
  let num_groups := udiv (tex_width T) SampleGroupSize in
  Z.of_nat (length (sample_shader SampleGroupSize k T E))
  = num_groups * udiv (tex_height T) SampleGroupSize ∧
  ∀ gx gy, 0 <= gx < num_groups → 0 <= gy < udiv (tex_height T) SampleGroupSize →
    ∃ p,
      sample_shader SampleGroupSize k T E !! Z.to_nat (num_groups * gy + gx)
      = Some (lane_to_ivec4 (pixel_lane k T E p)) ∧
      in_tile SampleGroupSize gx gy p ∧
      (∀ q, in_tile SampleGroupSize gx gy q →
            f32_lt (pixel_weight k T E p) (pixel_weight k T E q) = false) ∧
      (∀ q, in_tile SampleGroupSize gx gy q →
            q.2 < p.2 ∨ (q.2 = p.2 ∧ q.1 < p.1) →
            f32_lt (pixel_weight k T E q) (pixel_weight k T E p) = true).
Proof.
  intros HW HH Hnan num_groups.
  assert (EW : udiv (tex_width T) SampleGroupSize = tex_width T / 16)
    by (apply udiv_exact; [done|apply HW]).
  assert (EH : udiv (tex_height T) SampleGroupSize = tex_height T / 16)
    by (apply udiv_exact; [done|apply HH]).
  assert (Hnx : 0 <= num_groups).
  { unfold num_groups. rewrite EW. apply Z.div_pos; lia. }
  assert (Hny : 0 <= udiv (tex_height T) SampleGroupSize).
  { rewrite EH. apply Z.div_pos; lia. }
  destruct (lookup_grid
              (fun gx gy => sample_group SampleGroupSize k T E (gx, gy))
              num_groups (Z.to_nat (udiv (tex_height T) SampleGroupSize)) Hnx)
    as [HL HG].
  rewrite Z2Nat.id in HL, HG by done.
  split; [exact HL|].
  intros gx gy Hgx Hgy.
  set (l := sample_init SampleGroupSize k T E (gx, gy)).
  assert (Hl : ∀ lid, 0 <= lid < 256 →
            l !! Z.to_nat lid
            = Some (pixel_lane k T E (global_id SampleGroupSize (gx, gy) lid))).
  { intros lid Hlid. unfold l, sample_init.
    change (SampleGroupSize * SampleGroupSize) with 256.
    rewrite list_lookup_fmap, lookup_seqZ_lt by lia.
    cbn [fmap option_fmap option_map]. by rewrite Z.add_0_l, Z2Nat.id by lia. }
  assert (Hlen : Z.of_nat (length l) = 256).
  { unfold l, sample_init. rewrite length_map, length_seqZ. reflexivity. }
  assert (Hln : Forall (λ x : lane, f32_is_nan x.2 = false) l).
  { apply Forall_forall. intros x Hx.
    apply list_elem_of_lookup_1 in Hx as [i Hi].
    pose proof (lookup_lt_Some _ _ _ Hi) as Hlt.
    rewrite <- (Nat2Z.id i), Hl in Hi by lia. injection Hi as <-.
    apply Hnan. apply global_id_in_bounds; [done|done|done|lia|lia|].
    change (SampleGroupSize * SampleGroupSize) with 256. lia. }
  destruct (tree_reduce_first 256 l Hlen ltac:(lia) Hln)
    as (i & r & Ei & E0 & B & F).
  pose proof (lookup_lt_Some _ _ _ Ei) as Hi.
  assert (Er : r = pixel_lane k T E (global_id SampleGroupSize (gx, gy) (Z.of_nat i))).
  { rewrite <- (Nat2Z.id i), Hl in Ei by lia. by injection Ei. }
  assert (Hq : ∀ q, in_tile SampleGroupSize gx gy q →
            let lid := (q.2 - 16 * gy) * 16 + (q.1 - 16 * gx) in
            0 <= lid < 256 ∧ global_id SampleGroupSize (gx, gy) lid = q).
  { intros [qx qy] [Hqx Hqy]. cbn [fst snd] in *.
    change SampleGroupSize with 16 in *. split; [lia|].
    unfold global_id. cbn [fst snd]. f_equal.
    - replace ((qy - 16 * gy) * 16 + (qx - 16 * gx))
        with ((qx - 16 * gx) + (qy - 16 * gy) * 16) by lia.
      rewrite Z.mod_add, Z.mod_small by lia. lia.
    - rewrite Z.div_add_l, Z.div_small by lia. lia. }
  exists (global_id SampleGroupSize (gx, gy) (Z.of_nat i)).
  split; [|split; [|split]].
  - rewrite HG by done. f_equal. unfold sample_group.
    change (SampleGroupSize * SampleGroupSize) with 256. fold l.
    rewrite E0. cbn [default]. by rewrite Er.
  - unfold in_tile, global_id. cbn [fst snd]. change SampleGroupSize with 16.
    pose proof (Z.mod_pos_bound (Z.of_nat i) 16 ltac:(lia)).
    assert (0 <= Z.of_nat i / 16 < 16).
    { split; [apply Z.div_pos; lia|apply Z.div_lt_upper_bound; lia]. }
    lia.
  - intros q Hin. destruct (Hq q Hin) as [Hlid Eq].
    specialize (B _ _ (Hl _ Hlid)). rewrite Er in B. unfold pixel_lane in B.
    cbn [snd] in B. rewrite Eq in B. exact B.
  - intros q Hin Hlt. destruct (Hq q Hin) as [Hlid Eq].
    assert (Hj : (Z.to_nat ((q.2 - 16 * gy) * 16 + (q.1 - 16 * gx)) < i)%nat).
    { destruct Hin as [Hqx Hqy]. change SampleGroupSize with 16 in *.
      unfold global_id in Hlt. cbn [fst snd] in Hlt.
      pose proof (Z.mod_pos_bound (Z.of_nat i) 16 ltac:(lia)).
      pose proof (Z.div_mod (Z.of_nat i) 16 ltac:(lia)). lia. }
    specialize (F _ _ Hj (Hl _ Hlid)). rewrite Er in F. unfold pixel_lane in F.
    cbn [snd] in F. rewrite Eq in F. exact F.
Qed.

(** X2.  On a texture whose sides are multiples of 16 and whose weights are
    no NaN, the sample shader writes one candidate per 16 x 16 tile, the
    candidate of tile [(gx, gy)] into slot [num_groups * gy + gx].  The
    candidate is a pixel of its tile that no pixel of the tile outweighs,
    and the first such pixel of the tile in row-major order. *)
Theorem sample_shader_tile_candidates (k : sample_kernel) (T E : texture2D) :
  0 <= tex_width T ∧ tex_width T mod SampleGroupSize = 0 →
  0 <= tex_height T ∧ tex_height T mod SampleGroupSize = 0 →
  (∀ p, in_bounds (tex_size T) p = true →
        f32_is_nan (pixel_weight k T E p) = false) →
  let num_groups := udiv (tex_width T) SampleGroupSize in
  Z.of_nat (length (sample_shader SampleGroupSize k T E))
  = num_groups * udiv (tex_height T) SampleGroupSize ∧
  ∀ gx gy, 0 <= gx < num_groups → 0 <= gy < udiv (tex_height T) SampleGroupSize →
    ∃ p,
      sample_shader SampleGroupSize k T E !! Z.to_nat (num_groups * gy + gx)
      = Some (lane_to_ivec4 (pixel_lane k T E p)) ∧
      in_tile SampleGroupSize gx gy p ∧
      (∀ q, in_tile SampleGroupSize gx gy q →
            f32_lt (pixel_weight k T E p) (pixel_weight k T E q) = false) ∧
      (∀ q, in_tile SampleGroupSize gx gy q →
            q.2 < p.2 ∨ (q.2 = p.2 ∧ q.1 < p.1) →
            f32_lt (pixel_weight k T E q) (pixel_weight k T E p) = true).
Proof. apply sample_tile_first. Qed.

Lemma sample_shader_tile_candidates_witness :
  Z.of_nat (length (sample_shader SampleGroupSize MAX_SAMPLE_SHADER
                      (Texture 16 16 (fun _ _ => f32_one))
                      (Texture 16 16 (fun _ _ => f32_zero)))) = 1.
Proof.
  destruct (sample_shader_tile_candidates MAX_SAMPLE_SHADER
              (Texture 16 16 (fun _ _ => f32_one))
              (Texture 16 16 (fun _ _ => f32_zero))) as [H _].
  - split; [cbn; lia|reflexivity].
  - split; [cbn; lia|reflexivity].
  - intros p Hp. unfold pixel_weight, texelFetch.
    change (tex_size (Texture 16 16 (fun _ _ => f32_one))) with (16, 16) in *.
    change (tex_size (Texture 16 16 (fun _ _ => f32_zero))) with (16, 16).
    rewrite Hp. reflexivity.
  - exact H.
Defined.

(** ** Greedy steps and phase loops *)

Lemma batched_for_fixed {S : Type} (body : Z → S → S) (s : S) :
  (∀ i, body i s = s) → ∀ fuel i stop, batched_for fuel i stop body s = s.
Proof.
  intros Hb. induction fuel as [|fuel IH]; intros i stop; [done|].
  cbn [batched_for]. destruct (i <? stop); [|done].
  cbv zeta.
  assert (F : ∀ l, foldl (fun s k => body k s) s l = s).
  { induction l as [|k l IHl]; [done|]. cbn [foldl]. by rewrite Hb. }
  rewrite F. apply IH.
Qed.

(** X3.  Conditions: the padded sides are positive multiples of 16; the
    sides of the texture are not below their centring offsets
    [(padded - side) / 2]; both transforms succeed and every energy lies
    strictly between [-1e9] and [1e9].  One greedy step as the phases
    take it (void search storing one, or cluster search storing zero) on
    a two-valued pattern that still has an eligible pixel:
    [dispatch_kernel] reports success, keeps the size of the texture,
    changes exactly one texel, an eligible one, keeps the pattern
    two-valued, and moves the on-count by one (up for a void step, down
    for a cluster step).  The sequence buffer is untouched when the index
    is [~0u]; otherwise only slot [index] changes and it receives the
    position of that texel. *)
Theorem greedy_step_changes_one_pixel
    (forward_transform : texture2D → option ctexture)
    (backward_transform : ctexture → option texture2D)
    (convolution_texture : ctexture) (PW PH : Z)
    (t : texture2D) (sb : list ivec4) (k : sample_kernel) (value : f32)
    (index : Z) :
  energy_ok forward_transform backward_transform convolution_texture PW PH →
  1 <= PW ∧ PW mod SampleGroupSize = 0 →
  1 <= PH ∧ PH mod SampleGroupSize = 0 →
  binary t → fits PW (tex_width t) → fits PH (tex_height t) →
  fills_or_clears k value → 0 < eligible_count k t →
  let r := dispatch_kernel forward_transform backward_transform
             convolution_texture (PW, PH) t sb k value index in
  ∃ p,
    in_bounds (tex_size t) p = true ∧
    eligible k (texelFetch t p) = true ∧
    r.1.1 = true ∧
    tex_size r.1.2 = tex_size t ∧
    binary r.1.2 ∧
    (∀ q, texelFetch r.1.2 q = if decide (q = p) then value else texelFetch t q) ∧
    count_on r.1.2
    = count_on t + (match k with MIN_SAMPLE_SHADER => 1 | MAX_SAMPLE_SHADER => -1 end) ∧
    length r.2 = length sb ∧
    (index = Maxu32 → r.2 = sb) ∧
    (index ≠ Maxu32 →
     (∀ n, n ≠ Z.to_nat index → r.2 !! n = sb !! n) ∧
     ((Z.to_nat index < length sb)%nat →
      vec_xy <$> r.2 !! Z.to_nat index = Some p)).
Proof.
  intros Hen HPW HPH Hbin HfW HfH Hfc Hpos r.
  pose proof (fits_nonneg _ _ HfW) as H0w.
  pose proof (fits_nonneg _ _ HfH) as H0h.
  destruct (dispatch_kernel_step forward_transform backward_transform
              convolution_texture PW PH Hen HPW HPH t Hbin HfW HfH sb k value index
              (eligible_count_pos k t Hbin H0w H0h Hpos))
    as (p & wgt & Hp & He & Hr).
  fold r in Hr. exists p. rewrite Hr. cbn [fst snd].
  assert (Hv : value = f32_zero ∨ value = f32_one).
  { destruct Hfc as [[_ ->]|[_ ->]]; auto. }
  split; [done|]. split; [done|]. split; [done|].
  split; [apply tex_size_imageStore|].
  split; [by apply binary_imageStore|].
  split; [intros q; by apply texelFetch_imageStore|].
  split.
  { pose proof (eligible_count_imageStore k value t p Hbin Hfc Hp He) as Hc.
    pose proof (tex_size_imageStore t p value) as Hs.
    unfold tex_size in Hs. injection Hs as Hs1 Hs2.
    unfold eligible_count in Hc. destruct k; [rewrite Hs1, Hs2 in Hc|]; lia. }
  split.
  { destruct (index =? Maxu32); [done|]. apply length_insert. }
  split.
  { intros ->. by rewrite Z.eqb_refl. }
  intros Hne. apply Z.eqb_neq in Hne. rewrite Hne. split.
  - intros n Hn. by rewrite list_lookup_insert_ne.
  - intros Hlt. rewrite list_lookup_insert_eq by done. cbn.
    by destruct p.
Qed.

Lemma greedy_step_changes_one_pixel_witness :
  ∃ p,
    in_bounds (64, 64) p = true ∧
    eligible MAX_SAMPLE_SHADER (texelFetch (pattern_of [(5, 7)]) p) = true.
Proof.
  destruct (greedy_step_changes_one_pixel flat_forward flat_backward flat_spectrum
              64 64 (pattern_of [(5, 7)]) [] MAX_SAMPLE_SHADER f32_zero 0)
    as (p & H1 & H2 & _).
  - exact flat_energy_ok.
  - exact padded_64.
  - exact padded_64.
  - apply binary_pattern_of.
  - exact fits_64.
  - exact fits_64.
  - right. split; reflexivity.
  - reflexivity.
  - exists p. split; assumption.
Defined.

(** X4.  When the forward or the backward transform cannot be dispatched,
    [dispatch_kernel] returns false and leaves the texture and the
    sequence buffer as they were.  The loops of [dispatch] drop that
    result: the tightening loop then returns its generator unchanged, and
    the three phases leave the pattern and the sequence buffer unchanged
    (the copy ends as the inverted pattern the third phase starts from). *)
Theorem failed_transform_is_not_propagated
    (forward_transform : texture2D → option ctexture)
    (backward_transform : ctexture → option texture2D)
    (convolution_texture : ctexture) (backward_size : ivec2) :
  (∀ t, forward_transform t = None) ∨ (∀ c, backward_transform c = None) →
  (∀ t sb k value index,
     dispatch_kernel forward_transform backward_transform convolution_texture
                     backward_size t sb k value index = (false, t, sb)) ∧
  (∀ P g,
     initial_sequence forward_transform backward_transform convolution_texture
                      backward_size P g = g) ∧
  (∀ P half num g,
     layer_phases forward_transform backward_transform convolution_texture
                  backward_size P half num g
     = Generator (noise_texture g) (inverse_shader (noise_texture g))
                 (sequence_buffer g)).
Proof.
  intros Hfail.
  assert (Hk : ∀ t sb k value index,
     dispatch_kernel forward_transform backward_transform convolution_texture
                     backward_size t sb k value index = (false, t, sb)).
  { intros t sb k value index. unfold dispatch_kernel.
    destruct Hfail as [Hf|Hb].
    - by rewrite Hf.
    - destruct (forward_transform _); [|done]. by rewrite Hb. }
  assert (Hn : ∀ k value index g,
     step_noise forward_transform backward_transform convolution_texture
                backward_size k value index g = g).
  { intros k value index [n c sb]. unfold step_noise. cbn [noise_texture
      sequence_buffer copy_texture]. by rewrite Hk. }
  assert (Hc : ∀ k value index g,
     step_copy forward_transform backward_transform convolution_texture
               backward_size k value index g = g).
  { intros k value index [n c sb]. unfold step_copy. cbn [noise_texture
      sequence_buffer copy_texture]. by rewrite Hk. }
  split; [exact Hk|]. split.
  - intros P g. unfold initial_sequence. apply batched_for_fixed.
    intros _. unfold initial_pair. by rewrite !Hn.
  - intros P half num g. unfold layer_phases, third_phase, second_phase, first_phase.
    rewrite !batched_for_fixed by (intros; first [apply Hc|apply Hn]).
    reflexivity.
Qed.

Lemma failed_transform_is_not_propagated_witness :
  dispatch_kernel (fun _ => None) flat_backward flat_spectrum (64, 64)
    (pattern_of [(5, 7)]) [] MAX_SAMPLE_SHADER f32_zero 0
  = (false, pattern_of [(5, 7)], []).
Proof.
  apply (proj1 (failed_transform_is_not_propagated (fun _ => None) flat_backward
                  flat_spectrum (64, 64) (or_introl (fun _ => eq_refl)))).
Defined.

(** X5.  The batched loop of [dispatch], which submits at most [BatchSize]
    steps per compute pass, calls its body exactly once for every index
    from [start] to [stop - 1], in ascending order, as long as
    [stop + BatchSize] fits 32 bits; for [stop <= start] the body is not
    called. *)
Theorem batched_for_is_the_plain_loop {S : Type} (body : Z → S → S)
    (fuel : nat) (start stop : Z) (s : S) :
  0 <= start → stop + BatchSize <= 2 ^ 32 → stop - start <= Z.of_nat fuel →
  batched_for fuel start stop body s
  = foldl (fun s k => body k s) s (seqZ start (stop - start)) ∧
  (stop <= start → batched_for fuel start stop body s = s).
Proof.
  intros H0 Hs Hf. rewrite batched_for_unroll by done. split; [done|].
  intros Hle. unfold seqZ. by replace (Z.to_nat (stop - start)) with 0%nat by lia.
Qed.

Lemma batched_for_is_the_plain_loop_witness :
  batched_for 1300 0 1300 (fun i l => i :: l) [] = reverse (seqZ 0 1300).
Proof.
  rewrite (proj1 (batched_for_is_the_plain_loop (fun i l => i :: l) 1300 0 1300 []
                    ltac:(lia) ltac:(reflexivity || (unfold BatchSize; lia))
                    ltac:(lia))).
  vm_compute. reflexivity.
Defined.

(** X6.  Conditions: the padded sides are positive multiples of 16; the
    sides of the pattern are not below their centring offsets
    [(padded - side) / 2]; both transforms succeed and every energy lies
    strictly between [-1e9] and [1e9]; the pixel count plus [BatchSize] is
    within 32 bits.  For a two-valued pattern with [P <= pixelCount / 2]
    on-pixels, the three phases of a layer end with a pattern of the same
    size that has exactly [pixelCount / 2] on-pixels and contains every
    on-pixel of the starting pattern; the copy the third phase works on
    ends with no on-pixel; and the sequence buffer keeps its length. *)
Theorem layer_phases_final_state
    (forward_transform : texture2D → option ctexture)
    (backward_transform : ctexture → option texture2D)
    (convolution_texture : ctexture) (PW PH : Z) (g : generator) (P : Z) :
  energy_ok forward_transform backward_transform convolution_texture PW PH →
  1 <= PW ∧ PW mod SampleGroupSize = 0 →
  1 <= PH ∧ PH mod SampleGroupSize = 0 →
  let w := tex_width (noise_texture g) in
  let h := tex_height (noise_texture g) in
  let num := w * h in
  let half := num / 2 in
  binary (noise_texture g) → fits PW w → fits PH h →
  count_on (noise_texture g) = P → P <= half → num + BatchSize <= 2 ^ 32 →
  let g3 := layer_phases forward_transform backward_transform convolution_texture
                         (PW, PH) P half num g in
  tex_size (noise_texture g3) = tex_size (noise_texture g) ∧
  count_on (noise_texture g3) = half ∧
  (∀ p, is_on (noise_texture g) p = true → is_on (noise_texture g3) p = true) ∧
  count_on (copy_texture g3) = 0 ∧
  length (sequence_buffer g3) = length (sequence_buffer g).
Proof.
  intros Hen HPW HPH w h num half Hbin HfW HfH HP Hhalf Hnum g3.
  destruct (layer_phases_spec forward_transform backward_transform
              convolution_texture PW PH Hen HPW HPH g P Hbin HfW HfH HP Hhalf Hnum)
    as (es1 & es2 & es3 & L1 & L2 & L3 & E1 & E2 & E3 & C1 & C2 & C3 & Hperm & _).
  assert (EN : noise_texture g3 = stores f32_one (noise_texture g) es2).
  { unfold g3, layer_phases, half, num, w, h. rewrite E3. cbn [noise_texture].
    by rewrite E2. }
  split; [rewrite EN; apply tex_size_stores|].
  split; [rewrite EN; rewrite E2 in C2; exact C2|].
  split; [|split].
  - intros p Hp. rewrite EN. unfold is_on in *. rewrite texelFetch_stores.
    + destruct (decide (p ∈ vec_xy <$> es2)); [reflexivity|exact Hp].
    + apply Forall_forall. intros e He.
      apply elem_of_all_positions. rewrite <- Hperm.
      rewrite !fmap_app, !elem_of_app. right. left.
      apply list_elem_of_fmap. eauto.
  - exact C3.
  - unfold g3, layer_phases, half, num, w, h. rewrite E3. cbn [sequence_buffer].
    rewrite length_records, E2. cbn [sequence_buffer].
    rewrite length_records, E1. cbn [sequence_buffer].
    by rewrite length_records.
Qed.

Lemma layer_phases_final_state_witness :
  count_on (noise_texture
              (layer_phases flat_forward flat_backward flat_spectrum (64, 64)
                 1 (64 * 64 / 2) (64 * 64) (generator_of (pattern_of [(5, 7)]))))
  = 64 * 64 / 2.
Proof.
  assert (C : count_on (pattern_of [(5, 7)]) = 1) by (vm_compute; reflexivity).
  destruct (layer_phases_final_state flat_forward flat_backward flat_spectrum
              64 64 (generator_of (pattern_of [(5, 7)])) 1
              flat_energy_ok padded_64 padded_64 (binary_pattern_of _)
              fits_64 fits_64 C ltac:(vm_compute; discriminate)
              ltac:(vm_compute; discriminate)) as (_ & H & _).
  exact H.
Defined.

(** ** The seed loop and the pointwise shaders *)

Lemma binary_values_fixed v :
  v = f32_zero ∨ v = f32_one →
  (if f32_lt f32_half v then f32_one else f32_zero) = v ∧
  f32_sub f32_one (f32_sub f32_one v) = v.
Proof. intros [->| ->]; split; reflexivity. Qed.

(** X7.  The seed loop of [dispatch] keeps the size of the image, replaces
    every pixel above 0.5 by 1.0 and every other pixel (a NaN included) by
    0.0, and counts the pixels it set to 1.0: [num_positions] is the number
    of on-pixels of the input and of the result.  Run on its own result it
    changes nothing and counts the same number. *)
Theorem seed_image_thresholds_and_counts (input_image : texture2D) :
  0 <= tex_width input_image → 0 <= tex_height input_image →
  tex_width input_image * tex_height input_image < 2 ^ 32 →
  let r := seed_image input_image in
  tex_size r.1 = tex_size input_image ∧
  (∀ q, in_bounds (tex_size input_image) q = true →
        texelFetch r.1 q
        = if f32_lt f32_half (texelFetch input_image q) then f32_one else f32_zero) ∧
  r.2 = count_on input_image ∧
  count_on r.1 = r.2 ∧
  (∀ q, texelFetch (seed_image r.1).1 q = texelFetch r.1 q) ∧
  (seed_image r.1).2 = r.2.
Proof.
  intros Hw Hh Hn r.
  destruct (seed_image_spec input_image Hw Hh Hn) as (Hs & Hb & Hc & Hc').
  fold r in Hs, Hb, Hc, Hc'.
  assert (Hfold : ∀ t, 0 <= tex_width t → 0 <= tex_height t →
            tex_width t * tex_height t < 2 ^ 32 →
            ∀ q, texelFetch (seed_image t).1 q
                 = if in_bounds (tex_size t) q
                   then (if is_on t q then f32_one else f32_zero)
                   else f32_zero).
  { intros t H1 H2 H3 q.
    destruct (seed_fold t 0 (all_positions (tex_width t) (tex_height t)))
      as (_ & Hq & _).
    - apply NoDup_all_positions.
    - intros p Hp. by apply elem_of_all_positions.
    - rewrite length_all_positions by done. lia.
    - lia.
    - unfold seed_image. rewrite Hq.
      destruct (decide (q ∈ all_positions (tex_width t) (tex_height t))) as [Hin|Hin].
      + apply elem_of_all_positions in Hin. fold (tex_size t) in Hin. by rewrite Hin.
      + destruct (in_bounds (tex_size t) q) eqn:E.
        * exfalso. apply Hin. by apply elem_of_all_positions.
        * unfold texelFetch. by rewrite E. }
  assert (Hs1 : tex_width r.1 = tex_width input_image ∧
                tex_height r.1 = tex_height input_image).
  { unfold tex_size in Hs. by injection Hs. }
  destruct Hs1 as [Hs1 Hs2].
  split; [exact Hs|]. split; [|split; [|split; [|split]]].
  - intros q Hq. unfold r. rewrite Hfold by done. by rewrite Hq.
  - by rewrite Hc.
  - done.
  - intros q. rewrite Hfold by (rewrite ?Hs1, ?Hs2; done).
    destruct (in_bounds (tex_size r.1) q) eqn:E.
    + unfold is_on. apply binary_values_fixed. by apply Hb.
    + unfold texelFetch. by rewrite E.
  - destruct (seed_image_spec r.1) as (_ & _ & Hc2 & Hc2');
      [by rewrite Hs1|by rewrite Hs2|by rewrite Hs1, Hs2|].
    by rewrite Hc2, Hc2'.
Qed.

Lemma seed_image_thresholds_and_counts_witness :
  (seed_image (Texture 2 2 (fun x y => if x =? y then f32_one else f32_half))).2
  = count_on (Texture 2 2 (fun x y => if x =? y then f32_one else f32_half)).
Proof.
  destruct (seed_image_thresholds_and_counts
              (Texture 2 2 (fun x y => if x =? y then f32_one else f32_half)))
    as (_ & _ & H & _).
  - cbn. lia.
  - cbn. lia.
  - reflexivity.
  - exact H.
Defined.

(** X8.  On a two-valued pattern the inverse shader keeps the size, turns
    every on-pixel off and every off-pixel on, so that the on-count becomes
    [pixelCount - count], and applied twice it gives every texel back. *)
Theorem inverse_shader_complements (t : texture2D) :
  binary t → 0 <= tex_width t → 0 <= tex_height t →
  tex_size (inverse_shader t) = tex_size t ∧
  binary (inverse_shader t) ∧
  (∀ p, in_bounds (tex_size t) p = true →
        is_on (inverse_shader t) p = negb (is_on t p)) ∧
  count_on (inverse_shader t) = tex_width t * tex_height t - count_on t ∧
  (∀ p, in_bounds (tex_size t) p = true →
        texelFetch (inverse_shader (inverse_shader t)) p = texelFetch t p).
Proof.
  intros Hb Hw Hh.
  split; [reflexivity|]. split; [by apply binary_inverse|].
  split; [intros p Hp; by apply is_on_inverse|].
  split; [by apply count_on_inverse|].
  intros p Hp. rewrite texelFetch_inverse by done.
  rewrite texelFetch_inverse by done.
  apply binary_values_fixed. by apply Hb.
Qed.

Lemma inverse_shader_complements_witness :
  count_on (inverse_shader (pattern_of [(5, 7)])) = 64 * 64 - count_on (pattern_of [(5, 7)]).
Proof.
  destruct (inverse_shader_complements (pattern_of [(5, 7)])) as (_ & _ & _ & H & _).
  - apply binary_pattern_of.
  - cbn. lia.
  - cbn. lia.
  - exact H.
Defined.

(** ** The render shader *)

Lemma tex_size_render_thread W H sb t gid :
  tex_size (render_thread W H sb t gid) = tex_size t.
Proof.
  unfold render_thread. destruct (_ && _); [|done]. apply tex_size_imageStore.
Qed.

Lemma tex_size_render_shader W H sb t :
  tex_size (render_shader W H sb t) = tex_size t.
Proof.
  unfold render_shader.
  generalize (all_positions (tex_width t) (tex_height t)). intros l.
  revert t. induction l as [|gid l IH]; intros t; [done|].
  cbn [foldl]. by rewrite IH, tex_size_render_thread.
Qed.

(** A run of stores at pairwise different positions. *)
Lemma scatter_frame (ws : list (ivec2 * f32)) : ∀ t p,
  p ∉ ws.*1 →
  texelFetch (foldl (fun t pv => imageStore t pv.1 pv.2) t ws) p = texelFetch t p.
Proof.
  induction ws as [|[p0 v0] ws IH]; intros t p Hp; [done|].
  cbn [foldl fst snd]. rewrite fmap_cons, not_elem_of_cons in Hp.
  destruct Hp as [Hne Hp]. rewrite IH by done.
  destruct (in_bounds (tex_size t) p0) eqn:E.
  - rewrite texelFetch_imageStore by done. by rewrite decide_False.
  - unfold imageStore. by rewrite E.
Qed.

Lemma scatter_lookup (ws : list (ivec2 * f32)) : ∀ t p v,
  NoDup ws.*1 →
  Forall (λ pv, in_bounds (tex_size t) pv.1 = true) ws →
  (p, v) ∈ ws →
  texelFetch (foldl (fun t pv => imageStore t pv.1 pv.2) t ws) p = v.
Proof.
  induction ws as [|[p0 v0] ws IH]; intros t p v Hnd Hin Hel.
  { by apply elem_of_nil in Hel. }
  rewrite fmap_cons in Hnd. apply NoDup_cons in Hnd as [Hp0 Hnd].
  apply Forall_cons in Hin as [Hin0 Hin]. cbn [fst snd] in *.
  cbn [foldl fst snd]. apply elem_of_cons in Hel as [Heq|Hel].
  - injection Heq as -> ->. rewrite scatter_frame by done.
    rewrite texelFetch_imageStore by done. by rewrite decide_True.
  - apply IH; [done| |done].
    eapply Forall_impl; [exact Hin|]. intros pv Hpv. cbn beta in *.
    by rewrite tex_size_imageStore.
Qed.

Lemma render_shader_as_stores W H sb (l : list ivec2) : ∀ t,
  tex_size t = (W, H) →
  (∀ gid, gid ∈ l → gid.1 < W ∧ gid.2 < H) →
  foldl (render_thread W H sb) t l
  = foldl (fun t pv => imageStore t pv.1 pv.2) t
      ((fun gid =>
          (vec_xy (default (IVec4 0 0 f32_zero 0)
                      (sb !! Z.to_nat (W * gid.2 + gid.1))),
           f32_div (f32_of_int (W * gid.2 + gid.1)) (f32_of_int (W * H - 1))))
         <$> l).
Proof.
  induction l as [|gid l IH]; intros t Ht Hl; [done|].
  rewrite fmap_cons. cbn [foldl fst snd]. rewrite <- IH.
  - f_equal. unfold render_thread.
    unfold tex_size in Ht. injection Ht as -> ->.
    destruct (Hl gid ltac:(left)) as [H1 H2].
    apply Z.ltb_lt in H1, H2. by rewrite H1, H2.
  - by rewrite tex_size_imageStore.
  - intros g Hg. apply Hl. by right.
Qed.

(** Row-major order: thread [(x, y)] has the index [W * y + x]. *)
Lemma all_positions_indices_nat W (n : nat) :
  0 <= W →
  (fun p : ivec2 => W * p.2 + p.1) <$> all_positions W (Z.of_nat n)
  = seqZ 0 (W * Z.of_nat n).
Proof.
  intros HW. unfold all_positions. induction n as [|n IH].
  { by rewrite Z.mul_0_r. }
  rewrite seqZ_S, bind_app, fmap_app, IH. cbn [mbind list_bind].
  rewrite app_nil_r, Z.add_0_l, bind_singleton_fmap, <- list_fmap_compose.
  replace (W * Z.of_nat (S n)) with (W * Z.of_nat n + W) by lia.
  rewrite seqZ_app by nia. f_equal.
  rewrite Z.add_0_l, <- (Z.add_0_r (W * Z.of_nat n)) at 1.
  rewrite <- fmap_add_seqZ. apply list_fmap_ext. intros i x Hx. reflexivity.
Qed.

Lemma all_positions_indices W H :
  0 <= W → 0 <= H →
  (fun p : ivec2 => W * p.2 + p.1) <$> all_positions W H = seqZ 0 (W * H).
Proof.
  intros HW HH. rewrite <- (Z2Nat.id H) by done.
  by apply all_positions_indices_nat.
Qed.

Lemma render_shader_lookup (W H : Z) (sb : list ivec4) (out : texture2D) :
  0 <= W → 0 <= H → tex_size out = (W, H) →
  (∀ r, 0 <= r < W * H →
        ∃ e, sb !! Z.to_nat r = Some e ∧ in_bounds (W, H) (vec_xy e) = true) →
  (∀ r1 r2 e1 e2, 0 <= r1 < W * H → 0 <= r2 < W * H →
        sb !! Z.to_nat r1 = Some e1 → sb !! Z.to_nat r2 = Some e2 →
        vec_xy e1 = vec_xy e2 → r1 = r2) →
  ∀ r e, 0 <= r < W * H → sb !! Z.to_nat r = Some e →
    texelFetch (render_shader W H sb out) (vec_xy e)
    = f32_div (f32_of_int r) (f32_of_int (W * H - 1)).
Proof.
  intros HW HH Hsz Hpos Hinj r e Hr He.
  assert (Ew : tex_width out = W) by (unfold tex_size in Hsz; by injection Hsz).
  assert (Eh : tex_height out = H) by (unfold tex_size in Hsz; by injection Hsz).
  unfold render_shader. rewrite Ew, Eh.
  rewrite (render_shader_as_stores _ _ sb _ out Hsz).
  2:{ intros [x y] Hg. apply elem_of_all_positions, in_bounds_spec in Hg.
      cbn [fst snd]. lia. }
  set (G := fun i : Z =>
              (vec_xy (default (IVec4 0 0 f32_zero 0) (sb !! Z.to_nat i)),
               f32_div (f32_of_int i) (f32_of_int (W * H - 1)))).
  assert (EG : ((fun gid : ivec2 =>
                   (vec_xy (default (IVec4 0 0 f32_zero 0)
                      (sb !! Z.to_nat (W * gid.2 + gid.1))),
                    f32_div (f32_of_int (W * gid.2 + gid.1))
                      (f32_of_int (W * H - 1))))
                  <$> all_positions W H)
               = G <$> seqZ 0 (W * H)).
  { rewrite <- all_positions_indices by done.
    by rewrite <- list_fmap_compose. }
  rewrite EG. apply scatter_lookup.
  - rewrite <- list_fmap_compose. apply NoDup_fmap_2_strong; [|apply NoDup_seqZ].
    intros r1 r2 H1 H2 E. apply elem_of_seqZ in H1, H2.
    destruct (Hpos r1 ltac:(lia)) as (e1 & E1 & _).
    destruct (Hpos r2 ltac:(lia)) as (e2 & E2 & _).
    apply (Hinj r1 r2 e1 e2); [lia|lia|done|done|].
    unfold G in E. cbn [compose fst] in E. by rewrite E1, E2 in E.
  - apply Forall_fmap, Forall_forall. intros i Hi. apply elem_of_seqZ in Hi.
    destruct (Hpos i ltac:(lia)) as (ei & Ei & Bi).
    unfold G. cbn [compose fst]. rewrite Ei, Hsz. exact Bi.
  - apply list_elem_of_fmap. exists r. split.
    + unfold G. by rewrite He.
    + apply elem_of_seqZ. lia.
Qed.

(** X10.  When the first [width * height] slots of the sequence buffer hold
    pairwise different positions inside the surface, the render shader
    keeps the size of the surface and gives the pixel recorded in slot
    [r] the value [float(r) / float(width * height - 1)]. *)
Theorem render_shader_writes_ranks (W H : Z) (sb : list ivec4) (out : texture2D) :
  0 <= W → 0 <= H → tex_size out = (W, H) →
  (∀ r, 0 <= r < W * H →
        ∃ e, sb !! Z.to_nat r = Some e ∧ in_bounds (W, H) (vec_xy e) = true) →
  (∀ r1 r2 e1 e2, 0 <= r1 < W * H → 0 <= r2 < W * H →
        sb !! Z.to_nat r1 = Some e1 → sb !! Z.to_nat r2 = Some e2 →
        vec_xy e1 = vec_xy e2 → r1 = r2) →
  tex_size (render_shader W H sb out) = (W, H) ∧
  ∀ r e, 0 <= r < W * H → sb !! Z.to_nat r = Some e →
    texelFetch (render_shader W H sb out) (vec_xy e)
    = f32_div (f32_of_int r) (f32_of_int (W * H - 1)).
Proof.
  intros HW HH Hsz Hpos Hinj. split.
  - by rewrite tex_size_render_shader.
  - by apply render_shader_lookup.
Qed.

Lemma render_shader_writes_ranks_witness :
  texelFetch
    (render_shader 2 1 [IVec4 1 0 f32_zero 0; IVec4 0 0 f32_zero 0]
       (Texture 2 1 (fun _ _ => f32_half))) (0, 0)
  = f32_div (f32_of_int 1) (f32_of_int (2 * 1 - 1)).
Proof.
  apply (proj2 (render_shader_writes_ranks 2 1
                  [IVec4 1 0 f32_zero 0; IVec4 0 0 f32_zero 0]
                  (Texture 2 1 (fun _ _ => f32_half))
                  ltac:(lia) ltac:(lia) eq_refl
                  ltac:(intros r Hr; assert (r = 0 ∨ r = 1) as [->| ->] by lia;
                        eexists; split; reflexivity)
                  ltac:(intros r1 r2 e1 e2 H1 H2;
                        assert (r1 = 0 ∨ r1 = 1) as [->| ->] by lia;
                        assert (r2 = 0 ∨ r2 = 1) as [->| ->] by lia;
                        cbn; intros E1 E2; injection E1 as <-;
                        injection E2 as <-; unfold vec_xy; cbn [vec_x vec_y];
                        intros E; try reflexivity; exfalso; injection E; lia))
          1 (IVec4 0 0 f32_zero 0) ltac:(lia) eq_refl).
Defined.

(** ** A whole layer *)

Section LayerOrder.
Variable forward_transform : texture2D → option ctexture.
Variable backward_transform : ctexture → option texture2D.
Variable convolution_texture : ctexture.
Variables PW PH : Z.
Hypothesis Henergy :
  energy_ok forward_transform backward_transform convolution_texture PW PH.
Hypothesis HPW : 1 <= PW ∧ PW mod SampleGroupSize = 0.
Hypothesis HPH : 1 <= PH ∧ PH mod SampleGroupSize = 0.

(** After the three phases the first [num] slots of the sequence buffer
    list every pixel exactly once. *)
Lemma layer_sequence_by_rank (g : generator) (P : Z) :
  let w := tex_width (noise_texture g) in
  let h := tex_height (noise_texture g) in
  let num := w * h in
  let half := num / 2 in
  binary (noise_texture g) → fits PW w → fits PH h →
  count_on (noise_texture g) = P → P <= half → num + BatchSize <= 2 ^ 32 →
  num <= Z.of_nat (length (sequence_buffer g)) →
  ∃ order : list ivec4,
    Z.of_nat (length order) = num ∧
    vec_xy <$> order ≡ₚ all_positions w h ∧
    ∀ (r : nat) e, order !! r = Some e →
      sequence_buffer
        (layer_phases forward_transform backward_transform convolution_texture
                      (PW, PH) P half num g) !! r = Some e.
Proof.
  intros w h num half Hb Hw Hh HP Hhalf Hov Hsb.
  destruct (layer_phases_spec forward_transform backward_transform
              convolution_texture PW PH Henergy HPW HPH g P Hb Hw Hh HP Hhalf Hov)
    as (es1 & es2 & es3 & L1 & L2 & L3 & E1 & E2 & E3 & _ & _ & _ & Hperm & _).
  fold w h num half in L1, L2, L3, E1, E2, E3, Hperm.
  assert (HP0 : 0 <= P) by (rewrite <- HP; unfold count_on; lia).
  assert (Hnum : 0 <= num).
  { unfold num. destruct Hw as [? _], Hh as [? _]. nia. }
  assert (Hhn : 0 <= half <= num).
  { unfold half. split; [apply Z.div_pos; lia|]. apply Z.div_le_upper_bound; lia. }
  unfold BatchSize in Hov.
  set (ranks := first_phase_ranks P ++ second_phase_ranks P half
                  ++ third_phase_ranks half num).
  assert (Hranks : ranks ≡ₚ seqZ 0 num) by (apply phase_ranks_permutation; lia).
  assert (Hl1 : length es1 = length (first_phase_ranks P)).
  { rewrite L1. unfold first_phase_ranks. by rewrite length_fmap, length_seqZ. }
  assert (Hl2 : length es2 = length (second_phase_ranks P half)).
  { rewrite L2. unfold second_phase_ranks. by rewrite length_seqZ. }
  assert (Hl3 : length es3 = length (third_phase_ranks half num)).
  { rewrite L3. unfold third_phase_ranks. by rewrite length_seqZ. }
  set (S := sequence_buffer
              (layer_phases forward_transform backward_transform
                 convolution_texture (PW, PH) P half num g)).
  assert (ES : S = records (sequence_buffer g) ranks (es1 ++ es2 ++ es3)).
  { unfold S, layer_phases. rewrite E3. cbn [sequence_buffer].
    rewrite E2. cbn [sequence_buffer]. rewrite E1. cbn [sequence_buffer].
    unfold ranks. by rewrite <- !records_app. }
  assert (Hlen : length ranks = length (es1 ++ es2 ++ es3)).
  { unfold ranks. rewrite !length_app. lia. }
  assert (Hslot : ∀ (j : nat) r e, ranks !! j = Some r →
            (es1 ++ es2 ++ es3) !! j = Some e → S !! Z.to_nat r = Some e).
  { intros j r e Hr He. rewrite ES.
    eapply lookup_records; [| |exact Hr|exact He].
    - rewrite Hranks. apply NoDup_seqZ.
    - intros i Hi. rewrite Hranks in Hi.
      apply elem_of_seqZ in Hi. unfold Maxu32. lia. }
  set (F := fun r : Z => default (IVec4 0 0 f32_zero 0) (S !! Z.to_nat r)).
  assert (EF : F <$> ranks = es1 ++ es2 ++ es3).
  { apply list_eq. intros j. rewrite list_lookup_fmap.
    destruct (ranks !! j) as [r|] eqn:Er.
    - destruct (lookup_lt_is_Some_2 (es1 ++ es2 ++ es3) j) as [e Ee].
      { rewrite <- Hlen. by eapply lookup_lt_Some. }
      cbn. unfold F. by rewrite (Hslot j r e Er Ee), Ee.
    - cbn. symmetry. apply lookup_ge_None. rewrite <- Hlen.
      by apply lookup_ge_None. }
  exists (F <$> seqZ 0 num). split; [|split].
  - rewrite length_fmap, length_seqZ. lia.
  - rewrite <- Hperm, <- EF. by rewrite Hranks.
  - intros r e Hr. rewrite list_lookup_fmap in Hr.
    destruct (seqZ 0 num !! r) as [i|] eqn:Ei; [|done].
    apply lookup_seqZ in Ei as [-> Hi]. cbn in Hr. injection Hr as <-.
    unfold F. rewrite Z.add_0_l, Nat2Z.id.
    destruct (lookup_lt_is_Some_2 S r) as [e Ee]; [|by rewrite Ee].
    rewrite ES, length_records. lia.
Qed.

End LayerOrder.

Lemma noise_layers_sizes fwd bwd conv bs width height P (layers : nat) :
  ∀ layer_texture g,
    length (noise_layers fwd bwd conv bs width height P layers layer_texture g)
    = layers ∧
    Forall (λ t, tex_size t = tex_size layer_texture)
      (noise_layers fwd bwd conv bs width height P layers layer_texture g).
Proof.
  induction layers as [|n IH]; intros lt g; [by split|].
  cbn [noise_layers]. unfold noise_layer. cbv zeta.
  match goal with
  | |- context [noise_layers _ _ _ _ _ _ _ n ?lt' ?g'] =>
      destruct (IH lt' g') as [IHl IHs]
  end.
  split; [cbn; by rewrite IHl|].
  constructor.
  - apply tex_size_render_shader.
  - eapply Forall_impl; [exact IHs|]. intros t Ht. cbn beta in Ht.
    by rewrite Ht, tex_size_render_shader.
Qed.

(** One pass of the layer loop renders a ranking of the pixels. *)
Lemma noise_layer_ranking
    (forward_transform : texture2D → option ctexture)
    (backward_transform : ctexture → option texture2D)
    (convolution_texture : ctexture) (PW PH : Z) (g : generator) (P : Z)
    (last : bool) (layer_texture : texture2D) (w h : Z) :
  energy_ok forward_transform backward_transform convolution_texture PW PH →
  1 <= PW ∧ PW mod SampleGroupSize = 0 →
  1 <= PH ∧ PH mod SampleGroupSize = 0 →
  tex_size (noise_texture g) = (w, h) →
  binary (noise_texture g) → fits PW w → fits PH h →
  count_on (noise_texture g) = P → P <= w * h / 2 → w * h + BatchSize <= 2 ^ 32 →
  w * h <= Z.of_nat (length (sequence_buffer g)) →
  tex_size layer_texture = (w, h) →
  let layer :=
    (noise_layer forward_transform backward_transform convolution_texture
                 (PW, PH) w h P last layer_texture g).2 in
  tex_size layer = (w, h) ∧
  ∃ order : list ivec2,
    order ≡ₚ all_positions w h ∧
    ∀ (r : nat) p, order !! r = Some p →
      texelFetch layer p
      = f32_div (f32_of_int (Z.of_nat r)) (f32_of_int (w * h - 1)).
Proof.
  intros Hen HPW HPH Hsz.
  assert (Ew : tex_width (noise_texture g) = w)
    by (unfold tex_size in Hsz; by injection Hsz).
  assert (Eh : tex_height (noise_texture g) = h)
    by (unfold tex_size in Hsz; by injection Hsz).
  subst w h. set (w := tex_width (noise_texture g)).
  set (h := tex_height (noise_texture g)). set (num := w * h).
  intros Hb Hw Hh HP Hhalf Hov Hsb Hlt layer.
  destruct (layer_sequence_by_rank forward_transform backward_transform
              convolution_texture PW PH Hen HPW HPH g P Hb Hw Hh HP Hhalf Hov Hsb)
    as (order & Hlen & Hperm & Hslot).
  fold w h num in Hlen, Hperm, Hslot.
  assert (H0w : 0 <= w) by (by eapply fits_nonneg).
  assert (H0h : 0 <= h) by (by eapply fits_nonneg).
  assert (Hn : 0 <= num) by (unfold num; nia).
  unfold BatchSize in Hov.
  assert (Eu : u32 (w * h) = num).
  { unfold u32. fold num. apply Z.mod_small. lia. }
  set (S := sequence_buffer
              (layer_phases forward_transform backward_transform
                 convolution_texture (PW, PH) P (num / 2) num g)) in *.
  assert (El : layer = render_shader w h S layer_texture).
  { unfold layer, noise_layer. cbv zeta. rewrite Eu. by destruct last. }
  assert (Hnd : NoDup (vec_xy <$> order)).
  { rewrite Hperm. apply NoDup_all_positions. }
  assert (Hget : ∀ r, 0 <= r < num →
            ∃ e, order !! Z.to_nat r = Some e ∧ S !! Z.to_nat r = Some e).
  { intros r Hr. destruct (lookup_lt_is_Some_2 order (Z.to_nat r)) as [e He]; [lia|].
    exists e. split; [done|]. by apply Hslot. }
  assert (Hpos : ∀ r, 0 <= r < w * h →
            ∃ e, S !! Z.to_nat r = Some e ∧ in_bounds (w, h) (vec_xy e) = true).
  { intros r Hr. destruct (Hget r Hr) as (e & He & HS). exists e. split; [done|].
    apply elem_of_all_positions. rewrite <- Hperm.
    apply list_elem_of_fmap. exists e. split; [done|].
    by eapply list_elem_of_lookup_2. }
  assert (Hinj : ∀ r1 r2 e1 e2, 0 <= r1 < w * h → 0 <= r2 < w * h →
            S !! Z.to_nat r1 = Some e1 → S !! Z.to_nat r2 = Some e2 →
            vec_xy e1 = vec_xy e2 → r1 = r2).
  { intros r1 r2 e1 e2 H1 H2 E1 E2 Exy.
    destruct (Hget r1 H1) as (e1' & O1 & S1).
    destruct (Hget r2 H2) as (e2' & O2 & S2).
    rewrite E1 in S1. rewrite E2 in S2. injection S1 as <-. injection S2 as <-.
    assert (Z.to_nat r1 = Z.to_nat r2); [|lia].
    eapply (NoDup_lookup _ _ _ (vec_xy e1) Hnd).
    - by rewrite list_lookup_fmap, O1.
    - by rewrite list_lookup_fmap, O2, Exy. }
  split.
  { by rewrite El, tex_size_render_shader. }
  exists (vec_xy <$> order). split; [exact Hperm|].
  intros r p Hr. rewrite list_lookup_fmap in Hr.
  destruct (order !! r) as [e|] eqn:Ee; [|done]. cbn in Hr. injection Hr as <-.
  pose proof (lookup_lt_Some _ _ _ Ee) as Hlt'.
  rewrite El.
  apply (render_shader_lookup w h S layer_texture H0w H0h Hlt Hpos Hinj).
  - fold num. lia.
  - rewrite Nat2Z.id. by apply Hslot.
Qed.


(** X11.  One pass of the layer loop on a two-valued pattern with
    [P <= pixelCount / 2] on-pixels renders a layer that ranks every pixel:
    the pixels of the image can be listed in an order, each exactly once,
    such that the pixel at place [r] holds the value
    [float(r) / float(pixelCount - 1)].  (Energies bounded, logical size
    not below its centring offset, one buffer slot per pixel.) *)
Theorem rendered_layer_is_a_ranking
    (forward_transform : texture2D → option ctexture)
    (backward_transform : ctexture → option texture2D)
    (convolution_texture : ctexture) (PW PH : Z) (g : generator) (P : Z)
    (last : bool) (layer_texture : texture2D) :
  energy_ok forward_transform backward_transform convolution_texture PW PH →
  1 <= PW ∧ PW mod SampleGroupSize = 0 →
  1 <= PH ∧ PH mod SampleGroupSize = 0 →
  let w := tex_width (noise_texture g) in
  let h := tex_height (noise_texture g) in
  let num := w * h in
  binary (noise_texture g) → fits PW w → fits PH h →
  count_on (noise_texture g) = P → P <= num / 2 → num + BatchSize <= 2 ^ 32 →
  num <= Z.of_nat (length (sequence_buffer g)) →
  tex_size layer_texture = (w, h) →
  let layer :=
    (noise_layer forward_transform backward_transform convolution_texture
                 (PW, PH) w h P last layer_texture g).2 in
  tex_size layer = (w, h) ∧
  ∃ order : list ivec2,
    order ≡ₚ all_positions w h ∧
    ∀ (r : nat) p, order !! r = Some p →
      texelFetch layer p
      = f32_div (f32_of_int (Z.of_nat r)) (f32_of_int (num - 1)).
Proof.
  intros Hen HPW HPH w h num Hb Hw Hh HP Hhalf Hov Hsb Hlt.
  by apply noise_layer_ranking.
Qed.

Lemma rendered_layer_is_a_ranking_witness :
  tex_size
    (noise_layer flat_forward flat_backward flat_spectrum (64, 64) 64 64 1 true
       (Texture 64 64 (fun _ _ => f32_zero))
       (generator_of (pattern_of [(5, 7)]))).2 = (64, 64).
Proof.
  assert (C : count_on (pattern_of [(5, 7)]) = 1) by (vm_compute; reflexivity).
  assert (L : 64 * 64 <= Z.of_nat (length (sequence_buffer
                                              (generator_of (pattern_of [(5, 7)])))))
    by (vm_compute; discriminate).
  destruct (rendered_layer_is_a_ranking flat_forward flat_backward flat_spectrum
              64 64 (generator_of (pattern_of [(5, 7)])) 1 true
              (Texture 64 64 (fun _ _ => f32_zero))
              flat_energy_ok padded_64 padded_64 (binary_pattern_of _)
              fits_64 fits_64 C ltac:(vm_compute; discriminate)
              ltac:(vm_compute; discriminate) L eq_refl) as [H _].
  exact H.
Defined.

(** X12.  A call of [dispatch] on an image whose pixel count plus
    [BatchSize] is within 32 bits (so that the batched loops end) ends in
    one of three ways.  It returns the null image, and then the greedy
    loops were not entered.  Or it divides by zero after entering the
    loops, which happens only when
    [progress_pixels = num_positions * 2 + num_pixels * layers] has
    wrapped to zero in 32 bits.  Or it returns exactly [layers] layers,
    each of the size of the input image.  In the last two cases the input
    was at least 1 x 1 with at least one layer. *)
Theorem dispatch_returns_the_requested_layers
    (device : resource → bool)
    (forward_transform : texture2D → option ctexture)
    (backward_transform : ctexture → option texture2D)
    (kernel_spectrum : f32 → f32 → Z → Z → option ctexture)
    (sb : list ivec4) (image : texture2D) (layers : Z) (sigma epsilon : f32) :
  tex_width image * tex_height image + BatchSize <= 2 ^ 32 →
  let d := dispatch device forward_transform backward_transform kernel_spectrum
                    sb image layers sigma epsilon in
  let accepted := 1 <= tex_width image ∧ 1 <= tex_height image ∧ 1 <= layers in
  if division_by_zero d
  then noise_image d = None ∧ generation_started d = true ∧ accepted ∧
       progress_pixels (seed_image image).2
                       (u32 (tex_width image * tex_height image)) layers = 0
  else match noise_image d with
       | None => generation_started d = false
       | Some ls =>
           generation_started d = true ∧ accepted ∧
           Z.of_nat (length ls) = layers ∧
           Forall (λ t, tex_size t = tex_size image) ls
       end.
Proof.
  intros _ d accepted. unfold d, accepted, dispatch, failed.
  destruct (Z.ltb_spec (tex_width image) 1); [done|].
  destruct (Z.ltb_spec (tex_height image) 1); [done|].
  destruct (Z.ltb_spec layers 1); [done|].
  cbn [orb].
  destruct (negb (device NoiseTexture)); [done|].
  destruct (negb (device CopyTexture && device LayerTexture)); [done|].
  destruct (negb (device KernelTexture)); [done|].
  destruct (if device ConvolutionTexture then _ else None); [|done].
  destruct (negb (device ForwardTexture0 && device ForwardTexture1)); [done|].
  destruct (negb (device BackwardTexture)); [done|].
  destruct (_ && negb (device UpscaleTexture)); [done|].
  destruct (Z.eqb_spec
              (progress_pixels (seed_image image).2
                 (u32 (tex_width image * tex_height image)) layers) 0)
    as [Hz|Hz]; cbn [andb].
  1: destruct (_ || _);
       cbn [noise_image generation_started division_by_zero]; [done|].
  2: cbn [noise_image generation_started division_by_zero].
  all: match goal with
       | |- context [noise_layers ?a ?b ?c ?e ?f ?g ?h ?n ?lt ?gen] =>
           destruct (noise_layers_sizes a b c e f g h n lt gen) as [Hl Hs]
       end;
       (split; [done|]); (split; [done|]); (split; [rewrite Hl; lia|exact Hs]).
Qed.

Lemma dispatch_returns_the_requested_layers_witness :
  ∃ ls,
    noise_image
      (dispatch (fun _ => true) flat_forward flat_backward
                (fun _ _ _ _ => Some flat_spectrum) []
                (Texture 64 64 (fun _ _ => f32_zero)) 1 f32_one f32_zero)
    = Some ls ∧ Z.of_nat (length ls) = 1.
Proof.
  pose proof (dispatch_returns_the_requested_layers
                (fun _ => true) flat_forward flat_backward
                (fun _ _ _ _ => Some flat_spectrum) []
                (Texture 64 64 (fun _ _ => f32_zero)) 1 f32_one f32_zero
                ltac:(vm_compute; discriminate)) as H.
  cbv zeta in H.
  destruct (dispatch_accepts (fun _ => true) flat_forward flat_backward
              (fun _ _ _ _ => Some flat_spectrum) []
              (Texture 64 64 (fun _ _ => f32_zero)) 1 f32_one f32_zero)
    as (_ & _ & Himg & Hdz); [simpl; lia|simpl; lia|lia|done|by eexists|].
  destruct (division_by_zero _).
  - specialize (Hdz eq_refl). vm_compute in Hdz. discriminate.
  - destruct (Himg eq_refl) as [ls E]. rewrite E in H.
    exists ls. split; [exact E|]. by destruct H as (_ & _ & Hl & _).
Defined.

(** The third way is real: a 64 x 64 image with 2^20 layers is accepted,
    every resource is created, and [progress_pixels] is
    [4096 * 2^20 mod 2^32 = 0]. *)
Lemma dispatch_divides_by_zero :
  let d := dispatch (fun _ => true) flat_forward flat_backward
                    (fun _ _ _ _ => Some flat_spectrum) []
                    (Texture 64 64 (fun _ _ => f32_zero)) (2 ^ 20)
                    f32_one f32_zero in
  division_by_zero d = true ∧ noise_image d = None ∧
  generation_started d = true.
Proof. vm_compute. repeat split. Qed.

(** ** Padded sizes and the buffers of [create] *)

Lemma npot_ge x : 1 <= x → x <= npot x.
Proof.
  intros Hx. unfold npot. destruct (decide (x = 1)) as [->|Hne]; [done|].
  apply (Z.log2_up_spec x). lia.
Qed.

Lemma npot_lt_double x : 1 < x → npot x < 2 * x.
Proof.
  intros Hx. unfold npot.
  pose proof (Z.log2_up_spec x Hx) as [Hlo _].
  pose proof (Z.log2_up_pos x Hx) as Hk.
  replace (Z.log2_up x) with (Z.succ (Z.pred (Z.log2_up x))) by lia.
  rewrite Z.pow_succ_r by lia. lia.
Qed.

Lemma npot_mono x y : x <= y → npot x <= npot y.
Proof.
  intros Hxy. unfold npot. apply Z.pow_le_mono_r; [lia|].
  by apply Z.log2_up_le_mono.
Qed.

Lemma npot_multiple_of_16 x : 16 <= npot x → npot x mod 16 = 0.
Proof.
  unfold npot. intros H.
  assert (Hk : 4 <= Z.log2_up x).
  { destruct (Z.le_gt_cases 4 (Z.log2_up x)) as [|Hlt]; [done|].
    assert (2 ^ Z.log2_up x <= 2 ^ 3).
    { apply Z.pow_le_mono_r; lia. }
    change (2 ^ 3) with 8 in *. lia. }
  replace (Z.log2_up x) with ((Z.log2_up x - 4) + 4) by lia.
  rewrite Z.pow_add_r by lia. change (2 ^ 4) with 16. apply Z.mod_mul. lia.
Qed.

Lemma padded_size_cases x :
  1 <= x →
  (x <= 64 ∧ Z.max (npot x) MinSize = 64) ∨
  (64 < x ∧ Z.max (npot x) MinSize = npot x ∧ x <= npot x < 2 * x).
Proof.
  intros Hx. unfold MinSize. destruct (Z.le_gt_cases x 64) as [Hle|Hgt].
  - left. split; [done|]. pose proof (npot_mono x 64 Hle) as Hm.
    change (npot 64) with 64 in Hm. lia.
  - right. pose proof (npot_ge x Hx). pose proof (npot_lt_double x ltac:(lia)). lia.
Qed.

Lemma npot_max_MinSize x :
  1 <= x → npot (Z.max x MinSize) = Z.max (npot x) MinSize.
Proof.
  intros Hx. destruct (padded_size_cases x Hx) as [[Hle E]|(Hgt & E & _)];
    rewrite E; unfold MinSize in *.
  - by rewrite Z.max_r by lia.
  - by rewrite Z.max_l by lia.
Qed.

Lemma padded_extent_facts (w : Z) :
  1 <= w →
  let padded := Z.max (npot w) MinSize in
  64 <= padded ∧ w <= padded ∧
  padded mod SampleGroupSize = 0 ∧
  udiv padded SampleGroupSize * SampleGroupSize = padded ∧
  (fits padded w ↔ 21 <= w) ∧
  (w < 21 →
   (if 0 <? (padded - w) ÷ 2 then 0 + w else 0) - (padded - w) ÷ 2 < 0).
Proof.
  intros Hw padded.
  assert (Hmod : padded mod 16 = 0).
  { unfold padded. destruct (padded_size_cases w Hw) as [[_ ->]|(Hgt & -> & Hb)];
      [done|]. apply npot_multiple_of_16. lia. }
  assert (Hq : ∀ a, 0 <= a → a ÷ 2 = a / 2) by (intros; by apply Z.quot_div_nonneg).
  destruct (padded_size_cases w Hw) as [[Hle E]|(Hgt & E & Hb)]; fold padded in E.
  - rewrite E in *.
    pose proof (Z.div_mod (64 - w) 2 ltac:(lia)).
    pose proof (Z.mod_pos_bound (64 - w) 2 ltac:(lia)).
    split; [lia|]. split; [lia|]. split; [done|].
    split; [done|]. unfold fits. rewrite Hq by lia. split.
    + split; lia.
    + intros Hlt. destruct (Z.ltb_spec 0 ((64 - w) / 2)); lia.
  - rewrite E in *.
    pose proof (Z.div_mod (npot w - w) 2 ltac:(lia)).
    pose proof (Z.mod_pos_bound (npot w - w) 2 ltac:(lia)).
    split; [lia|]. split; [lia|]. split; [done|]. split.
    + rewrite udiv_exact by done. change SampleGroupSize with 16.
      pose proof (Z.div_mod (npot w) 16 ltac:(lia)). lia.
    + unfold fits. rewrite Hq by lia. split; [|lia]. split; lia.
Qed.

(** X13.  The padded extent [max(npot(w), MinSize)] that [dispatch] works
    at, for a logical extent [w >= 1], is at least 64 and at least [w], and
    is a multiple of the sample group size 16, so that the tiles cover the
    padded texture exactly.  The centring offset of the position remap
    does not exceed the logical extent, and hence the operand of [%] is
    never negative, exactly when [w >= 21]; for a narrower image the
    operand is negative at padded position 0. *)
Theorem padded_extent_properties (w : Z) :
  1 <= w →
  let padded := Z.max (npot w) MinSize in
  64 <= padded ∧ w <= padded ∧
  padded mod SampleGroupSize = 0 ∧
  udiv padded SampleGroupSize * SampleGroupSize = padded ∧
  (fits padded w ↔ 21 <= w) ∧
  (w < 21 →
   (if 0 <? (padded - w) ÷ 2 then 0 + w else 0) - (padded - w) ÷ 2 < 0).
Proof. apply padded_extent_facts. Qed.

Lemma padded_extent_properties_witness : fits (Z.max (npot 100) MinSize) 100.
Proof.
  apply (proj1 (proj2 (proj2 (proj2 (proj2 (padded_extent_properties 100
                                              ltac:(lia))))))).
  lia.
Defined.

(** X14.  When [create] succeeds for a logical size [width] x [height]
    (both at least 1), the members it leaves fit a later [dispatch] on an
    image of that size: the transform covers the padded size
    [max(npot(w), MinSize)] that [dispatch] computes, [sequence_buffer] has
    a slot for every rank [0 .. width * height - 1], and [position_buffer]
    has exactly one slot per 16 x 16 tile of the padded texture. *)
Theorem create_allocates_for_dispatch
    (transform_create : Z → Z → bool) (kernel_create : kernel_name → bool)
    (buffer_create : Z → bool) (width height layers : Z) (m : created_members) :
  1 <= width → 1 <= height →
  create transform_create kernel_create buffer_create width height layers = Some m →
  let npot_width := Z.max (npot width) MinSize in
  let npot_height := Z.max (npot height) MinSize in
  npot_width <= transform_width m ∧ npot_height <= transform_height m ∧
  transform_create (transform_width m) (transform_height m) = true ∧
  (∀ k, kernel_create k = true) ∧
  sequence_slots m = npot_width * npot_height ∧
  width * height <= sequence_slots m ∧
  position_slots m
  = udiv npot_width SampleGroupSize * udiv npot_height SampleGroupSize ∧
  position_slots m * (SampleGroupSize * SampleGroupSize) = npot_width * npot_height.
Proof.
  intros Hw Hh Hc npot_width npot_height. unfold create in Hc.
  rewrite !npot_max_MinSize in Hc by done.
  fold npot_width npot_height in Hc.
  destruct (transform_create _ _) eqn:Et; [|done].
  destruct (kernel_create InverseKernel) eqn:K1; [|done].
  destruct (kernel_create FilterKernel) eqn:K2; [|done].
  destruct (kernel_create MinSampleKernel) eqn:K3; [|done].
  destruct (kernel_create MaxSampleKernel) eqn:K4; [|done].
  destruct (kernel_create PositionKernel) eqn:K5; [|done].
  destruct (kernel_create UpdateKernel) eqn:K6; [|done].
  destruct (kernel_create RenderKernel) eqn:K7; [|done].
  destruct (kernel_create LayerKernel) eqn:K8; [|done].
  destruct (kernel_create UpscaleKernel) eqn:K9; [|done].
  cbn [negb] in Hc. destruct (_ && _); [|done]. cbn [negb] in Hc.
  injection Hc as <-. cbn [transform_width transform_height sequence_slots
                           position_slots].
  destruct (padded_extent_facts width Hw) as (W1 & W2 & W3 & W4 & _).
  destruct (padded_extent_facts height Hh) as (H1 & H2 & H3 & H4 & _).
  fold npot_width in W1, W2, W3, W4. fold npot_height in H1, H2, H3, H4.
  split; [lia|]. split; [lia|]. split; [exact Et|].
  split; [by intros []|]. split; [done|]. split; [nia|]. split; [done|]. nia.
Qed.

Lemma create_allocates_for_dispatch_witness :
  100 * 30 <= Z.max (npot 100) MinSize * Z.max (npot 30) MinSize.
Proof.
  destruct (create_allocates_for_dispatch (fun _ _ => true) (fun _ => true)
              (fun _ => true) 100 30 1
              (CreatedMembers 128 64 (128 * 64) (8 * 4))
              ltac:(lia) ltac:(lia) eq_refl) as (_ & _ & _ & _ & E & H & _).
  cbn [sequence_slots] in E, H. rewrite <- E. exact H.
Defined.

(** ** [dispatchForward] *)

Lemma tex_size_foldl_stores (ws : list (ivec2 * f32)) : ∀ t,
  tex_size (foldl (fun t pv => imageStore t pv.1 pv.2) t ws) = tex_size t.
Proof.
  induction ws as [|pv ws IH]; intros t; [done|].
  cbn [foldl]. by rewrite IH, tex_size_imageStore.
Qed.

(** A run of stores in which every position always receives the same
    value [f p]. *)
Lemma consistent_stores (f : ivec2 → f32) (ws : list (ivec2 * f32)) : ∀ t q,
  Forall (λ pv, in_bounds (tex_size t) pv.1 = true ∧ pv.2 = f pv.1) ws →
  texelFetch (foldl (fun t pv => imageStore t pv.1 pv.2) t ws) q
  = if decide (q ∈ ws.*1) then f q else texelFetch t q.
Proof.
  induction ws as [|[p0 v0] ws IH]; intros t q Hws.
  { cbn. by rewrite decide_False by apply not_elem_of_nil. }
  apply Forall_cons in Hws as [[Hb Hv] Hws]. cbn [fst snd] in Hb, Hv.
  cbn [foldl fst snd]. rewrite IH.
  2:{ eapply Forall_impl; [exact Hws|]. intros pv Hpv. cbn beta in *.
      by rewrite tex_size_imageStore. }
  rewrite fmap_cons. cbn [fst].
  destruct (decide (q ∈ ws.*1)) as [Hin|Hin].
  - rewrite decide_True; [done|]. by right.
  - rewrite texelFetch_imageStore by done.
    destruct (decide (q = p0)) as [->|Hne].
    + rewrite decide_True; [done|]. left.
    + rewrite decide_False; [done|]. intros Hc.
      apply elem_of_cons in Hc as [?|?]; done.
Qed.

Lemma foldl_bind_stores {A} (g : A → list (ivec2 * f32)) (l : list A) : ∀ t,
  foldl (fun img a => foldl (fun t pv => imageStore t pv.1 pv.2) img (g a)) t l
  = foldl (fun t pv => imageStore t pv.1 pv.2) t (l ≫= g).
Proof.
  induction l as [|a l IH]; intros t; [done|].
  cbn [foldl]. rewrite IH.
  change ((a :: l) ≫= g) with (g a ++ (l ≫= g)). by rewrite foldl_app.
Qed.

Section ForwardLayout.

Variables (width height : Z) (complex_image : ctexture).
Hypothesis width_pos : 0 < width.
Hypothesis width_even : width mod 2 = 0.
Hypothesis height_pos : 0 < height.
Hypothesis height_even : height mod 2 = 0.

Abbreviation shown := (forward_shown width height complex_image).
Abbreviation pixel_writes := (convert_pixel_writes_list width complex_image).
Abbreviation row_writes := (convert_row_writes_list width height complex_image).

Lemma convert_pixel_writes sx sy dy x t :
  convert_pixel width complex_image sx sy dy x t
  = foldl (fun t pv => imageStore t pv.1 pv.2) t (pixel_writes sx sy dy x).
Proof. unfold convert_pixel, convert_pixel_writes_list. by destruct (x =? 0). Qed.

Lemma convert_row_writes y t :
  convert_row width height complex_image y t
  = foldl (fun t pv => imageStore t pv.1 pv.2) t (row_writes y).
Proof.
  unfold convert_row, convert_row_writes_list. cbv zeta.
  rewrite foldl_app, <- !foldl_bind_stores.
  assert (E : ∀ sy dy l t',
    foldl (fun img x =>
             if (x =? width / 2) && (y =? height / 2 - 1) then img
             else convert_pixel width complex_image (width / 2 - x) sy dy x img)
          t' l
    = foldl (fun img x =>
               foldl (fun t pv => imageStore t pv.1 pv.2) img
                 (if (x =? width / 2) && (y =? height / 2 - 1) then []
                  else pixel_writes (width / 2 - x) sy dy x))
            t' l).
  { intros sy dy l. induction l as [|x l IH]; intros t'; [done|].
    cbn [foldl]. rewrite IH. f_equal.
    destruct (_ && _); [done|]. apply convert_pixel_writes. }
  by rewrite !E.
Qed.

Lemma convert_forward_writes t :
  convert_forward width height complex_image t
  = foldl (fun t pv => imageStore t pv.1 pv.2) t
          (seqZ 0 (height / 2) ≫= row_writes).
Proof.
  unfold convert_forward. rewrite <- foldl_bind_stores.
  generalize (seqZ 0 (height / 2)). intros l. revert t.
  induction l as [|y l IH]; intros t; [done|].
  cbn [foldl]. by rewrite IH, convert_row_writes.
Qed.

Lemma elem_of_pixel_writes sx sy dy x q v :
  (q, v) ∈ pixel_writes sx sy dy x ↔
  v = magnitude (ctex_data complex_image sx sy) ∧
  (q = (x, dy) ∨ (x ≠ 0 ∧ q = (width - x, dy))).
Proof.
  unfold convert_pixel_writes_list. destruct (Z.eqb_spec x 0) as [->|Hne].
  - rewrite list_elem_of_singleton. split.
    + intros E. injection E as -> ->. auto.
    + intros [-> [->|[? _]]]; done.
  - rewrite elem_of_cons, list_elem_of_singleton. split.
    + intros [E|E]; injection E as -> ->; auto.
    + intros [-> [->|[_ ->]]]; auto.
Qed.

Lemma elem_of_row_writes y q v :
  (q, v) ∈ row_writes y ↔
  ∃ x, 0 <= x <= width / 2 ∧ ¬ (x = width / 2 ∧ y = height / 2 - 1) ∧
       (q = (x, q.2) ∨ (x ≠ 0 ∧ q = (width - x, q.2))) ∧
       ((q.2 = y ∧
         v = magnitude (ctex_data complex_image (width / 2 - x) (height / 2 - y - 1))) ∨
        (q.2 = height / 2 + y ∧
         v = magnitude (ctex_data complex_image (width / 2 - x) (height - y - 1)))).
Proof.
  unfold convert_row_writes_list. rewrite elem_of_app, !list_elem_of_bind.
  setoid_rewrite elem_of_seqZ. split.
  - intros [(x & Hin & Hx)|(x & Hin & Hx)].
    + destruct (Z.eqb_spec x (width / 2)), (Z.eqb_spec y (height / 2 - 1));
        cbn [andb] in Hin; try (by apply elem_of_nil in Hin);
        apply elem_of_pixel_writes in Hin as [-> Hq];
        (exists x; split; [lia|]; split; [lia|]; split;
         [destruct Hq as [->|[? ->]]; auto|left; destruct Hq as [->|[? ->]]; auto]).
    + destruct (Z.eqb_spec x (width / 2)), (Z.eqb_spec y (height / 2 - 1));
        cbn [andb] in Hin; try (by apply elem_of_nil in Hin);
        apply elem_of_pixel_writes in Hin as [-> Hq];
        (exists x; split; [lia|]; split; [lia|]; split;
         [destruct Hq as [->|[? ->]]; auto|right; destruct Hq as [->|[? ->]]; auto]).
  - intros (x & Hx & Hskip & Hq & [[Hy ->]|[Hy ->]]).
    + left. exists x. split; [|lia].
      destruct (Z.eqb_spec x (width / 2)), (Z.eqb_spec y (height / 2 - 1));
        cbn [andb]; try (exfalso; apply Hskip; done);
        apply elem_of_pixel_writes; (split; [done|]); rewrite <- Hy; exact Hq.
    + right. exists x. split; [|lia].
      destruct (Z.eqb_spec x (width / 2)), (Z.eqb_spec y (height / 2 - 1));
        cbn [andb]; try (exfalso; apply Hskip; done);
        apply elem_of_pixel_writes; (split; [done|]); rewrite <- Hy; exact Hq.
Qed.

Lemma halves :
  width = 2 * (width / 2) ∧ height = 2 * (height / 2) ∧
  0 < width / 2 ∧ 0 < height / 2.
Proof.
  pose proof (Z.div_mod width 2 ltac:(lia)).
  pose proof (Z.div_mod height 2 ltac:(lia)). lia.
Qed.

Lemma writes_consistent :
  Forall (λ pv, in_bounds (width, height) pv.1 = true ∧ pv.2 = shown pv.1)
         (seqZ 0 (height / 2) ≫= row_writes).
Proof.
  destruct halves as (Ew & Eh & Hw2 & Hh2).
  apply Forall_forall. intros [q v] Hin.
  apply list_elem_of_bind in Hin as (y & Hin & Hy).
  apply elem_of_seqZ in Hy.
  apply elem_of_row_writes in Hin as (x & Hx & Hskip & Hq & Hv).
  destruct q as [qx qy]. cbn [fst snd] in *.
  assert (Hqx : qx = x ∨ (x ≠ 0 ∧ qx = width - x)).
  { destruct Hq as [E|[? E]]; injection E as ->; auto. }
  assert (Hmin : Z.min qx (width - qx) = x) by lia.
  split.
  - apply in_bounds_spec. lia.
  - unfold forward_shown, forward_source. cbn [fst snd]. rewrite Hmin.
    destruct Hv as [[-> ->]|[-> ->]].
    + destruct (Z.ltb_spec y (height / 2)); [|lia]. do 2 f_equal. lia.
    + destruct (Z.ltb_spec (height / 2 + y) (height / 2)); [lia|].
      do 2 f_equal. lia.
Qed.

Lemma written_iff q :
  q ∈ (seqZ 0 (height / 2) ≫= row_writes).*1 ↔
  in_bounds (width, height) q = true ∧ forward_skipped width height q = false.
Proof.
  destruct halves as (Ew & Eh & Hw2 & Hh2).
  destruct q as [qx qy]. rewrite in_bounds_spec.
  unfold forward_skipped. cbn [fst snd]. split.
  - intros Hin. apply list_elem_of_fmap in Hin as ([q v] & Eq & Hin).
    cbn [fst] in Eq. subst q.
    apply list_elem_of_bind in Hin as (y & Hin & Hy).
    apply elem_of_seqZ in Hy.
    apply elem_of_row_writes in Hin as (x & Hx & Hskip & Hq & Hv).
    cbn [fst snd] in *.
    assert (Hqx : qx = x ∨ (x ≠ 0 ∧ qx = width - x)).
    { destruct Hq as [E|[? E]]; injection E as ->; auto. }
    split; [destruct Hv as [[-> _]|[-> _]]; lia|].
    destruct (Z.eqb_spec qx (width / 2)); [|done]. cbn [andb].
    apply orb_false_intro; apply Z.eqb_neq; destruct Hv as [[-> _]|[-> _]]; lia.
  - intros [Hb Hs].
    apply list_elem_of_fmap.
    exists ((qx, qy), shown (qx, qy)). split; [done|].
    set (x := Z.min qx (width - qx)).
    assert (Hns : ¬ (qx = width / 2 ∧ (qy = height / 2 - 1 ∨ qy = height - 1))).
    { intros [-> Hy]. rewrite Z.eqb_refl in Hs. cbn [andb] in Hs.
      apply orb_false_elim in Hs as [H1 H2].
      apply Z.eqb_neq in H1, H2. lia. }
    destruct (Z.ltb_spec qy (height / 2)) as [Hlo|Hhi].
    + apply list_elem_of_bind. exists qy. split; [|apply elem_of_seqZ; lia].
      apply elem_of_row_writes. exists x. cbn [fst snd].
      split; [lia|]. split; [lia|]. split.
      { destruct (Z.le_gt_cases qx (width / 2)); [left|right];
          [|split; [lia|]]; f_equal; lia. }
      left. split; [done|]. unfold forward_shown, forward_source. cbn [fst snd].
      fold x. destruct (Z.ltb_spec qy (height / 2)); [|lia]. do 2 f_equal. lia.
    + apply list_elem_of_bind. exists (qy - height / 2).
      split; [|apply elem_of_seqZ; lia].
      apply elem_of_row_writes. exists x. cbn [fst snd].
      split; [lia|]. split; [lia|]. split.
      { destruct (Z.le_gt_cases qx (width / 2)); [left|right];
          [|split; [lia|]]; f_equal; lia. }
      right. split; [lia|]. unfold forward_shown, forward_source. cbn [fst snd].
      fold x. destruct (Z.ltb_spec qy (height / 2)); [lia|]. do 2 f_equal. lia.
Qed.

Lemma convert_forward_texel t q :
  tex_size t = (width, height) → in_bounds (width, height) q = true →
  texelFetch (convert_forward width height complex_image t) q
  = if forward_skipped width height q then texelFetch t q else shown q.
Proof.
  intros Ht Hq. rewrite convert_forward_writes.
  rewrite (consistent_stores shown).
  2:{ rewrite Ht. apply writes_consistent. }
  destruct (decide (q ∈ _)) as [Hin|Hin].
  - apply written_iff in Hin as [_ ->]. done.
  - destruct (forward_skipped width height q) eqn:E; [done|].
    exfalso. apply Hin. by apply written_iff.
Qed.

End ForwardLayout.

(** X15.  [dispatchForward] returns the null image without creating any
    device resource when the width or the height is rejected by [ispot];
    when it returns an image, both extents passed [ispot], both device
    resources were created, and the image has the size of the input. *)
Theorem dispatchForward_result (ispot : Z → bool)
    (device : forward_resource → bool)
    (forward_transform : texture2D → option ctexture)
    (fresh : Z → Z → f32) (image : texture2D) :
  let r := dispatchForward ispot device forward_transform fresh image in
  (ispot (tex_width image) = false ∨ ispot (tex_height image) = false →
   r = (None, [])) ∧
  (∀ forward_image, r.1 = Some forward_image →
     ispot (tex_width image) = true ∧ ispot (tex_height image) = true ∧
     r.2 = [ForwardNoiseTexture; ForwardTexture] ∧
     tex_size forward_image = tex_size image).
Proof.
  intros r. unfold r, dispatchForward. split.
  - intros [->| ->]; [done|]. by rewrite orb_true_r.
  - intros f. destruct (ispot (tex_width image)); [|done].
    destruct (ispot (tex_height image)); [|done]. cbn [negb orb].
    destruct (device ForwardNoiseTexture); [|done]. cbn [negb].
    destruct (if device ForwardTexture then _ else None); [|done].
    cbn [fst snd]. intros E. injection E as <-.
    split; [done|]. split; [done|]. split; [done|].
    rewrite convert_forward_writes, tex_size_foldl_stores. reflexivity.
Qed.

Lemma dispatchForward_result_witness :
  dispatchForward (fun x => x =? 64) (fun _ => true) flat_forward
    (fun _ _ => f32_zero) (Texture 100 64 (fun _ _ => f32_one)) = (None, []).
Proof.
  apply (proj1 (dispatchForward_result (fun x => x =? 64) (fun _ => true)
                  flat_forward (fun _ _ => f32_zero)
                  (Texture 100 64 (fun _ _ => f32_one)))).
  left. reflexivity.
Defined.

(** X16.  For even extents the conversion loop of [dispatchForward] fills
    every texel of the forward image except [(width/2, height/2 - 1)] and
    [(width/2, height - 1)], which keep the content the image was created
    with.  Texel [(x, y)] shows the magnitude of the complex texel in
    column [width/2 - min(x, width - x)] and row [height/2 - 1 - y] (upper
    half) or [height + height/2 - 1 - y] (lower half); these stay inside
    the [width/2 + 1] columns of the half spectrum.  The image is
    therefore mirror-symmetric, column [width - x] repeating column [x],
    and the coefficient [(0, 0)] is shown nowhere. *)
Theorem forward_image_layout (width height : Z) (complex_image : ctexture)
    (forward_image : texture2D) :
  0 < width → width mod 2 = 0 → 0 < height → height mod 2 = 0 →
  tex_size forward_image = (width, height) →
  let F := convert_forward width height complex_image forward_image in
  (∀ p, in_bounds (width, height) p = true →
     texelFetch F p
     = if forward_skipped width height p then texelFetch forward_image p
       else magnitude (ctex_data complex_image
                         (forward_source width height p).1
                         (forward_source width height p).2)) ∧
  (∀ p, in_bounds (width, height) p = true →
     0 <= (forward_source width height p).1 <= width / 2 ∧
     0 <= (forward_source width height p).2 < height) ∧
  (∀ x y, 0 < x < width → 0 <= y < height →
     forward_skipped width height (x, y) = false →
     texelFetch F (width - x, y) = texelFetch F (x, y)) ∧
  (∀ p, in_bounds (width, height) p = true →
     forward_skipped width height p = false →
     forward_source width height p ≠ (0, 0)).
Proof.
  intros Hw Hwe Hh Hhe Hsz F.
  destruct (halves width height Hw Hwe Hh Hhe) as (Ew & Eh & Hw2 & Hh2).
  split; [|split; [|split]].
  - intros p Hp. unfold F.
    by rewrite (convert_forward_texel width height complex_image Hw Hwe Hh Hhe).
  - intros [x y] Hp. apply in_bounds_spec in Hp.
    unfold forward_source. cbn [fst snd].
    destruct (Z.ltb_spec y (height / 2)); lia.
  - intros x y Hx Hy Hs. unfold F.
    rewrite !(convert_forward_texel width height complex_image Hw Hwe Hh Hhe)
      by (try done; apply in_bounds_spec; lia).
    rewrite Hs.
    assert (Hs' : forward_skipped width height (width - x, y) = false).
    { unfold forward_skipped in *. cbn [fst snd] in *.
      destruct (Z.eqb_spec x (width / 2)) as [->|Hne].
      - replace (width - width / 2) with (width / 2) by lia.
        by rewrite Z.eqb_refl.
      - destruct (Z.eqb_spec (width - x) (width / 2)); [lia|done]. }
    rewrite Hs'. unfold forward_shown, forward_source. cbn [fst snd].
    replace (width - (width - x)) with x by lia.
    by rewrite Z.min_comm.
  - intros [x y] Hp Hs E. apply in_bounds_spec in Hp.
    unfold forward_source in E. cbn [fst snd] in E.
    unfold forward_skipped in Hs. cbn [fst snd] in Hs.
    injection E as E1 E2.
    destruct (Z.eqb_spec x (width / 2)); [|lia]. cbn [andb] in Hs.
    apply orb_false_elim in Hs as [H1 H2]. apply Z.eqb_neq in H1, H2.
    destruct (Z.ltb_spec y (height / 2)); lia.
Qed.

Lemma forward_image_layout_witness :
  texelFetch
    (convert_forward 4 2
       (CTexture 3 2 (fun x y => (f32_of_int x, f32_of_int y)))
       (Texture 4 2 (fun _ _ => f32_zero))) (3, 0)
  = texelFetch
      (convert_forward 4 2
         (CTexture 3 2 (fun x y => (f32_of_int x, f32_of_int y)))
         (Texture 4 2 (fun _ _ => f32_zero))) (1, 0).
Proof.
  apply (proj1 (proj2 (proj2 (forward_image_layout 4 2
           (CTexture 3 2 (fun x y => (f32_of_int x, f32_of_int y)))
           (Texture 4 2 (fun _ _ => f32_zero))
           ltac:(lia) eq_refl ltac:(lia) eq_refl eq_refl))) 1 0);
    [lia|lia|reflexivity].
Defined.

(** ** The synthesized seed and the upscale shader *)

Lemma count_on_store_one t p :
  count_on (imageStore t p f32_one) <= count_on t + 1.
Proof.
  destruct (in_bounds (tex_size t) p) eqn:E.
  - pose proof (count_on_imageStore t p f32_one E) as H.
    change (f32_lt f32_half f32_one) with true in H.
    destruct (is_on t p); lia.
  - unfold imageStore. rewrite E. lia.
Qed.

Section SeedCount.
Variable random_state : Type.
Variable geti32 : random_state → Z → Z → Z * random_state.
Variables width height : Z.

Lemma seed_draws_count (l : list Z) : ∀ st,
  let r := foldl (seed_draw random_state geti32 width height) st l in
  tex_size r.1 = tex_size st.1 ∧
  (binary st.1 → binary r.1) ∧
  count_on r.1 <= count_on st.1 + Z.of_nat (length l).
Proof.
  induction l as [|x l IH]; intros st; cbn [foldl length].
  { split; [done|]. split; [done|]. lia. }
  destruct (IH (seed_draw random_state geti32 width height st x)) as (I1 & I2 & I3).
  assert (D : ∃ p s, seed_draw random_state geti32 width height st x
                     = (imageStore st.1 p f32_one, s)).
  { unfold seed_draw. destruct (geti32 st.2 0 (width - 1)) as [X s1].
    destruct (geti32 s1 0 (height - 1)) as [Y s2]. by exists (X, Y), s2. }
  destruct D as (p & s & D). rewrite D in I1, I2, I3 |- *. cbn [fst] in *.
  split; [by rewrite I1, tex_size_imageStore|]. split.
  - intros Hb. apply I2. apply binary_imageStore; auto.
  - pose proof (count_on_store_one st.1 p). lia.
Qed.

Lemma seed_rows_count (rows : list Z) : ∀ st,
  0 <= width →
  let r := foldl (fun st y =>
                    foldl (seed_draw random_state geti32 width height) st
                          (seqZ 0 width)) st rows in
  tex_size r.1 = tex_size st.1 ∧
  (binary st.1 → binary r.1) ∧
  count_on r.1 <= count_on st.1 + Z.of_nat (length rows) * width.
Proof.
  induction rows as [|y rows IH]; intros st Hw; cbn [foldl length].
  { split; [done|]. split; [done|]. lia. }
  destruct (seed_draws_count (seqZ 0 width) st) as (D1 & D2 & D3).
  destruct (IH (foldl (seed_draw random_state geti32 width height) st
                      (seqZ 0 width)) Hw) as (I1 & I2 & I3).
  rewrite length_seqZ in D3.
  split; [by rewrite I1|]. split; [auto|]. lia.
Qed.

End SeedCount.

(** X18.  The seed image [main] synthesizes when no input image is given
    has the requested size, is two-valued, and has at most
    [width * (height * init / 100)] on-pixels, whatever the random
    generator returns.  With [init <= 50] (the default is 10) this is at
    most half of the pixels, and [dispatch] counts the same number as its
    [num_positions]. *)
Theorem random_seed_image_count (random_state : Type)
    (geti32 : random_state → Z → Z → Z * random_state)
    (width height init : Z) (random : random_state) :
  0 <= width → 0 <= height → 0 <= init →
  height * init < 2 ^ 32 → width * height < 2 ^ 32 →
  let seed := (random_seed_image random_state geti32 width height init random).1 in
  tex_size seed = (width, height) ∧
  binary seed ∧
  count_on seed <= width * (height * init / 100) ∧
  (seed_image seed).2 = count_on seed ∧
  (init <= 50 → count_on seed <= width * height / 2).
Proof.
  intros Hw Hh Hi Hov Hnum seed.
  assert (Hu : u32 (height * init) = height * init).
  { unfold u32. apply Z.mod_small. nia. }
  assert (Hrows : 0 <= height * init / 100) by (apply Z.div_pos; nia).
  destruct (seed_rows_count random_state geti32 width height
              (seqZ 0 (u32 (height * init) / 100))
              (Texture width height (fun _ _ => f32_zero), random) Hw)
    as (S1 & S2 & S3).
  fold (random_seed_image random_state geti32 width height init random) in S1, S2, S3.
  fold seed in S1, S2, S3. cbn [fst] in S1, S2, S3.
  rewrite length_seqZ, Hu in S3.
  assert (C0 : count_on (Texture width height (fun _ _ => f32_zero)) = 0).
  { unfold count_on. cbn [tex_width tex_height].
    assert (E : ∀ l, List.filter
                       (is_on (Texture width height (fun _ _ => f32_zero))) l = []).
    { induction l as [|p l IH]; [done|]. cbn [List.filter].
      replace (is_on (Texture width height (fun _ _ => f32_zero)) p) with false;
        [done|].
      unfold is_on, texelFetch. cbn [tex_data]. by destruct (in_bounds _ p). }
    by rewrite E. }
  assert (B0 : binary (Texture width height (fun _ _ => f32_zero))).
  { intros p Hp. left. unfold texelFetch. by rewrite Hp. }
  assert (Hc : count_on seed <= width * (height * init / 100)) by lia.
  split; [exact S1|]. split; [auto|]. split; [exact Hc|]. split.
  - assert (Ew : tex_width seed = width ∧ tex_height seed = height)
      by (unfold tex_size in S1; by injection S1).
    destruct Ew as [Ew Eh].
    destruct (seed_image_spec seed) as (_ & _ & E1 & E2);
      [by rewrite Ew|by rewrite Eh|by rewrite Ew, Eh|].
    by rewrite E1, E2.
  - intros H50.
    assert (height * init / 100 <= height / 2).
    { apply Z.div_le_lower_bound; [lia|].
      pose proof (Z.div_mod (height * init) 100 ltac:(lia)).
      pose proof (Z.mod_pos_bound (height * init) 100 ltac:(lia)). nia. }
    assert (width * (height / 2) <= width * height / 2).
    { apply Z.div_le_lower_bound; [lia|].
      pose proof (Z.div_mod height 2 ltac:(lia)).
      pose proof (Z.mod_pos_bound height 2 ltac:(lia)). nia. }
    nia.
Qed.

Lemma random_seed_image_count_witness :
  count_on (random_seed_image unit (fun s lo hi => (lo, s)) 128 128 10 tt).1
  <= 128 * (128 * 10 / 100).
Proof.
  destruct (random_seed_image_count unit (fun s lo hi => (lo, s)) 128 128 10 tt)
    as (_ & _ & H & _); [lia|lia|lia|reflexivity|reflexivity|exact H].
Defined.

(** X19.  When the logical extents are not below their centring offsets,
    the upscale shader produces a texture of the padded size that holds the
    logical image in its centred window: the texel at [q + offset] is the
    logical texel [q].  Every other padded texel repeats some logical
    texel, so a two-valued pattern stays two-valued. *)
Theorem upscale_shader_window (in_texture : texture2D) (PW PH : Z) :
  fits PW (tex_width in_texture) → fits PH (tex_height in_texture) →
  let U := upscale_shader in_texture (PW, PH) in
  tex_size U = (PW, PH) ∧
  (∀ q, in_bounds (tex_size in_texture) q = true →
     texelFetch U (q.1 + (PW - tex_width in_texture) ÷ 2,
                   q.2 + (PH - tex_height in_texture) ÷ 2)
     = texelFetch in_texture q) ∧
  (∀ p, in_bounds (PW, PH) p = true →
     ∃ q, in_bounds (tex_size in_texture) q = true ∧
          texelFetch U p = texelFetch in_texture q) ∧
  (binary in_texture → binary U).
Proof.
  intros HfW HfH U.
  assert (F : ∀ p, in_bounds (PW, PH) p = true →
            texelFetch U p
            = texelFetch in_texture
                (remap_axis PW (tex_width in_texture) p.1,
                 remap_axis PH (tex_height in_texture) p.2)).
  { intros [x y] Hp. unfold U, upscale_shader, texelFetch at 1.
    cbn [tex_width tex_height tex_data fst snd].
    change (tex_size (Texture PW PH ?f)) with (PW, PH). rewrite Hp.
    by rewrite upscale_position_axes. }
  assert (R : ∀ p, in_bounds (PW, PH) p = true →
            in_bounds (tex_size in_texture)
              (remap_axis PW (tex_width in_texture) p.1,
               remap_axis PH (tex_height in_texture) p.2) = true).
  { intros [x y] Hp. apply in_bounds_spec in Hp as [Hx Hy].
    apply in_bounds_spec. cbn [fst snd].
    split; by apply remap_axis_in_range. }
  split; [reflexivity|]. split; [|split].
  - intros [qx qy] Hq. apply in_bounds_spec in Hq as [Hqx Hqy]. cbn [fst snd].
    destruct (remap_axis_lift PW (tex_width in_texture) qx HfW Hqx) as [Bx Ex].
    destruct (remap_axis_lift PH (tex_height in_texture) qy HfH Hqy) as [By Ey].
    rewrite F by (apply in_bounds_spec; lia). cbn [fst snd].
    by rewrite Ex, Ey.
  - intros p Hp. eexists. split; [by apply R|]. by apply F.
  - intros Hb p Hp. change (tex_size U) with (PW, PH) in Hp.
    rewrite F by done. apply Hb. by apply R.
Qed.

Lemma upscale_shader_window_witness :
  texelFetch (upscale_shader (Texture 100 100 (fun x y => f32_of_int x)) (128, 128))
             (5 + (128 - 100) ÷ 2, 7 + (128 - 100) ÷ 2)
  = texelFetch (Texture 100 100 (fun x y => f32_of_int x)) (5, 7).
Proof.
  apply (proj1 (proj2 (upscale_shader_window
                         (Texture 100 100 (fun x y => f32_of_int x)) 128 128
                         ltac:(unfold fits; repeat split; apply Z.leb_le; reflexivity)
                         ltac:(unfold fits; repeat split; apply Z.leb_le; reflexivity)))
           (5, 7)).
  reflexivity.
Defined.

(** ** The position shader *)

Section PositionFirst.
Variables (G n : Z) (buf : list ivec4).
Hypothesis HG : 1 <= G.
Hypothesis Hn : Z.of_nat (length buf) = n.
Hypothesis Hnan : Forall (λ v, f32_is_nan (vec_z v) = false) buf.

Lemma candidate_not_nan i v : buf !! i = Some v → f32_is_nan (vec_z v) = false.
Proof.
  intros Hv. rewrite Forall_forall in Hnan. apply Hnan.
  by eapply list_elem_of_lookup_2.
Qed.

Abbreviation lane_scanned := (lane_holds G n buf).

Lemma lane_scanned_step local_id (steps : nat) acc :
  0 <= local_id →
  lane_scanned local_id (Z.of_nat steps) acc →
  lane_scanned local_id (Z.of_nat (S steps))
    (let index := G * Z.of_nat steps + local_id in
     if index <? n then
       match buf !! Z.to_nat index with
       | Some position =>
           if f32_lt acc.2 (vec_z position)
           then (vec_xy position, vec_z position) else acc
       | None => acc
       end
     else acc).
Proof.
  intros Hl Hacc. cbv zeta.
  assert (Hidle :
    (∀ v, G * Z.of_nat steps + local_id < n →
          buf !! Z.to_nat (G * Z.of_nat steps + local_id) = Some v →
          f32_lt acc.2 (vec_z v) = false) →
    lane_scanned local_id (Z.of_nat (S steps)) acc).
  { intros Hlast. destruct Hacc as [[-> Hall]|(i & v & Hi & Hc & Ev & -> & Hv & Hmax & Hfirst)].
    - left. split; [done|]. intros i v Hi Hc Ev.
      destruct (decide (i = Z.of_nat steps)) as [->|]; [by apply Hlast|].
      eapply Hall; [|done..]. lia.
    - right. exists i, v. split; [lia|]. do 4 (split; [done|]). split; [|done].
      intros i' v' Hi' Hc' Ev'.
      destruct (decide (i' = Z.of_nat steps)) as [->|]; [by apply Hlast|].
      eapply Hmax; [|done..]. lia. }
  destruct (Z.ltb_spec (G * Z.of_nat steps + local_id) n) as [Hlt|Hge];
    [|apply Hidle; intros; lia].
  destruct (buf !! Z.to_nat (G * Z.of_nat steps + local_id)) as [p|] eqn:E;
    [|apply Hidle; intros; congruence].
  pose proof (candidate_not_nan _ _ E) as Hpn.
  destruct (f32_lt acc.2 (vec_z p)) eqn:Elt;
    [|apply Hidle; intros v _ Ev; by injection Ev as <-].
  right. exists (Z.of_nat steps), p. split; [lia|]. do 2 (split; [done|]).
  split; [done|].
  destruct Hacc as [[-> Hall]|(i & v & Hi & Hc & Ev & -> & Hv & Hmax & Hfirst)].
  - cbn [snd sentinel] in Elt. split; [done|]. split.
    + intros i' v' Hi' Hc' Ev'.
      destruct (decide (i' = Z.of_nat steps)) as [->|].
      * rewrite E in Ev'. injection Ev' as <-. apply f32_lt_irrefl.
      * eapply f32_le_lt_trans; [|exact Elt]. eapply Hall; [|done..]. lia.
    + intros i' v' Hi' Ev'.
      pose proof (candidate_not_nan _ _ Ev') as Hn'.
      destruct (f32_lt_cotrans _ _ _ Hn' Elt) as [C|C]; [|done].
      rewrite (Hall i' v') in C; [done|lia| |done].
      nia.
  - cbn [snd ivec4_to_lane] in Elt. split.
    { by eapply f32_lt_trans. }
    split.
    + intros i' v' Hi' Hc' Ev'.
      destruct (decide (i' = Z.of_nat steps)) as [->|].
      * rewrite E in Ev'. injection Ev' as <-. apply f32_lt_irrefl.
      * eapply f32_le_lt_trans; [|exact Elt]. eapply Hmax; [|done..]. lia.
    + intros i' v' Hi' Ev'.
      pose proof (candidate_not_nan _ _ Ev') as Hn'.
      destruct (f32_lt_cotrans _ _ _ Hn' Elt) as [C|C]; [|done].
      rewrite (Hmax i' v') in C; [done|lia| |done]. nia.
Qed.

Lemma position_lane_first local_id :
  0 <= local_id < G →
  lane_scanned local_id (udiv n G) (position_lane G n buf local_id).
Proof.
  intros Hl. unfold position_lane.
  assert (Hu : 0 <= udiv n G) by (unfold udiv; apply Z.div_pos; lia).
  rewrite <- (Z2Nat.id (udiv n G)) by done.
  induction (Z.to_nat (udiv n G)) as [|steps IH].
  - left. split; [done|]. intros; lia.
  - rewrite seqZ_S, foldl_app. cbn [foldl]. rewrite Z.add_0_l.
    apply lane_scanned_step; [lia|exact IH].
Qed.

Lemma slot_of_lane j :
  0 <= j < n →
  0 <= j mod G < G ∧ 0 <= j / G < udiv n G ∧ j = G * (j / G) + j mod G.
Proof.
  intros Hj. split; [apply Z.mod_pos_bound; lia|]. split.
  - split; [apply Z.div_pos; lia|]. unfold udiv.
    assert (j / G + 1 <= (n + G - 1) / G); [|lia].
    apply Z.div_le_lower_bound; [lia|].
    pose proof (Z.div_mod j G ltac:(lia)).
    pose proof (Z.mod_pos_bound j G ltac:(lia)). nia.
  - apply Z.div_mod. lia.
Qed.

Lemma position_shader_first :
  (∃ v, v ∈ buf ∧ f32_lt f32_neg1e9 (vec_z v) = true) →
  ∃ j v,
    0 <= j < n ∧ buf !! Z.to_nat j = Some v ∧
    position_shader G n buf !! 0%nat = Some (lane_to_ivec4 (ivec4_to_lane v)) ∧
    (∀ (j' : nat) v', buf !! j' = Some v' →
       f32_lt (vec_z v) (vec_z v') = false ∧
       (f32_lt (vec_z v') (vec_z v) = false → lane_order G j (Z.of_nat j'))).
Proof.
  intros (v0 & Hv0 & Hgt0). apply list_elem_of_lookup_1 in Hv0 as [j0 Ej0].
  pose proof (lookup_lt_Some _ _ _ Ej0) as Hj0.
  unfold position_shader.
  set (sh := map (position_lane G n buf) (seqZ 0 G)).
  assert (Hsh : ∀ k, 0 <= k < G →
            sh !! Z.to_nat k = Some (position_lane G n buf k)).
  { intros k Hk. unfold sh. rewrite list_lookup_fmap, lookup_seqZ_lt by lia.
    cbn. by rewrite Z.add_0_l, Z2Nat.id by lia. }
  assert (Hlen : Z.of_nat (length sh) = G).
  { unfold sh. rewrite length_map, length_seqZ. lia. }
  assert (Hval : ∀ k, 0 <= k < G →
            let L := position_lane G n buf k in
            f32_is_nan L.2 = false ∧
            ∀ i v, 0 <= i < udiv n G → G * i + k < n →
                   buf !! Z.to_nat (G * i + k) = Some v →
                   f32_lt L.2 (vec_z v) = false).
  { intros k Hk L. unfold L.
    destruct (position_lane_first k Hk)
      as [[-> Hall]|(i & v & Hi & Hc & Ev & -> & Hv & Hmax & Hfirst)].
    - split; [done|]. exact Hall.
    - split; [by eapply candidate_not_nan|]. exact Hmax. }
  assert (Hshn : Forall (λ x : lane, f32_is_nan x.2 = false) sh).
  { apply Forall_forall. intros a Ha.
    apply list_elem_of_lookup_1 in Ha as [k Ek].
    pose proof (lookup_lt_Some _ _ _ Ek) as Hk.
    rewrite <- (Nat2Z.id k), Hsh in Ek by lia. injection Ek as <-.
    apply Hval. lia. }
  destruct (tree_reduce_first G sh Hlen HG Hshn) as (k & r & Ek & E0 & Hmax & Hfirst).
  pose proof (lookup_lt_Some _ _ _ Ek) as Hk.
  assert (Er : r = position_lane G n buf (Z.of_nat k)).
  { rewrite <- (Nat2Z.id k), Hsh in Ek by lia. by injection Ek. }
  (* the winning lane holds a candidate *)
  destruct (slot_of_lane (Z.of_nat j0) ltac:(lia)) as (Hl0 & Hi0 & Ed0).
  destruct (Hval _ Hl0) as [Hn0 Hm0].
  assert (Hr_gt : f32_lt f32_neg1e9 r.2 = true).
  { pose proof (Hm0 _ v0 Hi0 ltac:(lia)
                  ltac:(by rewrite <- Ed0, Nat2Z.id)) as H1.
    pose proof (Hmax _ _ (Hsh _ Hl0)) as H2.
    assert (Hrn : f32_is_nan r.2 = false).
    { rewrite Forall_forall in Hshn. apply Hshn. by eapply list_elem_of_lookup_2. }
    assert (Hgt1 : f32_lt f32_neg1e9 (position_lane G n buf (Z.of_nat j0 mod G)).2 = true).
    { destruct (f32_lt_cotrans _ _ _ Hn0 Hgt0) as [C|C]; [done|]. by rewrite H1 in C. }
    destruct (f32_lt_cotrans _ _ _ Hrn Hgt1) as [C|C]; [done|]. by rewrite H2 in C. }
  destruct (position_lane_first (Z.of_nat k) ltac:(lia))
    as [[Es _]|(i & v & Hi & Hc & Ev & El & Hv & Hvmax & Hvfirst)].
  { rewrite <- Er in Es. rewrite Es in Hr_gt. done. }
  rewrite <- Er in El.
  exists (G * i + Z.of_nat k), v. split; [nia|]. split; [done|]. split.
  { rewrite E0, El. apply list_lookup_insert_eq. lia. }
  intros j' v' Ej'.
  pose proof (lookup_lt_Some _ _ _ Ej') as Hj'.
  destruct (slot_of_lane (Z.of_nat j') ltac:(lia)) as (Hl' & Hi' & Ed').
  destruct (Hval _ Hl') as [Hn' Hm'].
  pose proof (Hm' _ v' Hi' ltac:(lia) ltac:(by rewrite <- Ed', Nat2Z.id)) as HL'.
  pose proof (Hmax _ _ (Hsh _ Hl')) as HrL. rewrite El in HrL. cbn [snd ivec4_to_lane] in HrL.
  pose proof (candidate_not_nan _ _ Ej') as Hvn'.
  split.
  { eapply f32_le_le_trans; [exact Hn'|exact HL'|exact HrL]. }
  intros Htie. unfold lane_order.
  assert (Ek' : (G * i + Z.of_nat k) mod G = Z.of_nat k).
  { rewrite Z.add_comm, Z.mul_comm, Z.mod_add, Z.mod_small by lia. done. }
  rewrite Ek'.
  destruct (Z.lt_trichotomy (Z.of_nat k) (Z.of_nat j' mod G)) as [Hlt|[Heq|Hgt]].
  - by left.
  - right. split; [done|].
    destruct (Z.le_gt_cases i (Z.of_nat j' / G)) as [Hle|Hgt']; [nia|].
    exfalso.
    assert (f32_lt (vec_z v') (vec_z v) = true); [|congruence].
    apply (Hvfirst (Z.of_nat j' / G)); [lia|]. rewrite Heq, <- Ed'.
    by rewrite Nat2Z.id.
  - exfalso.
    assert (Hlt' : f32_lt (position_lane G n buf (Z.of_nat j' mod G)).2 (vec_z v) = true).
    { specialize (Hfirst (Z.to_nat (Z.of_nat j' mod G)) _ ltac:(lia) (Hsh _ Hl')).
      by rewrite El in Hfirst. }
    destruct (f32_lt_cotrans _ _ _ Hvn' Hlt') as [C|C]; congruence.
Qed.

End PositionFirst.

(** X20.  The position shader, run on [n >= 1] candidates none of which is
    a NaN and at least one of which exceeds [-1e9], writes into slot 0 one
    of the candidates.  No candidate weighs more, and among the candidates
    of that maximal weight it is the one the lanes meet first: the one
    with the smallest [slot mod GROUP_SIZE], and among those the one with
    the smallest slot. *)
Theorem position_shader_first_candidate (G n : Z) (buf : list ivec4) :
  1 <= G → Z.of_nat (length buf) = n →
  Forall (λ v, f32_is_nan (vec_z v) = false) buf →
  (∃ v, v ∈ buf ∧ f32_lt f32_neg1e9 (vec_z v) = true) →
  ∃ j v,
    0 <= j < n ∧ buf !! Z.to_nat j = Some v ∧
    position_shader G n buf !! 0%nat
    = Some (IVec4 (vec_x v) (vec_y v) (vec_z v) 0) ∧
    (∀ (j' : nat) v', buf !! j' = Some v' →
       f32_lt (vec_z v) (vec_z v') = false ∧
       (f32_lt (vec_z v') (vec_z v) = false → lane_order G j (Z.of_nat j'))).
Proof.
  intros HG Hn Hnan Hex.
  destruct (position_shader_first G n buf HG Hn Hnan Hex) as (j & v & H).
  exists j, v. exact H.
Qed.

Lemma position_shader_first_candidate_witness :
  ∃ j v,
    0 <= j < 3 ∧
    [IVec4 1 1 f32_zero 0; IVec4 2 2 f32_one 0; IVec4 3 3 f32_one 0]
      !! Z.to_nat j = Some v ∧
    position_shader 2 3
      [IVec4 1 1 f32_zero 0; IVec4 2 2 f32_one 0; IVec4 3 3 f32_one 0] !! 0%nat
    = Some (IVec4 (vec_x v) (vec_y v) (vec_z v) 0).
Proof.
  destruct (position_shader_first_candidate 2 3
              [IVec4 1 1 f32_zero 0; IVec4 2 2 f32_one 0; IVec4 3 3 f32_one 0])
    as (j & v & H1 & H2 & H3 & _).
  - lia.
  - reflexivity.
  - repeat constructor.
  - exists (IVec4 2 2 f32_one 0). split; [|reflexivity].
    apply elem_of_cons. right. apply elem_of_cons. by left.
  - exists j, v. repeat split; try assumption; lia.
Defined.

(** ** Resources of [dispatch] *)

Lemma elem_of_filter_true {A} (f : A → bool) (l : list A) (a : A) :
  a ∈ List.filter f l → f a = true.
Proof.
  intros Ha. apply list_elem_of_In in Ha. by apply List.filter_In in Ha as [_ ?].
Qed.

(** X21.  [dispatch] only ever reports as created resources the device
    granted.  For an accepted input (extents and layer count at least 1),
    if the device refuses one of the eight resources every run needs, or
    the kernel spectrum cannot be produced, [dispatch] returns the null
    image, the greedy loops are not entered and no division by zero is
    reached. *)
Theorem dispatch_stops_at_refused_resource
    (device : resource → bool)
    (forward_transform : texture2D → option ctexture)
    (backward_transform : ctexture → option texture2D)
    (kernel_spectrum : f32 → f32 → Z → Z → option ctexture)
    (sb : list ivec4) (image : texture2D) (layers : Z) (sigma epsilon : f32) :
  let d := dispatch device forward_transform backward_transform kernel_spectrum
                    sb image layers sigma epsilon in
  (∀ r, r ∈ created d → device r = true) ∧
  (1 <= tex_width image → 1 <= tex_height image → 1 <= layers →
   (∃ r, r ∈ [NoiseTexture; CopyTexture; LayerTexture; KernelTexture;
              ConvolutionTexture; ForwardTexture0; ForwardTexture1;
              BackwardTexture] ∧ device r = false) ∨
   kernel_spectrum sigma epsilon (Z.max (npot (tex_width image)) MinSize)
                   (Z.max (npot (tex_height image)) MinSize) = None →
   noise_image d = None ∧ generation_started d = false ∧
   division_by_zero d = false).
Proof.
  intros d. unfold d, dispatch, failed.
  destruct (Z.ltb_spec (tex_width image) 1) as [Hw|Hw].
  { cbn [orb created]. split; [intros r Hr; by apply elem_of_nil in Hr|]. lia. }
  destruct (Z.ltb_spec (tex_height image) 1) as [Hh|Hh].
  { cbn [orb created]. split; [intros r Hr; by apply elem_of_nil in Hr|]. lia. }
  destruct (Z.ltb_spec layers 1) as [Hl|Hl].
  { cbn [orb created]. split; [intros r Hr; by apply elem_of_nil in Hr|]. lia. }
  cbn [orb].
  destruct (device NoiseTexture) eqn:D1; cbn [negb andb];
    [|split; [intros r; apply elem_of_filter_true|done]].
  destruct (device CopyTexture) eqn:D2; cbn [negb andb];
    [|split; [intros r; apply elem_of_filter_true|done]].
  destruct (device LayerTexture) eqn:D3; cbn [negb andb];
    [|split; [intros r; apply elem_of_filter_true|done]].
  destruct (device KernelTexture) eqn:D4; cbn [negb andb];
    [|split; [intros r; apply elem_of_filter_true|done]].
  destruct (device ConvolutionTexture) eqn:D5;
    [|split; [intros r; apply elem_of_filter_true|done]].
  destruct (kernel_spectrum sigma epsilon _ _) as [conv|] eqn:K;
    [|split; [intros r; apply elem_of_filter_true|done]].
  destruct (device ForwardTexture0) eqn:D6; cbn [negb andb];
    [|split; [intros r; apply elem_of_filter_true|done]].
  destruct (device ForwardTexture1) eqn:D7; cbn [negb andb];
    [|split; [intros r; apply elem_of_filter_true|done]].
  destruct (device BackwardTexture) eqn:D8; cbn [negb andb];
    [|split; [intros r; apply elem_of_filter_true|done]].
  destruct (negb _ && negb (device UpscaleTexture)) eqn:D9;
    [split; [intros r; apply elem_of_filter_true|done]|].
  assert (Hgranted : ∀ r,
            r ∈ [NoiseTexture; CopyTexture; LayerTexture; KernelTexture;
                 ConvolutionTexture; ForwardTexture0; ForwardTexture1;
                 BackwardTexture]
                ++ (if negb ((tex_width image
                              =? Z.max (npot (tex_width image)) MinSize)
                             && (tex_height image
                                 =? Z.max (npot (tex_height image)) MinSize))
                    then [UpscaleTexture] else []) →
            device r = true).
  { intros r Hr. apply elem_of_app in Hr as [Hr|Hr].
    + repeat (apply elem_of_cons in Hr as [->|Hr]; [done|]).
      by apply elem_of_nil in Hr.
    + destruct (negb _) eqn:Er in Hr, D9; [|by apply elem_of_nil in Hr].
      apply list_elem_of_singleton in Hr as ->. cbn [andb] in D9.
      by destruct (device UpscaleTexture). }
  destruct ((_ =? 0) && _);
    cbn [created noise_image generation_started division_by_zero];
    (split; [exact Hgranted|]);
    (intros _ _ _ [(r & Hr & Hd)|Hk]; [|congruence]);
    exfalso; repeat (apply elem_of_cons in Hr as [->|Hr]; [congruence|]);
    by apply elem_of_nil in Hr.
Qed.

Lemma dispatch_stops_at_refused_resource_witness :
  noise_image
    (dispatch (fun r => match r with BackwardTexture => false | _ => true end)
       flat_forward flat_backward (fun _ _ _ _ => Some flat_spectrum) []
       (Texture 64 64 (fun _ _ => f32_zero)) 1 f32_one f32_zero) = None.
Proof.
  refine (proj1 (proj2 (dispatch_stops_at_refused_resource
                  (fun r => match r with BackwardTexture => false | _ => true end)
                  flat_forward flat_backward (fun _ _ _ _ => Some flat_spectrum) []
                  (Texture 64 64 (fun _ _ => f32_zero)) 1 f32_one f32_zero)
                _ _ _ _)).
  - cbn. lia.
  - cbn. lia.
  - lia.
  - left. exists BackwardTexture. split; [|reflexivity].
    do 7 (apply elem_of_cons; right). apply elem_of_cons. by left.
Defined.

(** ** How the search breaks ties *)

Lemma in_tile_slot G gx gy p :
  1 <= G → in_tile G gx gy p → p.1 / G = gx ∧ p.2 / G = gy.
Proof.
  intros HG [Hx Hy]. split.
  - symmetry. apply (Z.div_unique_pos p.1 G gx (p.1 - G * gx)); lia.
  - symmetry. apply (Z.div_unique_pos p.2 G gy (p.2 - G * gy)); lia.
Qed.

Lemma in_own_tile G p : 1 <= G → in_tile G (p.1 / G) (p.2 / G) p.
Proof.
  intros HG. unfold in_tile.
  pose proof (Z.div_mod p.1 G ltac:(lia)). pose proof (Z.mod_pos_bound p.1 G ltac:(lia)).
  pose proof (Z.div_mod p.2 G ltac:(lia)). pose proof (Z.mod_pos_bound p.2 G ltac:(lia)).
  lia.
Qed.

(** X22.  With bounded energies and at least one eligible pixel, the
    two-stage search returns a pixel of maximal weight, and among the
    pixels of that weight the one a fixed order puts first: tiles are
    ordered by their slot modulo 256 and then by their slot, the pixels of
    one tile row by row.  The result of a search is thus determined by the
    pattern and the energies alone. *)
Theorem extremal_search_tie_break (k : sample_kernel) (T E : texture2D) :
  1 <= tex_width T ∧ tex_width T mod SampleGroupSize = 0 →
  1 <= tex_height T ∧ tex_height T mod SampleGroupSize = 0 →
  (∀ p, in_bounds (tex_size T) p = true → f32_bounded (texelFetch E p)) →
  (∃ q, in_bounds (tex_size T) q = true ∧ eligible k (texelFetch T q) = true) →
  ∃ p,
    in_bounds (tex_size T) p = true ∧
    extremal_search k T E !! 0%nat = Some (lane_to_ivec4 (pixel_lane k T E p)) ∧
    ∀ q, in_bounds (tex_size T) q = true →
      f32_lt (pixel_weight k T E p) (pixel_weight k T E q) = false ∧
      (f32_lt (pixel_weight k T E q) (pixel_weight k T E p) = false →
       (tile_slot (tex_width T) p ≠ tile_slot (tex_width T) q ∧
        lane_order PositionGroupSize (tile_slot (tex_width T) p)
                   (tile_slot (tex_width T) q)) ∨
       (tile_slot (tex_width T) p = tile_slot (tex_width T) q ∧
        (p.2 < q.2 ∨ (p.2 = q.2 ∧ p.1 <= q.1)))).
Proof.
  intros HW HH Hen (q0 & Hq0 & He0).
  assert (Hnan : ∀ p, in_bounds (tex_size T) p = true →
            f32_is_nan (pixel_weight k T E p) = false).
  { intros p Hp. apply sample_weight_not_nan. by apply Hen. }
  destruct (sample_tile_first k T E ltac:(split; [lia|apply HW])
              ltac:(split; [lia|apply HH]) Hnan) as [Hlen Htile].
  set (nx := udiv (tex_width T) SampleGroupSize) in *.
  set (ny := udiv (tex_height T) SampleGroupSize) in *.
  set (buf := sample_shader SampleGroupSize k T E) in *.
  assert (Enx : nx = tex_width T / 16) by (apply udiv_exact; [done|apply HW]).
  assert (Eny : ny = tex_height T / 16) by (apply udiv_exact; [done|apply HH]).
  assert (Hw16 : tex_width T = 16 * nx).
  { destruct HW as [_ HW]. change SampleGroupSize with 16 in HW.
    pose proof (Z.div_mod (tex_width T) 16 ltac:(lia)). lia. }
  assert (Hh16 : tex_height T = 16 * ny).
  { destruct HH as [_ HH]. change SampleGroupSize with 16 in HH.
    pose proof (Z.div_mod (tex_height T) 16 ltac:(lia)). lia. }
  assert (Hnx : 1 <= nx) by lia. assert (Hny : 1 <= ny) by lia.
  (* the tile of a pixel *)
  assert (Hpix : ∀ q, in_bounds (tex_size T) q = true →
            0 <= q.1 / 16 < nx ∧ 0 <= q.2 / 16 < ny ∧
            0 <= tile_slot (tex_width T) q < nx * ny).
  { intros [qx qy] Hq. apply in_bounds_spec in Hq as [Hqx Hqy].
    unfold tile_slot. fold nx. change SampleGroupSize with 16. cbn [fst snd].
    assert (0 <= qx / 16 < nx).
    { split; [apply Z.div_pos; lia|apply Z.div_lt_upper_bound; lia]. }
    assert (0 <= qy / 16 < ny).
    { split; [apply Z.div_pos; lia|apply Z.div_lt_upper_bound; lia]. }
    split; [done|]. split; [done|]. nia. }
  (* the candidate of the tile of a pixel *)
  assert (Hcand : ∀ q, in_bounds (tex_size T) q = true →
            ∃ p', buf !! Z.to_nat (tile_slot (tex_width T) q)
                  = Some (lane_to_ivec4 (pixel_lane k T E p')) ∧
                  in_tile 16 (q.1 / 16) (q.2 / 16) p' ∧
                  f32_lt (pixel_weight k T E p') (pixel_weight k T E q) = false ∧
                  (q.2 < p'.2 ∨ (q.2 = p'.2 ∧ q.1 < p'.1) →
                   f32_lt (pixel_weight k T E q) (pixel_weight k T E p') = true)).
  { intros q Hq. destruct (Hpix q Hq) as (Hx & Hy & _).
    destruct (Htile (q.1 / 16) (q.2 / 16) Hx Hy) as (p' & E1 & E2 & E3 & E4).
    exists p'. split; [exact E1|]. split; [exact E2|].
    pose proof (in_own_tile 16 q ltac:(lia)) as Hown.
    split; [by apply E3|]. intros Hlt. by apply E4. }
  assert (Hbn : Forall (λ v, f32_is_nan (vec_z v) = false) buf).
  { apply Forall_forall. intros v Hv.
    apply elem_of_sample_shader in Hv as (gx & gy & Hgx & Hgy & ->).
    destruct (Htile gx gy Hgx Hgy) as (p' & E1 & E2 & _).
    destruct (lookup_grid (fun gx gy => sample_group SampleGroupSize k T E (gx, gy))
                nx (Z.to_nat ny) ltac:(lia)) as [_ HG].
    rewrite Z2Nat.id in HG by lia.
    fold buf in E1. unfold buf, sample_shader in E1. fold nx ny in E1.
    rewrite HG in E1 by done. apply (inj Some) in E1. rewrite E1.
    cbn [lane_to_ivec4 vec_z].
    apply Hnan. apply in_bounds_spec.
    destruct E2 as [Ex Ey]. change SampleGroupSize with 16 in *.
    destruct p' as [px py]. cbn [fst snd] in *. lia. }
  assert (Hex : ∃ v, v ∈ buf ∧ f32_lt f32_neg1e9 (vec_z v) = true).
  { destruct (Hcand q0 Hq0) as (p' & E1 & _ & E3 & _).
    eexists. split; [by eapply list_elem_of_lookup_2|].
    cbn [lane_to_ivec4 vec_z pixel_lane snd].
    assert (Hgt : f32_lt f32_neg1e9 (pixel_weight k T E q0) = true).
    { apply sample_weight_above; [by apply Hen|done]. }
    fold (pixel_weight k T E p').
    assert (Hn' : f32_is_nan (pixel_weight k T E p') = false).
    { rewrite Forall_forall in Hbn.
      apply (Hbn _ (list_elem_of_lookup_2 _ _ _ E1)). }
    destruct (f32_lt_cotrans _ _ _ Hn' Hgt) as [C|C]; [done|congruence]. }
  destruct (position_shader_first PositionGroupSize (nx * ny) buf ltac:(done)
              Hlen Hbn Hex) as (j & v & Hj & Ev & E0 & Hall).
  (* the winning candidate is the candidate of a tile *)
  set (gx := j mod nx). set (gy := j / nx).
  assert (Hgx : 0 <= gx < nx) by (apply Z.mod_pos_bound; lia).
  assert (Hgy : 0 <= gy < ny).
  { split; [apply Z.div_pos; lia|apply Z.div_lt_upper_bound; lia]. }
  assert (Ej : j = nx * gy + gx) by (apply Z.div_mod; lia).
  destruct (Htile gx gy Hgx Hgy) as (p & P1 & P2 & P3 & P4).
  fold buf in P1. rewrite <- Ej, Ev in P1. injection P1 as ->.
  destruct (in_tile_slot 16 gx gy p ltac:(lia) P2) as [Tx Ty].
  assert (Esp : tile_slot (tex_width T) p = j).
  { unfold tile_slot. fold nx. change SampleGroupSize with 16. by rewrite Tx, Ty. }
  assert (Hpb : in_bounds (tex_size T) p = true).
  { apply in_bounds_spec. destruct P2 as [Px Py]. destruct p as [px py].
    change SampleGroupSize with 16 in Px, Py. cbn [fst snd] in *. lia. }
  exists p. split; [exact Hpb|]. split.
  { unfold extremal_search. fold nx ny buf. rewrite E0.
    by destruct p as [px py]. }
  intros q Hq.
  destruct (Hcand q Hq) as (p' & C1 & C2 & C3 & C4).
  destruct (Hpix q Hq) as (_ & _ & Hsq).
  destruct (Hall _ _ C1) as [A1 A2].
  cbn [lane_to_ivec4 vec_z pixel_lane snd] in A1, A2.
  fold (pixel_weight k T E p) in A1, A2. fold (pixel_weight k T E p') in A1, A2.
  assert (Hn' : f32_is_nan (pixel_weight k T E p') = false).
  { rewrite Forall_forall in Hbn.
    apply (Hbn _ (list_elem_of_lookup_2 _ _ _ C1)). }
  split.
  { eapply f32_le_le_trans; [exact Hn'|exact C3|exact A1]. }
  intros Htie.
  assert (Htie' : f32_lt (pixel_weight k T E p') (pixel_weight k T E p) = false).
  { destruct (f32_lt (pixel_weight k T E p') (pixel_weight k T E p)) eqn:C; [|done].
    destruct (f32_lt_cotrans _ _ _ (Hnan q Hq) C); congruence. }
  specialize (A2 Htie'). rewrite Z2Nat.id in A2 by lia. rewrite Esp.
  destruct (decide (j = tile_slot (tex_width T) q)) as [Heq|Hne]; [|by left].
  right. split; [done|].
  assert (p' = p) as ->.
  { rewrite <- Heq, Ev in C1. injection C1 as C1x C1y _.
    destruct p, p'. cbn [fst snd] in *. congruence. }
  destruct (Z.lt_trichotomy q.2 p.2) as [Hlt|[Hqe|Hgt]].
  - rewrite C4 in Htie by lia. done.
  - destruct (Z.lt_ge_cases q.1 p.1) as [Hlt|Hge]; [|lia].
    rewrite C4 in Htie by lia. done.
  - lia.
Qed.

Lemma extremal_search_tie_break_witness :
  ∃ p,
    in_bounds (64, 64) p = true ∧
    extremal_search MAX_SAMPLE_SHADER (pattern_of [(16, 0); (0, 1)])
      (field_of (0, 0) (0, 0) f32_zero f32_zero) !! 0%nat
    = Some (lane_to_ivec4
              (pixel_lane MAX_SAMPLE_SHADER (pattern_of [(16, 0); (0, 1)])
                 (field_of (0, 0) (0, 0) f32_zero f32_zero) p)).
Proof.
  destruct (extremal_search_tie_break MAX_SAMPLE_SHADER
              (pattern_of [(16, 0); (0, 1)])
              (field_of (0, 0) (0, 0) f32_zero f32_zero))
    as (p & H1 & H2 & _).
  - exact padded_64.
  - exact padded_64.
  - intros p Hp. unfold texelFetch.
    change (tex_size (field_of (0, 0) (0, 0) f32_zero f32_zero)) with (64, 64).
    change (tex_size (pattern_of [(16, 0); (0, 1)])) with (64, 64) in Hp.
    rewrite Hp. cbn [field_of tex_data].
    repeat case_bool_decide; split; reflexivity.
  - exists (16, 0). split; reflexivity.
  - exists p. split; assumption.
Defined.

(** ** [dispatch] as a whole *)


